(** * An immutable left-leaning red-black tree (package llrb)

    The development has three layers.

    - [node], [Tree], [Txn]: the Go code of node.go and tree.go, embedded over
      an explicit store of heap cells.  Pointers are addresses into the store,
      field assignments are in-place updates of a cell, [copy] and the
      composite literals allocate.  Nothing is copied that the source does not
      copy, so sharing between snapshots is visible.
    - [Abs]: the same algorithms on an inductive tree, used as the abstract
      reading of a heap that is shaped like a tree.
    - the representation predicate [repr] and the simulation lemmas that tie
      the two together.

    The file gives all definitions first: the embedded code, the checkers of
    the test suite, and the vocabulary of the statements (list operations,
    invariants, histories, queries).  The proofs follow: the shape and
    contents lemmas on the abstract tree, the simulation of the heap code,
    the Tree and Txn methods on the store, and the theorems about the
    package. *)

From Stdlib Require Import ZArith Lia Sorted.
From stdpp Require Import base tactics option list gmap sets.

Local Open Scope Z_scope.

(** ** Elements

    [Element] is an interface with one method.  The comparator is supplied by
    the caller; only the sign of its result is used. *)

Class ElementOps (Element : Type) := Compare : Element → Element → Z.

(** The laws a caller's comparator is expected to obey: a three-way
    comparison of a total preorder. *)
Class TotalPreorder (Element : Type) `{ElementOps Element} : Prop := {
  compare_flip : ∀ a b : Element, Compare a b < 0 ↔ 0 < Compare b a;
  compare_trans : ∀ a b c : Element,
    Compare a b <= 0 → Compare b c <= 0 → Compare a c <= 0
}.

(** ** Outcomes of a call *)

Inductive panic : Set :=
| NilDeref        (* runtime error: nil pointer dereference, or a method
                     called on a nil interface value *)
| UnknownType     (* the comparators of this repository panic when they are
                     handed a nil Element *)
| InvertedRange   (* panic("inverted range") *)
| BadAddress.     (* an address outside the store; Go cannot produce one *)

Inductive result (A : Type) : Type :=
| Ok (a : A)
| Panic (p : panic)
| OutOfFuel.
Arguments Ok {A} a.
Arguments Panic {A} p.
Arguments OutOfFuel {A}.

(** A computation over a state [S] that may panic. *)
Definition ST (S A : Type) : Type := S → result (A * S).

Definition ret {S A} (a : A) : ST S A := λ s, Ok (a, s).

Definition bind {S A B} (m : ST S A) (k : A → ST S B) : ST S B :=
  λ s, match m s with
       | Ok (a, s') => k a s'
       | Panic p => Panic p
       | OutOfFuel => OutOfFuel
       end.

Definition throw {S A} (p : panic) : ST S A := λ _, Panic p.
Definition out_of_fuel {S A} : ST S A := λ _, OutOfFuel.

Notation "'let!' x ':=' m 'in' k" := (bind m (λ x, k))
  (at level 10, x pattern, m at level 100, k at level 200,
   format "'[v' 'let!'  x  ':='  m  'in' '/' k ']'").
Notation "m ';;' k" := (bind m (λ _, k))
  (at level 100, k at level 200, right associativity).

(** Go's [int], taken at 64 bits, with its wrap-around. *)
Definition int_wrap (z : Z) : Z := (z + 2 ^ 63) mod 2 ^ 64 - 2 ^ 63.
Definition int_add (a b : Z) : Z := int_wrap (a + b).

(** ** The store *)

Definition ptr : Type := option nat.

Definition red : bool := false.
Definition black : bool := true.

Record Tree : Type := mkTree {
  root : ptr;
  size : Z
}.

(** A [*Txn] is only ever read, so it is taken by value. *)
Record Txn : Type := mkTxn {
  tree : ptr
}.

Definition with_root (t : Tree) (p : ptr) : Tree := mkTree p (size t).
Definition with_size (t : Tree) (z : Z) : Tree := mkTree (root t) z.

Section Memory.
Context {Element : Type}.

Record node : Type := mkNode {
  elem : option Element;
  right : ptr;
  left : ptr;
  color : bool
}.

Record store : Type := mkStore {
  nodes : list node;
  trees : list Tree
}.

Definition with_elem (n : node) (e : option Element) : node :=
  mkNode e (right n) (left n) (color n).
Definition with_right (n : node) (p : ptr) : node :=
  mkNode (elem n) p (left n) (color n).
Definition with_left (n : node) (p : ptr) : node :=
  mkNode (elem n) (right n) p (color n).
Definition with_color (n : node) (c : bool) : node :=
  mkNode (elem n) (right n) (left n) c.

(** Run a computation on one part of the store. *)
Definition on_nodes {A} (m : ST (list node) A) : ST store A :=
  λ s, match m (nodes s) with
       | Ok (a, h) => Ok (a, mkStore h (trees s))
       | Panic p => Panic p
       | OutOfFuel => OutOfFuel
       end.

Definition on_trees {A} (m : ST (list Tree) A) : ST store A :=
  λ s, match m (trees s) with
       | Ok (a, h) => Ok (a, mkStore (nodes s) h)
       | Panic p => Panic p
       | OutOfFuel => OutOfFuel
       end.
End Memory.
Arguments node : clear implicits.
Arguments store : clear implicits.

(** Cells of any kind: read through a pointer, write through a pointer,
  allocate at the end of the store. *)
Section Cells.
Context {C : Type}.

Definition load (p : ptr) : ST (list C) C :=
  λ h, match p with
       | None => Panic NilDeref
       | Some a => match h !! a with
                   | Some c => Ok (c, h)
                   | None => Panic BadAddress
                   end
       end.

Definition update (p : ptr) (f : C → C) : ST (list C) unit :=
  λ h, match p with
       | None => Panic NilDeref
       | Some a => match h !! a with
                   | Some c => Ok (tt, <[a := f c]> h)
                   | None => Panic BadAddress
                   end
       end.

Definition new (c : C) : ST (list C) ptr :=
  λ h, Ok (Some (length h), h ++ [c]).
End Cells.

(** A visitor is a Go closure; its captured variables are the state [V]. *)
Definition Visitor (Element V : Type) : Type := option Element → V → bool * V.

(** ** node.go *)

Module node.
Section node.
Context {Element : Type} {Cmp : ElementOps Element}.

Local Abbreviation H := (ST (list (node Element))).

(** [elem.Compare(other)].  A nil receiver is a method call on a nil
    interface; a nil argument reaches the caller's comparator. *)
Definition compare (a b : option Element) : H Z :=
  match a, b with
  | None, _ => throw NilDeref
  | Some _, None => throw UnknownType
  | Some x, Some y => ret (Compare x y)
  end.

(** Short-circuit [&&]. *)
Definition and_then (a b : H bool) : H bool :=
  let! x := a in if x then b else ret false.

Definition get_elem (n : ptr) : H (option Element) :=
  let! c := load n in ret (elem c).
Definition get_right (n : ptr) : H ptr := let! c := load n in ret (right c).
Definition get_left (n : ptr) : H ptr := let! c := load n in ret (left c).
Definition get_color (n : ptr) : H bool := let! c := load n in ret (color c).

Definition set_elem (n : ptr) (e : option Element) : H unit :=
  update n (λ c, with_elem c e).
Definition set_right (n : ptr) (p : ptr) : H unit :=
  update n (λ c, with_right c p).
Definition set_left (n : ptr) (p : ptr) : H unit :=
  update n (λ c, with_left c p).
Definition set_color (n : ptr) (b : bool) : H unit :=
  update n (λ c, with_color c b).

Definition copy (n : ptr) : H ptr :=
  let! c := load n in
  new (mkNode (elem c) (right c) (left c) (color c)).

Definition rotateLeft (n : ptr) : H ptr :=
  let! root := get_right n in
  let! rl := get_left root in
  set_right n rl ;;
  set_left root n ;;
  let! c := get_color n in
  set_color root c ;;
  set_color n red ;;
  ret root.

Definition rotateRight (n : ptr) : H ptr :=
  let! root := get_left n in
  let! lr := get_right root in
  set_left n lr ;;
  set_right root n ;;
  let! c := get_color n in
  set_color root c ;;
  set_color n red ;;
  ret root.

Definition flipColors (n : ptr) : H unit :=
  let! c := get_color n in
  set_color n (negb c) ;;
  let! l := get_left n in
  let! lc := get_color l in
  set_color l (negb lc) ;;
  let! r := get_right n in
  let! rc := get_color r in
  set_color r (negb rc).

Definition isRed (n : ptr) : H bool :=
  match n with
  | None => ret false
  | Some _ => let! c := get_color n in ret (Bool.eqb c red)
  end.

Definition fixUp (n : ptr) : H ptr :=
  let! b := (let! r := get_right n in isRed r) in
  let! n := (if b then rotateLeft n else ret n) in
  let! b := and_then (let! l := get_left n in isRed l)
                     (let! l := get_left n in
                      let! ll := get_left l in isRed ll) in
  let! n := (if b then rotateRight n else ret n) in
  let! b := and_then (let! l := get_left n in isRed l)
                     (let! r := get_right n in isRed r) in
  (if b then flipColors n else ret tt) ;;
  ret n.

Definition moveRedLeft (n : ptr) : H ptr :=
  flipColors n ;;
  let! b := (let! r := get_right n in
             let! rl := get_left r in isRed rl) in
  if b then
    let! r := get_right n in
    let! r' := rotateRight r in
    set_right n r' ;;
    let! n := rotateLeft n in
    flipColors n ;;
    ret n
  else ret n.

Definition moveRedRight (n : ptr) : H ptr :=
  flipColors n ;;
  let! b := (let! l := get_left n in
             let! ll := get_left l in isRed ll) in
  if b then
    let! n := rotateRight n in
    flipColors n ;;
    ret n
  else ret n.

(** [for n != nil { switch ... }]: one unit of fuel per iteration. *)
Fixpoint find (fuel : nat) (n : ptr) (e : option Element) : H ptr :=
  match n with
  | None => ret n
  | Some _ =>
    match fuel with
    | O => out_of_fuel
    | S fuel =>
      let! ne := get_elem n in
      let! cmp := compare e ne in
      if cmp =? 0 then ret n
      else if cmp <? 0 then let! l := get_left n in find fuel l e
      else let! r := get_right n in find fuel r e
    end
  end.

Fixpoint insert (fuel : nat) (n : ptr) (e : option Element) : H (ptr * Z) :=
  match fuel with
  | O => out_of_fuel
  | S fuel =>
    match n with
    | None => let! p := new (mkNode e None None red) in ret (p, 1)
    | Some _ =>
      let! ne := get_elem n in
      match ne with
      | None => set_elem n e ;; ret (n, 1)
      | Some _ =>
        let! root := copy n in
        let! re := get_elem root in
        let! cmp := compare e re in
        let! m :=
          (if cmp =? 0 then set_elem root e ;; ret 0
           else if cmp <? 0 then
             let! l := get_left root in
             let! (l', m) := insert fuel l e in
             set_left root l' ;; ret m
           else
             let! r := get_right root in
             let! (r', m) := insert fuel r e in
             set_right root r' ;; ret m) in
        let! b := and_then (let! r := get_right root in isRed r)
                           (let! l := get_left root in
                            let! x := isRed l in ret (negb x)) in
        let! root := (if b then rotateLeft root else ret root) in
        let! b := and_then (let! l := get_left root in isRed l)
                           (let! l := get_left root in
                            let! ll := get_left l in isRed ll) in
        let! root := (if b then rotateRight root else ret root) in
        let! b := and_then (let! l := get_left root in isRed l)
                           (let! r := get_right root in isRed r) in
        (if b then flipColors root else ret tt) ;;
        ret (root, m)
      end
    end
  end.

Fixpoint deleteMin (fuel : nat) (n : ptr) : H (ptr * Z) :=
  match fuel with
  | O => out_of_fuel
  | S fuel =>
    let! l := get_left n in
    match l with
    | None => ret (None, -1)
    | Some _ =>
      let! b := and_then (let! x := isRed l in ret (negb x))
                         (let! ll := get_left l in
                          let! x := isRed ll in ret (negb x)) in
      let! n := (if b then moveRedLeft n else ret n) in
      let! l := get_left n in
      let! (l', m) := deleteMin fuel l in
      set_left n l' ;;
      let! root := fixUp n in
      ret (root, m)
    end
  end.

Fixpoint deleteMax (fuel : nat) (n : ptr) : H (ptr * Z) :=
  match fuel with
  | O => out_of_fuel
  | S fuel =>
    let! l := get_left n in
    let! b := (match l with
               | None => ret false
               | Some _ => isRed l
               end) in
    let! n := (if b then rotateRight n else ret n) in
    let! r := get_right n in
    match r with
    | None => ret (None, -1)
    | Some _ =>
      let! b := and_then (let! x := isRed r in ret (negb x))
                         (let! rl := get_left r in
                          let! x := isRed rl in ret (negb x)) in
      let! n := (if b then moveRedRight n else ret n) in
      let! r := get_right n in
      let! (r', m) := deleteMax fuel r in
      set_right n r' ;;
      let! root := fixUp n in
      ret (root, m)
    end
  end.

(** [for ; n.left != nil; n = n.left {}] *)
Fixpoint min (fuel : nat) (n : ptr) : H ptr :=
  match fuel with
  | O => out_of_fuel
  | S fuel =>
    let! l := get_left n in
    match l with
    | None => ret n
    | Some _ => min fuel l
    end
  end.

Fixpoint max (fuel : nat) (n : ptr) : H ptr :=
  match fuel with
  | O => out_of_fuel
  | S fuel =>
    let! r := get_right n in
    match r with
    | None => ret n
    | Some _ => max fuel r
    end
  end.

Fixpoint delete (fuel : nat) (n : ptr) (e : option Element) : H (ptr * Z) :=
  match fuel with
  | O => out_of_fuel
  | S fuel =>
    let! root := copy n in
    let! re := get_elem root in
    let! cmp := compare e re in
    (* [inr] is the early return, [inl] falls through to fixUp *)
    let! out :=
      (if cmp <? 0 then
         let! l := get_left root in
         match l with
         | None => ret (inl (root, 0))
         | Some _ =>
           let! b := and_then (let! x := isRed l in ret (negb x))
                              (let! ll := get_left l in
                               let! x := isRed ll in ret (negb x)) in
           let! root := (if b then moveRedLeft root else ret root) in
           let! l := get_left root in
           let! (l', m) := delete fuel l e in
           set_left root l' ;;
           ret (inl (root, m))
         end
       else
         let! b := (let! l := get_left root in isRed l) in
         let! root := (if b then rotateRight root else ret root) in
         let! r := get_right root in
         let! gone :=
           (match r with
            | None => let! re := get_elem root in
                      let! cmp := compare e re in ret (cmp =? 0)
            | Some _ => ret false
            end) in
         if gone then ret (inr (None, -1))
         else
           match r with
           | None => ret (inl (root, 0))
           | Some _ =>
             let! b := and_then (let! x := isRed r in ret (negb x))
                                (let! rl := get_left r in
                                 let! x := isRed rl in ret (negb x)) in
             let! root := (if b then moveRedRight root else ret root) in
             let! re := get_elem root in
             let! cmp := compare e re in
             if cmp =? 0 then
               let! r := get_right root in
               let! mn := min fuel r in
               let! me := get_elem mn in
               set_elem root me ;;
               let! r := get_right root in
               let! (r', m) := deleteMin fuel r in
               set_right root r' ;;
               ret (inl (root, m))
             else
               let! r := get_right root in
               let! (r', m) := delete fuel r e in
               set_right root r' ;;
               ret (inl (root, m))
           end) in
    match out with
    | inr res => ret res
    | inl (root, m) => let! root := fixUp root in ret (root, m)
    end
  end.

Fixpoint do {V} (fuel : nat) (n : ptr) (fn : Visitor Element V) (v : V)
  : H (bool * V) :=
  match fuel with
  | O => out_of_fuel
  | S fuel =>
    let! l := get_left n in
    let! (done, v) := (match l with
                       | None => ret (false, v)
                       | Some _ => do fuel l fn v
                       end) in
    if done then ret (done, v)
    else
      let! e := get_elem n in
      let (done, v) := fn e v in
      if done then ret (done, v)
      else
        let! r := get_right n in
        match r with
        | None => ret (done, v)
        | Some _ => do fuel r fn v
        end
  end.

Fixpoint doRange {V} (fuel : nat) (n : ptr) (lo hi : option Element)
    (fn : Visitor Element V) (v : V) : H (bool * V) :=
  match fuel with
  | O => out_of_fuel
  | S fuel =>
    let! ne := get_elem n in
    let! lc := compare lo ne in
    let! hc := compare hi ne in
    let! l := get_left n in
    let! (done, v) := (if (lc <=? 0) && bool_decide (l ≠ None)
                       then doRange fuel l lo hi fn v
                       else ret (false, v)) in
    if done then ret (done, v)
    else
      let (done, v) := (if (lc <=? 0) && (hc >? 0) then fn ne v
                        else (done, v)) in
      if done then ret (done, v)
      else
        let! r := get_right n in
        if (hc >? 0) && bool_decide (r ≠ None)
        then doRange fuel r lo hi fn v
        else ret (done, v)
  end.
End node.
End node.

(** ** tree.go *)

Module Tree.
Section Tree.
Context {Element : Type} {Cmp : ElementOps Element}.

Local Abbreviation M := (ST (store Element)).

Definition get_root (t : ptr) : M ptr :=
  on_trees (let! c := load t in ret (root c)).
Definition get_size (t : ptr) : M Z :=
  on_trees (let! c := load t in ret (size c)).
Definition set_root (t : ptr) (p : ptr) : M unit :=
  on_trees (update t (λ c, with_root c p)).
Definition set_size (t : ptr) (z : Z) : M unit :=
  on_trees (update t (λ c, with_size c z)).

Definition Range {V} (fuel : nat) (t : ptr) (from to : option Element)
    (fn : Visitor Element V) (v : V) : M (bool * V) :=
  let! r := get_root t in
  match r with
  | None => ret (false, v)
  | Some _ =>
    let! c := on_nodes (node.compare from to) in
    if c >? 0 then throw InvertedRange
    else on_nodes (node.doRange fuel r from to fn v)
  end.

Definition ForEach {V} (fuel : nat) (t : ptr) (fn : Visitor Element V)
    (v : V) : M (bool * V) :=
  let! r := get_root t in
  match r with
  | None => ret (false, v)
  | Some _ => on_nodes (node.do fuel r fn v)
  end.

Definition Get (fuel : nat) (t : ptr) (e : option Element)
  : M (option Element) :=
  let! r := get_root t in
  match r with
  | None => ret None
  | Some _ =>
    let! n := on_nodes (node.find fuel r e) in
    match n with
    | None => ret None
    | Some _ => on_nodes (node.get_elem n)
    end
  end.

Definition Max (fuel : nat) (t : ptr) : M (option Element) :=
  let! r := get_root t in
  match r with
  | None => ret None
  | Some _ => on_nodes (let! n := node.max fuel r in node.get_elem n)
  end.

Definition Min (fuel : nat) (t : ptr) : M (option Element) :=
  let! r := get_root t in
  match r with
  | None => ret None
  | Some _ => on_nodes (let! n := node.min fuel r in node.get_elem n)
  end.

Definition Len (t : ptr) : M Z := get_size t.

Definition Snapshot (t : ptr) : M ptr :=
  let! tree := on_trees (new (mkTree None 0)) in
  match t with
  | None => ret tree
  | Some _ =>
    let! sz := get_size t in
    set_size tree sz ;;
    let! r := get_root t in
    (match r with
     | None => ret tt
     | Some _ => let! c := on_nodes (node.copy r) in set_root tree c
     end) ;;
    ret tree
  end.

Definition Txn (t : ptr) : M Txn :=
  let! s := Snapshot t in ret (mkTxn s).
End Tree.
End Tree.

Module Txn.
Section Txn.
Context {Element : Type} {Cmp : ElementOps Element}.

Local Abbreviation M := (ST (store Element)).

Definition Commit (t : Txn) : M ptr := ret (tree t).

Definition Get (fuel : nat) (t : Txn) (e : option Element)
  : M (option Element) := Tree.Get fuel (tree t) e.
Definition Max (fuel : nat) (t : Txn) : M (option Element) :=
  Tree.Max fuel (tree t).
Definition Min (fuel : nat) (t : Txn) : M (option Element) :=
  Tree.Min fuel (tree t).

Definition Insert (fuel : nat) (t : Txn) (e : option Element) : M unit :=
  let! r := Tree.get_root (tree t) in
  let! (root, m) := on_nodes (node.insert fuel r e) in
  let! sz := Tree.get_size (tree t) in
  Tree.set_size (tree t) (int_add sz m) ;;
  Tree.set_root (tree t) root ;;
  let! r := Tree.get_root (tree t) in
  on_nodes (node.set_color r black).

(** The tail shared by the three deleting methods. *)
Definition replace_root (t : Txn) (res : ptr * Z) : M unit :=
  let (root, m) := res in
  let! sz := Tree.get_size (tree t) in
  Tree.set_size (tree t) (int_add sz m) ;;
  Tree.set_root (tree t) root ;;
  match root with
  | None => ret tt
  | Some _ =>
    let! r := Tree.get_root (tree t) in
    on_nodes (node.set_color r black)
  end.

(** [t.tree == nil || t.tree.root == nil] *)
Definition is_empty (t : Txn) : M bool :=
  match tree t with
  | None => ret true
  | Some _ => let! r := Tree.get_root (tree t) in
              ret (bool_decide (r = None))
  end.

Definition Delete (fuel : nat) (t : Txn) (e : option Element) : M unit :=
  let! b := is_empty t in
  if b then ret tt
  else
    let! r := Tree.get_root (tree t) in
    let! res := on_nodes (node.delete fuel r e) in
    replace_root t res.

Definition DeleteMax (fuel : nat) (t : Txn) : M unit :=
  let! b := is_empty t in
  if b then ret tt
  else
    let! r := Tree.get_root (tree t) in
    let! res := on_nodes (node.deleteMax fuel r) in
    replace_root t res.

Definition DeleteMin (fuel : nat) (t : Txn) : M unit :=
  let! b := is_empty t in
  if b then ret tt
  else
    let! r := Tree.get_root (tree t) in
    let! res := on_nodes (node.deleteMin fuel r) in
    replace_root t res.

Definition Len (t : Txn) : M Z := Tree.get_size (tree t).
End Txn.
End Txn.

(** ** The abstract reading

  The same algorithms on an inductive tree.  A call that would dereference
  nil, and a recursion that runs out of fuel, both give [None]. *)

Module Abs.
Section Abs.
Context {Element : Type} {Cmp : ElementOps Element}.

Inductive tree : Type :=
| Leaf
| Node (c : bool) (l : tree) (e : Element) (r : tree).

Definition left (t : tree) : tree :=
  match t with Leaf => Leaf | Node _ l _ _ => l end.
Definition right (t : tree) : tree :=
  match t with Leaf => Leaf | Node _ _ _ r => r end.
Definition is_nil (t : tree) : bool :=
  match t with Leaf => true | Node _ _ _ _ => false end.

Definition set_left (t l : tree) : option tree :=
  match t with Leaf => None | Node c _ e r => Some (Node c l e r) end.
Definition set_right (t r : tree) : option tree :=
  match t with Leaf => None | Node c l e _ => Some (Node c l e r) end.
Definition set_color (t : tree) (c : bool) : option tree :=
  match t with Leaf => None | Node _ l e r => Some (Node c l e r) end.

Definition isRed (t : tree) : bool :=
  match t with Leaf => false | Node c _ _ _ => Bool.eqb c red end.

Definition rotateLeft (t : tree) : option tree :=
  match t with
  | Node c l e (Node _ rl re rr) => Some (Node c (Node red l e rl) re rr)
  | _ => None
  end.

Definition rotateRight (t : tree) : option tree :=
  match t with
  | Node c (Node _ ll le lr) e r => Some (Node c ll le (Node red lr e r))
  | _ => None
  end.

Definition flipColors (t : tree) : option tree :=
  match t with
  | Node c (Node lc ll le lr) e (Node rc rl re rr) =>
    Some (Node (negb c) (Node (negb lc) ll le lr) e (Node (negb rc) rl re rr))
  | _ => None
  end.

Definition fixUp (t : tree) : option tree :=
  if is_nil t then None
  else
    t ← (if isRed (right t) then rotateLeft t else Some t);
    t ← (if isRed (left t) && isRed (left (left t))
         then rotateRight t else Some t);
    if isRed (left t) && isRed (right t) then flipColors t else Some t.

Definition moveRedLeft (t : tree) : option tree :=
  t ← flipColors t;
  if isRed (left (right t)) then
    r' ← rotateRight (right t);
    t ← set_right t r';
    t ← rotateLeft t;
    flipColors t
  else Some t.

Definition moveRedRight (t : tree) : option tree :=
  t ← flipColors t;
  if isRed (left (left t)) then
    t ← rotateRight t;
    flipColors t
  else Some t.

Fixpoint find (x : Element) (t : tree) : option Element :=
  match t with
  | Leaf => None
  | Node _ l e r =>
    let cmp := Compare x e in
    if cmp =? 0 then Some e
    else if cmp <? 0 then find x l
    else find x r
  end.

(** The three repair steps at the end of [insert]. *)
Definition insert_repair (t : tree) : option tree :=
  t ← (if isRed (right t) && negb (isRed (left t))
       then rotateLeft t else Some t);
  t ← (if isRed (left t) && isRed (left (left t))
       then rotateRight t else Some t);
  if isRed (left t) && isRed (right t) then flipColors t else Some t.

Fixpoint insert (x : Element) (t : tree) : option (tree * Z) :=
  match t with
  | Leaf => Some (Node red Leaf x Leaf, 1)
  | Node c l e r =>
    let cmp := Compare x e in
    '(root, m) ← (if cmp =? 0 then Some (Node c l x r, 0)
                  else if cmp <? 0 then
                    '(l', m) ← insert x l; Some (Node c l' e r, m)
                  else
                    '(r', m) ← insert x r; Some (Node c l e r', m));
    root ← insert_repair root;
    Some (root, m)
  end.

Fixpoint deleteMin (fuel : nat) (t : tree) : option (tree * Z) :=
  match fuel with
  | O => None
  | S fuel =>
    match t with
    | Leaf => None
    | Node _ Leaf _ _ => Some (Leaf, -1)
    | Node _ l _ _ =>
      t ← (if negb (isRed l) && negb (isRed (left l))
           then moveRedLeft t else Some t);
      '(l', m) ← deleteMin fuel (left t);
      t ← set_left t l';
      root ← fixUp t;
      Some (root, m)
    end
  end.

Fixpoint deleteMax (fuel : nat) (t : tree) : option (tree * Z) :=
  match fuel with
  | O => None
  | S fuel =>
    if is_nil t then None
    else
      t ← (if isRed (left t) then rotateRight t else Some t);
      if is_nil (right t) then Some (Leaf, -1)
      else
        t ← (if negb (isRed (right t)) && negb (isRed (left (right t)))
             then moveRedRight t else Some t);
        '(r', m) ← deleteMax fuel (right t);
        t ← set_right t r';
        root ← fixUp t;
        Some (root, m)
  end.

Fixpoint min (t : tree) : option Element :=
  match t with
  | Leaf => None
  | Node _ Leaf e _ => Some e
  | Node _ l _ _ => min l
  end.

Fixpoint max (t : tree) : option Element :=
  match t with
  | Leaf => None
  | Node _ _ e Leaf => Some e
  | Node _ _ _ r => max r
  end.

Definition elem_of (t : tree) : option Element :=
  match t with Leaf => None | Node _ _ e _ => Some e end.
Definition set_elem (t : tree) (e : Element) : option tree :=
  match t with Leaf => None | Node c l _ r => Some (Node c l e r) end.

Fixpoint delete (fuel : nat) (x : Element) (t : tree) : option (tree * Z) :=
  match fuel with
  | O => None
  | S fuel =>
    match t with
    | Leaf => None
    | Node _ _ e _ =>
      out ← (if Compare x e <? 0 then
               if is_nil (left t) then Some (inl (t, 0))
               else
                 t ← (if negb (isRed (left t))
                         && negb (isRed (left (left t)))
                      then moveRedLeft t else Some t);
                 '(l', m) ← delete fuel x (left t);
                 t ← set_left t l';
                 Some (inl (t, m))
             else
               t ← (if isRed (left t) then rotateRight t else Some t);
               e ← elem_of t;
               if is_nil (right t) && (Compare x e =? 0)
               then Some (inr (Leaf, -1))
               else if is_nil (right t) then Some (inl (t, 0))
               else
                 t ← (if negb (isRed (right t))
                         && negb (isRed (left (right t)))
                      then moveRedRight t else Some t);
                 e ← elem_of t;
                 if Compare x e =? 0 then
                   me ← min (right t);
                   t ← set_elem t me;
                   '(r', m) ← deleteMin fuel (right t);
                   t ← set_right t r';
                   Some (inl (t, m))
                 else
                   '(r', m) ← delete fuel x (right t);
                   t ← set_right t r';
                   Some (inl (t, m)));
      match out with
      | inr res => Some res
      | inl (t, m) => root ← fixUp t; Some (root, m)
      end
    end
  end.

Fixpoint do {V} (t : tree) (fn : Visitor Element V) (v : V)
  : option (bool * V) :=
  match t with
  | Leaf => None
  | Node _ l e r =>
    res ← (if is_nil l then Some (false, v) else do l fn v);
    let (done, v) := (res : bool * V) in
    if done then Some (done, v)
    else
      let (done, v) := fn (Some e) v in
      if done then Some (done, v)
      else if is_nil r then Some (done, v)
      else do r fn v
  end.

Fixpoint doRange {V} (t : tree) (lo hi : Element)
    (fn : Visitor Element V) (v : V) : option (bool * V) :=
  match t with
  | Leaf => None
  | Node _ l e r =>
    let lc := Compare lo e in
    let hc := Compare hi e in
    res ← (if (lc <=? 0) && negb (is_nil l)
           then doRange l lo hi fn v else Some (false, v));
    let (done, v) := (res : bool * V) in
    if done then Some (done, v)
    else
      let (done, v) := (if (lc <=? 0) && (hc >? 0) then fn (Some e) v
                        else (done, v)) in
      if done then Some (done, v)
      else if (hc >? 0) && negb (is_nil r) then doRange r lo hi fn v
      else Some (done, v)
  end.

(** In-order contents, and measures. *)
Fixpoint elements (t : tree) : list Element :=
  match t with
  | Leaf => []
  | Node _ l e r => elements l ++ e :: elements r
  end.

Fixpoint count (t : tree) : nat :=
  match t with
  | Leaf => O
  | Node _ l _ r => S (count l + count r)
  end.

Fixpoint height (t : tree) : nat :=
  match t with
  | Leaf => O
  | Node _ l _ r => S (Nat.max (height l) (height r))
  end.

(** Number of black nodes down the left spine. *)
Fixpoint bh (t : tree) : nat :=
  match t with
  | Leaf => O
  | Node c l _ _ => ((if c then 1 else 0) + bh l)%nat
  end.

Fixpoint balanced (t : tree) : Prop :=
  match t with
  | Leaf => True
  | Node _ l _ r => bh l = bh r ∧ balanced l ∧ balanced r
  end.

(** No red right child, and no red node with a red left child. *)
Fixpoint is23 (t : tree) : Prop :=
  match t with
  | Leaf => True
  | Node c l _ r =>
    isRed r = false ∧ (c = red → isRed l = false) ∧ is23 l ∧ is23 r
  end.
End Abs.
End Abs.
Arguments Abs.tree : clear implicits.

(** ** example_test.go: [type Int int] *)

#[global] Instance Int_Compare : ElementOps Z := λ i v, i - v.

(** * What the operations mean

    The in-order contents of a tree are a list; these are the list
    operations the tree operations are measured against. *)

Section ListOps.
Context {Element : Type} {Cmp : ElementOps Element}.
Implicit Types (x y : Element) (l : list Element).

Definition sorted l : Prop := StronglySorted (λ a b, Compare a b < 0) l.

Definition lremove x l : list Element :=
  List.filter (λ y, negb (Compare x y =? 0)) l.

Definition lfind x l : option Element :=
  List.find (λ y, Compare x y =? 0) l.

Fixpoint linsert x l : list Element :=
  match l with
  | [] => [x]
  | y :: l' =>
    if Compare x y =? 0 then x :: l'
    else if Compare x y <? 0 then x :: y :: l'
    else y :: linsert x l'
  end.

Definition in_range (lo hi : Element) y : bool :=
  (Compare lo y <=? 0) && (Compare hi y >? 0).

Fixpoint visit {V} (fn : Visitor Element V) l (v : V) : bool * V :=
  match l with
  | [] => (false, v)
  | x :: l' =>
    let (done, v') := fn (Some x) v in
    if done then (true, v') else visit fn l' v'
  end.

Definition cle (a b : Element) : Prop := Compare a b <= 0.
End ListOps.

(** Pairwise distinct by the comparator. *)
Fixpoint distinct {Element : Type} {Cmp : ElementOps Element}
    (xs : list Element) : bool :=
  match xs with
  | [] => true
  | x :: xs' => forallb (λ y, negb (Compare x y =? 0)) xs' && distinct xs'
  end.

Definition order_seen {Element : Type} (a b : Element) : Prop := True.

(** ** Shapes of the abstract tree *)

Section TreeOps.
Import Abs.
Context {Element : Type} {Cmp : ElementOps Element}.
Implicit Types t l r : tree Element.

Fixpoint flatten t (acc : list Element) : list Element :=
  match t with
  | Leaf => acc
  | Node _ l e r => flatten l (e :: flatten r acc)
  end.

Fixpoint all (P : Element → Prop) t : Prop :=
  match t with
  | Leaf => True
  | Node _ l e r => all P l ∧ P e ∧ all P r
  end.

Fixpoint bst t : Prop :=
  match t with
  | Leaf => True
  | Node _ l e r =>
    all (λ y, Compare y e < 0) l ∧ all (λ y, Compare e y < 0) r ∧ bst l ∧ bst r
  end.

Definition blacken t : tree Element :=
  match t with Leaf => Leaf | Node _ l e r => Node black l e r end.

Definition not_two_node t : Prop := isRed t = true ∨ isRed (left t) = true.

Definition leans_right t : Prop :=
  match t with
  | Leaf => False
  | Node c l _ r =>
    c = black ∧ isRed l = false ∧ isRed r = true ∧ is23 l ∧ is23 r
  end.

Definition leans_right_at (x : Element) t : Prop :=
  match t with
  | Leaf => False
  | Node c l e r =>
    c = black ∧ isRed l = false ∧ isRed r = true ∧ is23 l ∧ is23 r
    ∧ 0 <= Compare x e
  end.

Definition almost23 t : Prop :=
  match t with
  | Leaf => True
  | Node _ l _ r => isRed r = false ∧ is23 l ∧ is23 r
  end.

Definition root_elem (d : Element) t : Element :=
  match t with Leaf => d | Node _ _ e _ => e end.

Fixpoint ins (x : Element) t (acc : list Element) : list Element :=
  match t with
  | Leaf => x :: acc
  | Node _ l e r =>
    if Compare x e =? 0 then flatten l (x :: flatten r acc)
    else if Compare x e <? 0 then ins x l (e :: flatten r acc)
    else flatten l (e :: ins x r acc)
  end.

Definition delta_ins (x : Element) t : Z :=
  match find x t with Some _ => 0 | None => 1 end.

Fixpoint del (x : Element) t (acc : list Element) : list Element :=
  match t with
  | Leaf => acc
  | Node _ l e r =>
    if Compare x e <? 0 then del x l (e :: flatten r acc)
    else if Compare x e =? 0 then flatten l (flatten r acc)
    else flatten l (e :: del x r acc)
  end.

Definition delta_del (x : Element) t : Z :=
  match find x t with Some _ => -1 | None => 0 end.
End TreeOps.

Section Invariants.
Context {Element : Type} {Cmp : ElementOps Element}.
Implicit Types (t l r : Abs.tree Element).

Definition ok t : Prop :=
  Abs.balanced t ∧ Abs.is23 t ∧ bst t ∧ Abs.isRed t = false.

(** *** The invariants as the specification words them *)

(** In-order traversal is non-decreasing per the comparator. *)
Definition nondecreasing (xs : list Element) : Prop :=
  ∀ i j a b, (i ≤ j)%nat → xs !! i = Some a → xs !! j = Some b →
    Compare a b <= 0.

(** No node has a red right child. *)
Fixpoint no_red_right t : Prop :=
  match t with
  | Abs.Leaf => True
  | Abs.Node _ l _ r => Abs.isRed r = false ∧ no_red_right l ∧ no_red_right r
  end.

(** No red node has a red left child. *)
Fixpoint no_red_red_left t : Prop :=
  match t with
  | Abs.Leaf => True
  | Abs.Node c l _ r =>
    (c = red → Abs.isRed l = false) ∧ no_red_red_left l ∧ no_red_red_left r
  end.

(** The number of black links on each path from [t] down to a nil link,
    one entry per path.  The colour of a node is the colour of the link
    that leads to it. *)
Fixpoint black_counts t : list nat :=
  match t with
  | Abs.Leaf => [O]
  | Abs.Node c l _ r =>
    map (Nat.add (if c then 1 else 0)%nat) (black_counts l ++ black_counts r)
  end.

Definition equal_black_height t : Prop :=
  ∀ n m, n ∈ black_counts t → m ∈ black_counts t → n = m.

Definition invariants t : Prop :=
  nondecreasing (Abs.elements t) ∧ no_red_right t ∧ no_red_red_left t
  ∧ equal_black_height t.
End Invariants.

(** ** Heaps that are shaped like a tree *)

Section Repr.
Context {Element : Type} {Cmp : ElementOps Element}.
Implicit Types (h : list (node Element)) (p : ptr) (t : Abs.tree Element)
  (F : gset nat) (a b : nat).

Inductive repr h : ptr → Abs.tree Element → gset nat → Prop :=
| repr_nil : repr h None Abs.Leaf ∅
| repr_node a c e pl pr tl tr Fl Fr :
    h !! a = Some (mkNode (Some e) pr pl c) →
    repr h pl tl Fl → repr h pr tr Fr →
    a ∉ Fl → a ∉ Fr → Fl ## Fr →
    repr h (Some a) (Abs.Node c tl e tr) ({[a]} ∪ Fl ∪ Fr).

(** [h'] extends [h]: cells outside the footprint [F] are untouched, and the
    new footprint [F'] consists of old footprint cells and fresh cells. *)
Definition ext h h' F F' : Prop :=
  (length h ≤ length h')%nat
  ∧ (∀ b, (b < length h)%nat → b ∉ F → h' !! b = h !! b)
  ∧ (∀ b, b ∈ F' → b ∈ F ∨ (length h ≤ b)%nat).
End Repr.

(** A call returns, and its result and final state satisfy [Q]. *)
Definition wp {S A} (m : ST S A) (s : S) (Q : A → S → Prop) : Prop :=
  ∃ a s', m s = Ok (a, s') ∧ Q a s'.

(** The value a call returns, without the store it leaves. *)
Definition returned {S A} (r : result (A * S)) : result A :=
  match r with
  | Ok (a, _) => Ok a
  | Panic p => Panic p
  | OutOfFuel => OutOfFuel
  end.

Section Posts.
Context {Element : Type} {Cmp : ElementOps Element}.
Implicit Types (h : list (node Element)) (p : ptr) (t : Abs.tree Element)
  (F : gset nat) (a : nat).

(** The postcondition shared by the in-place operations. *)
Definition same_fp h0 t' F : ptr → list (node Element) → Prop :=
  λ p' h', repr h' p' t' F ∧ ext h0 h' F F.

(** The postcondition of the operations that return a subtree and a size
    delta. *)
Definition tree_post h0 t' (m : Z) F : ptr * Z → list (node Element) → Prop :=
  λ res h', res.2 = m ∧ ∃ F', repr h' res.1 t' F' ∧ ext h0 h' F F'.

Definition out_post h1 (F1 : gset nat)
    (o : Abs.tree Element * Z + Abs.tree Element * Z)
  : (ptr * Z) + (ptr * Z) → list (node Element) → Prop :=
  λ out h',
    match o, out with
    | inl (t2, m), inl res => tree_post h1 t2 m F1 res h'
    | inr (t2, m), inr res => tree_post h1 t2 m F1 res h'
    | _, _ => False
    end.

(** *** The statements of [fixUp], and of the repair at the end of
    [insert] *)

(** The first statement of [fixUp]. *)
Definition repair_left {Element : Type} (n : ptr)
  : ST (list (node Element)) ptr :=
  let! yes := (let! r := node.get_right n in node.isRed r) in
  if yes then node.rotateLeft n else ret n.

(** The last two steps of [fixUp], which [insert] repeats inline. *)
Definition repair_right (n : ptr) : ST (list (node Element)) ptr :=
  let! yes := node.and_then (let! l := node.get_left n in node.isRed l)
                          (let! l := node.get_left n in
                           let! ll := node.get_left l in node.isRed ll) in
  if yes then node.rotateRight n else ret n.

Definition repair_flip (n : ptr) : ST (list (node Element)) ptr :=
  let! yes := node.and_then (let! l := node.get_left n in node.isRed l)
                          (let! r := node.get_right n in node.isRed r) in
  (if yes then node.flipColors n else ret tt) ;;
  ret n.

(** The repair at the end of [insert]. *)
Definition repair_left_strict (n : ptr) : ST (list (node Element)) ptr :=
  let! yes := node.and_then (let! r := node.get_right n in node.isRed r)
                            (let! l := node.get_left n in
                             let! x := node.isRed l in ret (negb x)) in
  if yes then node.rotateLeft n else ret n.

Definition insert_tail (root : ptr) (m : Z) : ST (list (node Element)) (ptr * Z) :=
  let! root := repair_left_strict root in
  let! root := repair_right root in
  let! root := repair_flip root in
  ret (root, m).
End Posts.

(** ** Trees in the store *)

(** The values a Go [int] can hold. *)
Definition is_int (z : Z) : Prop := - 2 ^ 63 <= z < 2 ^ 63.

Section Stores.
Context {Element : Type} {Cmp : ElementOps Element}.
Implicit Types (s : store Element) (τ : nat) (tr : Abs.tree Element) (sz : Z).

(** The Tree cell at [τ] holds the count [sz] and the root of a heap that
    reads as [tr]. *)
Definition tree_at s τ tr sz : Prop :=
  ∃ r F, trees s !! τ = Some (mkTree r sz) ∧ is_int sz
    ∧ repr (nodes s) r tr F.

(** What a mutation leaves behind: the transaction's Tree cell holds the
    new tree and the new count; no other Tree cell is touched. *)
Definition txn_post s τ tr' sz' : unit → store Element → Prop :=
  λ _ s', tree_at s' τ tr' sz'
    ∧ length (trees s') = length (trees s)
    ∧ ∀ τ', τ' ≠ τ → trees s' !! τ' = trees s !! τ'.
End Stores.


(** ** Histories of mutations *)

Inductive mutation (Element : Type) : Type :=
| DoInsert (x : Element)
| DoDelete (x : Element)
| DoDeleteMin
| DoDeleteMax.
Arguments DoInsert {Element} x.
Arguments DoDelete {Element} x.
Arguments DoDeleteMin {Element}.
Arguments DoDeleteMax {Element}.

Section History.
Context {Element : Type} {Cmp : ElementOps Element}.
Implicit Types (s : store Element) (τ : nat) (tr : Abs.tree Element) (sz : Z)
  (o : mutation Element) (os : list (mutation Element))
  (xs : list Element).

Local Abbreviation M := (ST (store Element)).

Definition apply (fuel : nat) (t : Txn) o : M unit :=
  match o with
  | DoInsert x => Txn.Insert fuel t (Some x)
  | DoDelete x => Txn.Delete fuel t (Some x)
  | DoDeleteMin => Txn.DeleteMin fuel t
  | DoDeleteMax => Txn.DeleteMax fuel t
  end.

Fixpoint apply_all (fuel : nat) (t : Txn) os : M unit :=
  match os with
  | [] => ret tt
  | o :: os' => apply fuel t o ;; apply_all fuel t os'
  end.

(** [txn := t.Txn(); ...; txn.Commit()] *)
Definition transact (fuel : nat) (t : ptr) os : M ptr :=
  let! txn := Tree.Txn t in
  apply_all fuel txn os ;;
  Txn.Commit txn.

(** Each transaction starts from the tree the previous one committed. *)
Fixpoint chain (fuel : nat) (t : ptr) (batches : list (list (mutation Element)))
  : M ptr :=
  match batches with
  | [] => ret t
  | os :: rest => let! t' := transact fuel t os in chain fuel t' rest
  end.

(** [&Tree{}], then the transactions. *)
Definition from_empty (fuel : nat) (batches : list (list (mutation Element)))
  : M ptr :=
  let! t := on_trees (new (mkTree None 0)) in chain fuel t batches.

(** What a mutation does to the in-order contents. *)
Definition effect o xs : list Element :=
  match o with
  | DoInsert x => linsert x xs
  | DoDelete x => lremove x xs
  | DoDeleteMin => tail xs
  | DoDeleteMax => removelast xs
  end.

Definition effects os xs : list Element := foldl (λ ys o, effect o ys) xs os.

(** The change of the count, as the code computes it. *)
Definition delta o tr : Z :=
  match o with
  | DoInsert x => delta_ins x tr
  | DoDelete x => delta_del x tr
  | _ => if Abs.is_nil tr then 0 else -1
  end.

(** A transaction's tree in good order: the invariants hold, the contents
    are [xs], and the count is their number. *)
Definition holds s τ xs : Prop :=
  ∃ tr, tree_at s τ tr (int_wrap (Z.of_nat (length xs)))
    ∧ ok tr ∧ Abs.elements tr = xs.
End History.

(** ** Queries, and what they can observe *)

Inductive query (Element V : Type) : Type :=
| AskGet (x : Element)
| AskMin
| AskMax
| AskLen
| AskForEach (fn : Visitor Element V) (v : V)
| AskRange (lo hi : Element) (fn : Visitor Element V) (v : V).
Arguments AskGet {Element V} x.
Arguments AskMin {Element V}.
Arguments AskMax {Element V}.
Arguments AskLen {Element V}.
Arguments AskForEach {Element V} fn v.
Arguments AskRange {Element V} lo hi fn v.

Inductive answer (Element V : Type) : Type :=
| GotElem (e : option Element)
| GotLen (n : Z)
| GotVisit (res : bool * V).
Arguments GotElem {Element V} e.
Arguments GotLen {Element V} n.
Arguments GotVisit {Element V} res.

Section Queries.
Context {Element V : Type} {Cmp : ElementOps Element}.
Implicit Types (s : store Element) (τ : nat) (tr : Abs.tree Element) (sz : Z)
  (q : query Element V) (xs : list Element).

Definition ask (fuel : nat) (t : ptr) q : ST (store Element) (answer Element V) :=
  match q with
  | AskGet x => let! e := Tree.Get fuel t (Some x) in ret (GotElem e)
  | AskMin => let! e := Tree.Min fuel t in ret (GotElem e)
  | AskMax => let! e := Tree.Max fuel t in ret (GotElem e)
  | AskLen => let! n := Tree.Len t in ret (GotLen n)
  | AskForEach fn v => let! res := Tree.ForEach fuel t fn v in ret (GotVisit res)
  | AskRange lo hi fn v =>
    let! res := Tree.Range fuel t (Some lo) (Some hi) fn v in ret (GotVisit res)
  end.

(** The same questions put to the in-order contents and the count. *)
Definition ask_list q xs sz : result (answer Element V) :=
  match q with
  | AskGet x => Ok (GotElem (lfind x xs))
  | AskMin => Ok (GotElem (head xs))
  | AskMax => Ok (GotElem (last xs))
  | AskLen => Ok (GotLen sz)
  | AskForEach fn v => Ok (GotVisit (visit fn xs v))
  | AskRange lo hi fn v =>
    match xs with
    | [] => Ok (GotVisit (false, v))
    | _ :: _ =>
      if Compare lo hi >? 0 then Panic InvertedRange
      else Ok (GotVisit (visit fn (List.filter (in_range lo hi) xs) v))
    end
  end.
End Queries.

(** ** Concrete stores *)

(** A visitor that appends what it is shown to a list. *)
Definition collect : Visitor Z (list Z) :=
  λ e v, (false, match e with Some x => v ++ [x] | None => v end).

(** A tree is committed, a second transaction is opened on it and deletes
    its minimum; the first tree is read before and after. *)
Definition shared_snapshot : ST (store Z) (list Z * list Z * Z) :=
  let! t0 := on_trees (new (mkTree None 0)) in
  let! txn := Tree.Txn t0 in
  Txn.Insert 8 txn (Some 1) ;;
  Txn.Insert 8 txn (Some 2) ;;
  Txn.Insert 8 txn (Some 3) ;;
  let! t := Txn.Commit txn in
  let! before := Tree.ForEach 8 t collect [] in
  let! txn2 := Tree.Txn t in
  Txn.DeleteMin 8 txn2 ;;
  let! after := Tree.ForEach 8 t collect [] in
  let! n := Tree.Len t in
  ret (before.2, after.2, n).

(** A black node whose two children are both red. *)
Definition both_red : list (node Z) :=
  [ mkNode (Some 2) (Some 2%nat) (Some 1%nat) black;
    mkNode (Some 1) None None red;
    mkNode (Some 3) None None red ].

(** A store that holds one tree with the single element [x]. *)
Definition single (x : Z) : store Z :=
  mkStore [mkNode (Some x) None None black] [mkTree (Some 0%nat) 1].

Definition empty_store : store Z := mkStore [] [mkTree None 0].

(** ** example_test.go: the checkers of the test suite *)

(** [func (n *node) is23() bool] *)
Fixpoint node_is23 {Element : Type} (fuel : nat) (n : ptr)
  : ST (list (node Element)) bool :=
  match fuel with
  | O => out_of_fuel
  | S fuel =>
    match n with
    | None => ret true
    | Some _ =>
      let! l := node.get_left n in
      let! r := node.get_right n in
      let! both :=
        (if bool_decide (l ≠ None) && bool_decide (r ≠ None)
         then node.and_then (let! l := node.get_left n in node.isRed l)
                            (let! r := node.get_right n in node.isRed r)
         else ret false) in
      if both then ret false
      else
        let! rr := (let! r := node.get_right n in node.isRed r) in
        if rr then ret false
        else
          let! b := node.and_then (node.isRed n)
                      (let! l := node.get_left n in node.isRed l) in
          if b then ret false
          else
            node.and_then
              (let! l := node.get_left n in node_is23 fuel l)
              (let! r := node.get_right n in node_is23 fuel r)
    end
  end.

(** [func (n *node) isBalanced(black int) bool] *)
Fixpoint node_isBalanced {Element : Type} (fuel : nat) (n : ptr) (black : Z)
  : ST (list (node Element)) bool :=
  match fuel with
  | O => out_of_fuel
  | S fuel =>
    match n with
    | None => ret (black =? 0)
    | Some _ =>
      let! rd := node.isRed n in
      let black := if rd then black else int_add black (-1) in
      node.and_then
        (let! l := node.get_left n in node_isBalanced fuel l black)
        (let! r := node.get_right n in node_isBalanced fuel r black)
    end
  end.

(** [func (n *node) isBST(min, max Element) bool] *)
Fixpoint node_isBST {Element : Type} {Cmp : ElementOps Element}
    (fuel : nat) (n : ptr) (min max : option Element)
  : ST (list (node Element)) bool :=
  match fuel with
  | O => out_of_fuel
  | S fuel =>
    match n with
    | None => ret true
    | Some _ =>
      let! e := node.get_elem n in
      let! c := node.compare e min in
      let! out :=
        (if c <? 0 then ret true
         else let! e := node.get_elem n in
              let! c := node.compare e max in ret (c >? 0)) in
      if out then ret false
      else
        node.and_then
          (let! l := node.get_left n in
           let! e := node.get_elem n in node_isBST fuel l min e)
          (let! r := node.get_right n in
           let! e := node.get_elem n in node_isBST fuel r e max)
    end
  end.

(** The loop of [Tree.isBalanced]: black nodes on the way to the minimum. *)
Fixpoint count_black {Element : Type} (fuel : nat) (x : ptr) (black : Z)
  : ST (list (node Element)) Z :=
  match fuel with
  | O => out_of_fuel
  | S fuel =>
    match x with
    | None => ret black
    | Some _ =>
      let! rd := node.isRed x in
      let black := if rd then black else int_add black 1 in
      let! l := node.get_left x in
      count_black fuel l black
    end
  end.

(** [func (t *Tree) is23() bool] *)
Definition Tree_is23 {Element : Type} (fuel : nat) (t : ptr)
  : ST (store Element) bool :=
  match t with
  | None => ret true
  | Some _ => let! r := Tree.get_root t in on_nodes (node_is23 fuel r)
  end.

(** [func (t *Tree) isBalanced() bool] *)
Definition Tree_isBalanced {Element : Type} (fuel : nat) (t : ptr)
  : ST (store Element) bool :=
  match t with
  | None => ret true
  | Some _ =>
    let! r := Tree.get_root t in
    let! black := on_nodes (count_black fuel r 0) in
    let! r := Tree.get_root t in
    on_nodes (node_isBalanced fuel r black)
  end.

(** [func (t *Tree) isBST() bool] *)
Definition Tree_isBST {Element : Type} {Cmp : ElementOps Element}
    (fuel : nat) (t : ptr) : ST (store Element) bool :=
  match t with
  | None => ret true
  | Some _ =>
    let! r := Tree.get_root t in
    let! mn := Tree.Min fuel t in
    let! mx := Tree.Max fuel t in
    on_nodes (node_isBST fuel r mn mx)
  end.

(** The same checks on the abstract tree. *)
Fixpoint is23b {Element : Type} (t : Abs.tree Element) : bool :=
  match t with
  | Abs.Leaf => true
  | Abs.Node c l _ r =>
    negb (negb (Abs.is_nil l) && negb (Abs.is_nil r)
          && Abs.isRed l && Abs.isRed r)
    && negb (Abs.isRed r)
    && negb (Bool.eqb c red && Abs.isRed l)
    && is23b l && is23b r
  end.

Fixpoint balancedb {Element : Type} (t : Abs.tree Element) (black : Z) : bool :=
  match t with
  | Abs.Leaf => black =? 0
  | Abs.Node c l _ r =>
    let black := if Bool.eqb c red then black else int_add black (-1) in
    balancedb l black && balancedb r black
  end.

Fixpoint bstb {Element : Type} {Cmp : ElementOps Element}
    (t : Abs.tree Element) (lo hi : Element) : bool :=
  match t with
  | Abs.Leaf => true
  | Abs.Node _ l e r =>
    negb ((Compare e lo <? 0) || (Compare e hi >? 0))
    && bstb l lo e && bstb r e hi
  end.

(** Order that admits equal neighbours, which is what [isBST] tests. *)
Fixpoint ordered {Element : Type} {Cmp : ElementOps Element}
    (t : Abs.tree Element) : Prop :=
  match t with
  | Abs.Leaf => True
  | Abs.Node _ l e r =>
    all (λ y, Compare y e <= 0) l ∧ all (λ y, Compare e y <= 0) r
    ∧ ordered l ∧ ordered r
  end.

(** ** Calls that only read *)

(** A computation that leaves the state as it found it whenever it
    returns. *)
Definition reads {S A} (m : ST S A) : Prop :=
  ∀ s a s', m s = Ok (a, s') → s' = s.

(** * Proofs *)

(** ** Reasoning about the comparator *)

Section Order.

Context {Element : Type} {Cmp : ElementOps Element} {Ord : TotalPreorder Element}.

Lemma cle_trans a b c : cle a b → cle b c → cle a c.
Proof. apply compare_trans. Qed.

Lemma compare_sign (a b : Element) :
  (Compare a b < 0 ∧ cle a b ∧ ¬ cle b a)
  ∨ (Compare a b = 0 ∧ cle a b ∧ cle b a)
  ∨ (0 < Compare a b ∧ ¬ cle a b ∧ cle b a).
Proof.
  unfold cle. pose proof (compare_flip a b). pose proof (compare_flip b a). lia.
Qed.

Lemma compare_refl (a : Element) : Compare a a = 0.
Proof. pose proof (compare_flip a a). lia. Qed.

End Order.

Ltac order_prep :=
  repeat match goal with
  | H : (_ <? _) = true |- _ => apply Z.ltb_lt in H
  | H : (_ <? _) = false |- _ => apply Z.ltb_ge in H
  | H : (_ =? _) = true |- _ => apply Z.eqb_eq in H
  | H : (_ =? _) = false |- _ => apply Z.eqb_neq in H
  | H : (_ <=? _) = true |- _ => apply Z.leb_le in H
  | H : (_ <=? _) = false |- _ => apply Z.leb_gt in H
  | H : (_ >? _) = true |- _ => rewrite Z.gtb_ltb in H
  | H : (_ >? _) = false |- _ => rewrite Z.gtb_ltb in H
  | |- (_ <? _) = true => apply Z.ltb_lt
  | |- (_ <? _) = false => apply Z.ltb_ge
  | |- (_ =? _) = true => apply Z.eqb_eq
  | |- (_ =? _) = false => apply Z.eqb_neq
  | |- (_ <=? _) = true => apply Z.leb_le
  | |- (_ <=? _) = false => apply Z.leb_gt
  | |- (_ >? _) = _ => rewrite Z.gtb_ltb
  end.

Ltac order_sat :=
  repeat match goal with
  | H1 : cle ?a ?b, H2 : cle ?b ?c |- _ =>
    lazymatch goal with
    | _ : cle a c |- _ => fail
    | _ => pose proof (cle_trans a b c H1 H2)
    end
  end.

Ltac order_case a b :=
  lazymatch goal with
  | _ : order_seen a b |- _ => fail
  | _ =>
    pose proof (I : order_seen a b);
    destruct (compare_sign a b) as [(? & ? & ?)|[(? & ? & ?)|(? & ? & ?)]];
    try lia
  end.

Ltac order_cases :=
  repeat match goal with
  | |- context [@Compare _ _ ?a ?b] => order_case a b
  | _ : context [@Compare _ _ ?a ?b] |- _ => order_case a b
  end.

Ltac order := intros; order_prep; try lia; order_cases; exfalso; order_sat; solve [contradiction | tauto].

Ltac norm :=
  unfold Abs.fixUp, Abs.moveRedLeft, Abs.moveRedRight, Abs.insert_repair,
    red, black in *;
  simpl in *.

Ltac break_goal :=
  norm;
  repeat (match goal with
  | |- context [Abs.isRed ?t] => is_var t; destruct t as [|[|] ? ? ?]
  | |- context [Abs.is_nil ?t] => is_var t; destruct t as [|[|] ? ? ?]
  | |- context [match ?t with Abs.Leaf => _ | Abs.Node _ _ _ _ => _ end] =>
    is_var t; destruct t as [|[|] ? ? ?]
  end; norm).

Ltac fin := simpl in *; intuition (try congruence; try lia).

Section DeleteMinMaxShape.
Import Abs.

Context {Element : Type} {Cmp : ElementOps Element}.

Implicit Types t l r : tree Element.

Lemma deleteMin_shape fuel : ∀ t,
  (count t < fuel)%nat → balanced t → is23 t → t ≠ Leaf → not_two_node t →
  ∃ t' e0, deleteMin fuel t = Some (t', -1) ∧ balanced t' ∧ is23 t'
     ∧ bh t' = bh t ∧ (isRed t = false → isRed t' = false)
     ∧ (∀ acc, flatten t acc = e0 :: flatten t' acc).
Proof.
  unfold not_two_node.
  induction fuel as [|fuel IH]; intros t Hc Hb H23 Hne Hpre; [lia|].
  destruct t as [|c l e r]; [done|].
  destruct l as [|lc ll le lr].
  { destruct c, r as [|[|] ? ? ?]; simpl in *; try (exfalso; fin; fail);
    do 2 eexists; (split; [reflexivity|]); fin. }
  cbn [deleteMin].
  destruct c, lc; simpl in Hpre; try (exfalso; fin; fail).
  all: break_goal; try (exfalso; fin; fail).
  all: try match goal with
  | |- context [deleteMin ?f ?X] =>
    destruct (IH X ltac:(fin) ltac:(fin) ltac:(fin) ltac:(fin) ltac:(fin))
      as (t' & ? & E & Bt & It & Ht & Ct & Ft); rewrite E
  end.
  all: break_goal; try (exfalso; fin; fail).
  all: try (do 2 eexists; (split; [reflexivity|])).
  all: repeat split; try (fin; fail).
  all: try (intros; simpl; rewrite ?Ft; simpl; reflexivity).
Qed.

Lemma min_flatten t : ∀ acc, head (flatten t acc) = match min t with Some e => Some e | None => head acc end.
Proof.
  induction t as [|c l IHl e r IHr]; intros acc; [done|].
  simpl. rewrite IHl. destruct l; simpl; [done|].
  destruct (match l1 with Leaf => Some e0 | _ => min l1 end) eqn:E; [done|].
  exfalso. clear -E. revert E. generalize e0. induction l1; intros; simpl in *; [done|]. destruct l1_1; [done|]. eauto.
Qed.

Lemma min_of_flatten t t' e0 :
  (∀ acc, flatten t acc = e0 :: flatten t' acc) → min t = Some e0.
Proof.
  intros H. pose proof (min_flatten t []) as M. rewrite H in M. simpl in M.
  destruct (min t); congruence.
Qed.

Lemma deleteMax_shape fuel : ∀ t,
  (count t < fuel)%nat → balanced t → t ≠ Leaf →
  (is23 t ∧ not_two_node t) ∨ leans_right t →
  ∃ t' e0, deleteMax fuel t = Some (t', -1) ∧ balanced t' ∧ is23 t'
     ∧ bh t' = bh t ∧ (isRed t = false → isRed t' = false)
     ∧ (∀ acc, flatten t acc = flatten t' (e0 :: acc)).
Proof.
  unfold not_two_node.
  induction fuel as [|fuel IH]; intros t Hc Hb Hne Hpre; [lia|].
  destruct t as [|c l e r]; [done|].
  cbn [deleteMax].
  destruct c.
  all: break_goal; try (exfalso; fin; fail).
  all: try match goal with
  | |- context [deleteMax ?f ?X] =>
    destruct (IH X ltac:(fin) ltac:(fin) ltac:(fin) ltac:(fin))
      as (t' & ? & E & Bt & It & Ht & Ct & Ft); rewrite E
  end.
  all: break_goal; try (exfalso; fin; fail).
  all: try (do 2 eexists; (split; [reflexivity|])).
  all: repeat split; try (fin; fail).
  all: try (intros; simpl; rewrite ?Ft; simpl; reflexivity).
Qed.

End DeleteMinMaxShape.

Section All.
Import Abs.

Context {Element : Type}.

Implicit Types t l r : tree Element.

Lemma all_impl (P Q : Element → Prop) t :
  all P t → (∀ y, P y → Q y) → all Q t.
Proof. induction t; simpl; intuition. Qed.

End All.

Ltac all_tac :=
  match goal with
  | H : all _ ?t |- all _ ?t =>
    refine (all_impl _ _ t H _); let y := fresh "y" in intros y ?; order
  end.

Ltac fin2 := simpl in *; intuition (try congruence; try lia; try all_tac).

Ltac rew_cmp :=
  repeat match goal with
  | H : (@Compare _ _ _ _ <? 0) = _ |- _ => progress (rewrite H in * )
  | H : (@Compare _ _ _ _ =? 0) = _ |- _ => progress (rewrite H in * )
  end.

Ltac break_cmp :=
  repeat (match goal with
  | |- context [@Compare _ _ ?a ?b <? 0] =>
    let E := fresh "C" in destruct (Compare a b <? 0) eqn:E; rewrite ?E in *
  | |- context [@Compare _ _ ?a ?b =? 0] =>
    let E := fresh "C" in destruct (Compare a b =? 0) eqn:E; rewrite ?E in *
  end; norm).

Section DeleteShape.
Import Abs.

Context {Element : Type} {Cmp : ElementOps Element}.

Implicit Types t l r : tree Element.

Context {Ord : TotalPreorder Element}.

Local Arguments min : simpl never.

Lemma delete_shape x fuel : ∀ t,
  (count t < fuel)%nat → balanced t → bst t → t ≠ Leaf →
  (is23 t ∧ not_two_node t) ∨ leans_right_at x t →
  ∃ t' m, delete fuel x t = Some (t', m) ∧ balanced t' ∧ is23 t'
     ∧ bh t' = bh t ∧ (isRed t = false → isRed t' = false)
     ∧ (∀ acc, flatten t' acc = del x t acc) ∧ m = delta_del x t
     ∧ (is_nil t' = true → Compare x (root_elem x t) = 0).
Proof.
  unfold root_elem.
  unfold not_two_node, delta_del.
  induction fuel as [|fuel IH]; intros t Hc Hb Hs Hne Hpre; [lia|].
  destruct t as [|c l e r]; [done|].
  cbn [delete].
  destruct (Compare x e <? 0) eqn:Hlt.
  - destruct c.
    all: break_goal; try (exfalso; fin; fail).
    all: try match goal with
    | |- context [delete ?f ?y ?X] =>
      destruct (IH X ltac:(fin2) ltac:(fin2) ltac:(fin2) ltac:(fin2) ltac:(fin2))
        as (t' & ? & E & Bt & It & Ht & Ct & Ft & Mt & Nt); rewrite E
    end.
    all: break_goal; try (exfalso; fin; fail).
    all: rewrite ?Hlt in *.
    all: break_cmp.
    all: try (exfalso; order).
    all: try (do 2 eexists; (split; [reflexivity|])).
    all: repeat split; try (fin; fail).
    all: try (intros; simpl; rewrite ?Ft; simpl; reflexivity).
  - destruct c.
    all: break_goal; try (exfalso; fin; fail).
    all: rewrite ?Hlt in *.
    all: break_cmp.
    all: try (exfalso; fin; fail).
    all: break_goal; try (exfalso; fin; fail).
    all: try match goal with
    | |- context [min ?X] =>
      destruct (deleteMin_shape fuel X ltac:(fin2) ltac:(fin2) ltac:(fin2) ltac:(fin2) ltac:(unfold not_two_node; fin2))
        as (t' & ? & E & Bt & It & Ht & Ct & Ft);
      rewrite (min_of_flatten X _ _ Ft); norm; rewrite E
    | |- context [deleteMin ?f ?X] =>
      destruct (deleteMin_shape fuel X ltac:(fin2) ltac:(fin2) ltac:(fin2) ltac:(fin2) ltac:(unfold not_two_node; fin2))
        as (t' & ? & E & Bt & It & Ht & Ct & Ft); rewrite E
    | |- context [delete ?f ?y ?X] =>
      destruct (IH X ltac:(fin2) ltac:(fin2) ltac:(fin2) ltac:(fin2) ltac:(fin2))
        as (t' & ? & E & Bt & It & Ht & Ct & Ft & Mt & Nt); rewrite E
    end.
    all: break_goal; try (exfalso; fin; fail).
    all: norm; rew_cmp; norm.
    all: break_cmp.
    all: try (exfalso; fin; fail).
    all: try (do 2 eexists; (split; [reflexivity|])).
    all: try (repeat split; (fin; fail)).
    all: try (exfalso; order).
Qed.

End DeleteShape.

Section RootShape.
Import Abs.

Context {Element : Type} {Cmp : ElementOps Element}.

Implicit Types t l r : tree Element.

Context {Ord : TotalPreorder Element}.

Lemma deleteMin_root fuel t :
  (count t < fuel)%nat → balanced t → is23 t → t ≠ Leaf →
  ∃ t' e0, deleteMin fuel t = Some (t', -1) ∧ balanced t'
     ∧ is23 (blacken t') ∧ (∀ acc, flatten t acc = e0 :: flatten t' acc).
Proof.
  intros Hc Hb H23 Hne.
  destruct fuel as [|fuel]; [lia|].
  destruct t as [|c l e r]; [done|].
  cbn [deleteMin].
  all: break_goal; try (exfalso; fin; fail).
  all: try match goal with
  | |- context [deleteMin ?f ?X] =>
    destruct (deleteMin_shape fuel X ltac:(fin) ltac:(fin) ltac:(fin) ltac:(fin) ltac:(unfold not_two_node; fin))
      as (t' & ? & E & Bt & It & Ht & Ct & Ft); rewrite E
  end.
  all: break_goal; try (exfalso; fin; fail).
  all: try (do 2 eexists; (split; [reflexivity|])).
  all: repeat split; try (fin; fail).
  all: try (intros; simpl; rewrite ?Ft; simpl; reflexivity).
  all: destruct r as [|[|] ? ? ?]; simpl in *; try (exfalso; fin; fail); done.
Qed.

Lemma deleteMax_root fuel t :
  (count t < fuel)%nat → balanced t → is23 t → t ≠ Leaf →
  ∃ t' e0, deleteMax fuel t = Some (t', -1) ∧ balanced t'
     ∧ is23 (blacken t') ∧ (∀ acc, flatten t acc = flatten t' (e0 :: acc)).
Proof.
  intros Hc Hb H23 Hne.
  destruct fuel as [|fuel]; [lia|].
  destruct t as [|c l e r]; [done|].
  cbn [deleteMax].
  all: break_goal; try (exfalso; fin; fail).
  all: try match goal with
  | |- context [deleteMax ?f ?X] =>
    destruct (deleteMax_shape fuel X ltac:(fin) ltac:(fin) ltac:(fin) ltac:(unfold not_two_node; fin))
      as (t' & ? & E & Bt & It & Ht & Ct & Ft); rewrite E
  end.
  all: break_goal; try (exfalso; fin; fail).
  all: try (do 2 eexists; (split; [reflexivity|])).
  all: repeat split; try (fin; fail).
  all: try (intros; simpl; rewrite ?Ft; simpl; reflexivity).
Qed.

Local Arguments min : simpl never.

Lemma delete_root x fuel t :
  (count t < fuel)%nat → balanced t → bst t → is23 t → t ≠ Leaf →
  ∃ t' m, delete fuel x t = Some (t', m) ∧ balanced t'
     ∧ is23 (blacken t') ∧ (∀ acc, flatten t' acc = del x t acc)
     ∧ m = delta_del x t.
Proof.
  unfold delta_del.
  intros Hc Hb Hs H23 Hne.
  destruct fuel as [|fuel]; [lia|].
  destruct t as [|c l e r]; [done|].
  cbn [delete].
  all: break_goal; try (exfalso; fin; fail).
  all: break_cmp.
  all: try (exfalso; fin; fail).
  all: break_goal; try (exfalso; fin; fail).
  all: try match goal with
  | |- context [min ?X] =>
    destruct (deleteMin_shape fuel X ltac:(fin2) ltac:(fin2) ltac:(fin2) ltac:(fin2) ltac:(unfold not_two_node; fin2))
      as (t' & ? & E & Bt & It & Ht & Ct & Ft);
    rewrite (min_of_flatten X _ _ Ft); norm; rewrite E
  | |- context [deleteMin ?f ?X] =>
    destruct (deleteMin_shape fuel X ltac:(fin2) ltac:(fin2) ltac:(fin2) ltac:(fin2) ltac:(unfold not_two_node; fin2))
      as (t' & ? & E & Bt & It & Ht & Ct & Ft); rewrite E
  | |- context [delete ?f ?y ?X] =>
    destruct (delete_shape x fuel X ltac:(fin2) ltac:(fin2) ltac:(fin2) ltac:(fin2) ltac:(unfold not_two_node; fin2))
      as (t' & ? & E & Bt & It & Ht & Ct & Ft & Mt & Nt); rewrite E
  end.
  all: break_goal; try (exfalso; fin; fail).
  all: unfold delta_del, root_elem in *; norm; rew_cmp; norm.
  all: break_cmp.
  all: try (exfalso; fin; fail).
  all: try (do 2 eexists; (split; [reflexivity|])).
  all: try (repeat split; (fin; fail)).
  all: try (exfalso; order).
Qed.

End RootShape.

Section InsertShape.
Import Abs.

Context {Element : Type} {Cmp : ElementOps Element}.

Implicit Types t l r : tree Element.

Lemma insert_shape x t :
  balanced t → is23 t →
  ∃ t' m, insert x t = Some (t', m) ∧ balanced t' ∧ bh t' = bh t
          ∧ almost23 t' ∧ (isRed t = false → is23 t')
          ∧ (∀ acc, flatten t' acc = ins x t acc) ∧ m = delta_ins x t
          ∧ is_nil t' = false.
Proof.
  unfold delta_ins.
  induction t as [|c l IHl e r IHr]; intros Hb H23.
  - do 2 eexists; split; [reflexivity|]. fin.
  - simpl in Hb, H23. destruct Hb as (Hh & Hbl & Hbr).
    destruct H23 as (Hr & Hc & H23l & H23r).
    specialize (IHl Hbl H23l). specialize (IHr Hbr H23r).
    destruct IHl as (l' & ml & El & Bl' & Hl' & Al' & Il' & Fl & Ml & Nl).
    destruct IHr as (r' & mr & Er & Br' & Hr' & Ar' & Ir' & Fr & Mr & Nr).
    cbn [insert find ins].
    destruct (Compare x e =? 0).
    + cbn. destruct c; break_goal; do 2 eexists; (split; [reflexivity|]); fin.
    + destruct (Compare x e <? 0).
      * rewrite El. cbn.
        destruct c; break_goal; do 2 eexists; (split; [reflexivity|]);
          repeat split; try (fin; fail); intros; simpl; rewrite <- ?Fl; reflexivity.
      * rewrite Er. cbn.
        destruct c; break_goal; do 2 eexists; (split; [reflexivity|]);
          repeat split; try (fin; fail); intros; simpl; rewrite <- ?Fr; reflexivity.
Qed.

Lemma insert_root x t :
  balanced t → is23 t → isRed t = false →
  ∃ t' m, insert x t = Some (t', m) ∧ t' ≠ Leaf ∧ balanced (blacken t')
          ∧ is23 (blacken t')
          ∧ (∀ acc, flatten (blacken t') acc = ins x t acc)
          ∧ m = delta_ins x t.
Proof.
  intros Hb H23 Hr.
  destruct (insert_shape x t Hb H23) as (t' & m & E & B & Hh & A & I & F & M & N).
  exists t', m. specialize (I Hr).
  destruct t'; simpl in *; [congruence|]. unfold red, black in *. intuition (try congruence).
Qed.

End InsertShape.

(** ** Sorted lists: what the operations mean for the in-order contents *)

Section Lists.
Import Abs.

Context {Element : Type} {Cmp : ElementOps Element}.

Implicit Types (x y : Element) (l : list Element).

Lemma visit_app {V} (fn : Visitor Element V) l1 l2 v :
  visit fn (l1 ++ l2) v =
  let (done, v') := visit fn l1 v in
  if done then (true, v') else visit fn l2 v'.
Proof.
  revert v. induction l1 as [|x l1 IH]; intros v; simpl; [done|].
  destruct (fn (Some x) v) as [[|] v']; [done|]. apply IH.
Qed.

Lemma lremove_app x l1 l2 : lremove x (l1 ++ l2) = lremove x l1 ++ lremove x l2.
Proof. apply List.filter_app. Qed.

Lemma lremove_cons x y l :
  lremove x (y :: l) = if Compare x y =? 0 then lremove x l else y :: lremove x l.
Proof. unfold lremove. simpl. by destruct (Compare x y =? 0). Qed.

Lemma lfind_cons x y l :
  lfind x (y :: l) = if Compare x y =? 0 then Some y else lfind x l.
Proof. done. Qed.

Lemma lremove_id x l : Forall (λ y, Compare x y ≠ 0) l → lremove x l = l.
Proof.
  induction 1 as [|y l Hy Hl IH]; simpl; [done|].
  destruct (Z.eqb_spec (Compare x y) 0); [done|]. simpl. by f_equal.
Qed.

Lemma lfind_app x l1 l2 :
  lfind x (l1 ++ l2) =
  match lfind x l1 with Some y => Some y | None => lfind x l2 end.
Proof.
  unfold lfind. induction l1 as [|y l1 IH]; simpl; [done|].
  by destruct (Compare x y =? 0).
Qed.

Lemma lfind_none x l : Forall (λ y, Compare x y ≠ 0) l → lfind x l = None.
Proof.
  induction 1 as [|y l Hy Hl IH]; simpl; [done|].
  destruct (Z.eqb_spec (Compare x y) 0); done.
Qed.

Lemma lfind_lremove x l : lfind x (lremove x l) = None.
Proof.
  induction l as [|y l IH]; simpl; [done|].
  destruct (Compare x y =? 0) eqn:E; simpl; [done|]. by rewrite E.
Qed.

Lemma linsert_app_lt x l1 e l2 :
  Compare x e < 0 → linsert x (l1 ++ e :: l2) = linsert x l1 ++ e :: l2.
Proof.
  intros He. induction l1 as [|y l1 IH]; simpl.
  - destruct (Z.eqb_spec (Compare x e) 0); [lia|].
    destruct (Z.ltb_spec (Compare x e) 0); [done|lia].
  - destruct (Compare x y =? 0); [done|].
    destruct (Compare x y <? 0); [done|]. by rewrite IH.
Qed.

Lemma linsert_app_gt x l1 l2 :
  Forall (λ y, 0 < Compare x y) l1 → linsert x (l1 ++ l2) = l1 ++ linsert x l2.
Proof.
  induction 1 as [|y l Hy Hl IH]; simpl; [done|].
  destruct (Z.eqb_spec (Compare x y) 0); [lia|].
  destruct (Z.ltb_spec (Compare x y) 0); [lia|]. by rewrite IH.
Qed.

Lemma linsert_In x l y : In y (linsert x l) → y = x ∨ In y l.
Proof.
  induction l as [|z l IH]; simpl; [intuition|].
  destruct (Compare x z =? 0); [simpl; intuition|].
  destruct (Compare x z <? 0); simpl; intuition.
Qed.

Lemma sorted_app l1 l2 :
  sorted l1 → sorted l2 →
  (∀ a b, In a l1 → In b l2 → Compare a b < 0) → sorted (l1 ++ l2).
Proof.
  intros H1 H2 H. induction H1 as [|a l1 Hs IH Ha]; simpl; [done|].
  constructor.
  - apply IH. intros; apply H; simpl; auto.
  - apply Forall_app; split; [done|].
    apply Forall_forall. intros b Hb. apply H; simpl; auto.
    by apply list_elem_of_In.
Qed.

Lemma sorted_app_inv l1 l2 :
  sorted (l1 ++ l2) →
  sorted l1 ∧ sorted l2 ∧ (∀ a b, In a l1 → In b l2 → Compare a b < 0).
Proof.
  induction l1 as [|a l1 IH]; simpl; intros H.
  - repeat split; [constructor|done|intuition].
  - inversion H as [|? ? Hs Ha]; subst.
    destruct (IH Hs) as (S1 & S2 & S3).
    apply Forall_app in Ha as [Ha1 Ha2].
    repeat split; [by constructor|done|].
    intros a' b [->|Hin] Hb; [|by apply S3].
    rewrite Forall_forall in Ha2. apply Ha2. by apply list_elem_of_In.
Qed.

Lemma sorted_filter (f : Element → bool) l : sorted l → sorted (List.filter f l).
Proof.
  induction 1 as [|a l Hs IH Ha]; simpl; [constructor|].
  destruct (f a); [|done]. constructor; [done|].
  rewrite Forall_forall in *. intros b Hb. apply Ha.
  apply list_elem_of_In. apply list_elem_of_In in Hb.
  apply List.filter_In in Hb. tauto.
Qed.

End Lists.

Section TreeLists.
Import Abs.

Context {Element : Type} {Cmp : ElementOps Element}.

Implicit Types (x y : Element) (t l r : tree Element).

Lemma flatten_elements t : ∀ acc, flatten t acc = elements t ++ acc.
Proof.
  induction t as [|c l IHl e r IHr]; intros acc; simpl; [done|].
  by rewrite IHl, IHr, <- app_assoc.
Qed.

Lemma all_Forall (P : Element → Prop) t : all P t ↔ Forall P (elements t).
Proof.
  induction t as [|c l IHl e r IHr]; simpl; [by split; [constructor|]|].
  rewrite Forall_app, Forall_cons. tauto.
Qed.

Lemma count_elements t : count t = length (elements t).
Proof.
  induction t as [|c l IHl e r IHr]; simpl; [done|].
  rewrite length_app. simpl. lia.
Qed.

Lemma min_head t : min t = head (elements t).
Proof.
  induction t as [|c l IHl e r _]; simpl; [done|].
  destruct l as [|c' l1 e' l2]; [done|]. rewrite IHl. simpl.
  by destruct (elements l1).
Qed.

Lemma max_is_Some c l e r : is_Some (max (Node c l e r)).
Proof.
  revert c l e. induction r as [|c' r1 _ e' r2 IH]; intros c l e; [done|].
  exact (IH c' r1 e').
Qed.

Lemma max_last t : max t = last (elements t).
Proof.
  induction t as [|c l _ e r IHr]; simpl; [done|].
  rewrite last_app_cons, last_cons.
  destruct r as [|c' r1 e' r2]; [done|]. rewrite <- IHr.
  by destruct (max_is_Some c' r1 e' r2) as [y ->].
Qed.

Context {Ord : TotalPreorder Element}.

Lemma bst_sorted t : bst t → sorted (elements t).
Proof.
  induction t as [|c l IHl e r IHr]; simpl; [constructor|].
  intros (Hl & Hr & Bl & Br).
  apply all_Forall in Hl, Hr. rewrite Forall_forall in Hl, Hr.
  apply sorted_app; [by apply IHl| |].
  - constructor; [by apply IHr|]. by apply Forall_forall.
  - intros a b Ha [<-|Hb].
    + apply Hl. by apply list_elem_of_In.
    + apply list_elem_of_In in Ha, Hb. specialize (Hl a Ha). specialize (Hr b Hb).
      simpl in *. order.
Qed.

Lemma sorted_bst t : sorted (elements t) → bst t.
Proof.
  induction t as [|c l IHl e r IHr]; simpl; [done|].
  intros H. apply sorted_app_inv in H as (Sl & Se & Hlr).
  inversion Se as [|? ? Sr Hr]; subst.
  repeat split; auto.
  - apply all_Forall, Forall_forall. intros a Ha.
    apply Hlr; [by apply list_elem_of_In|by left].
  - by apply all_Forall.
Qed.

Lemma find_spec x t : bst t → find x t = lfind x (elements t).
Proof.
  induction t as [|c l IHl e r IHr]; simpl; [done|].
  intros (Hl & Hr & Bl & Br). rewrite lfind_app, lfind_cons.
  apply all_Forall in Hl, Hr.
  destruct (Compare x e =? 0) eqn:E.
  - rewrite (lfind_none x (elements l)); [done|].
    eapply Forall_impl; [exact Hl|]. intros y ?; simpl in *. order.
  - destruct (Compare x e <? 0) eqn:E'.
    + rewrite IHl by done. destruct (lfind x (elements l)); [done|].
      symmetry. apply lfind_none.
      eapply Forall_impl; [exact Hr|]. intros y ?; simpl in *. order.
    + rewrite IHr by done. rewrite (lfind_none x (elements l)); [done|].
      eapply Forall_impl; [exact Hl|]. intros y ?; simpl in *. order.
Qed.

Lemma del_spec x t acc : bst t → del x t acc = lremove x (elements t) ++ acc.
Proof.
  revert acc. induction t as [|c l IHl e r IHr]; simpl; [done|].
  intros acc (Hl & Hr & Bl & Br). rewrite lremove_app, lremove_cons.
  apply all_Forall in Hl, Hr.
  assert (∀ P Q : Element → Prop, ∀ ys : list Element, Forall P ys → (∀ y, P y → Q y) → Forall Q ys)
    as Fi by (intros; by eapply Forall_impl).
  destruct (Compare x e <? 0) eqn:E'.
  - rewrite IHl by done. rewrite !flatten_elements.
    destruct (Compare x e =? 0) eqn:E; [exfalso; order|]. simpl.
    rewrite (lremove_id x (elements r)).
    + by rewrite <- !app_assoc.
    + apply (Fi _ _ _ Hr). intros y ?; simpl in *. order.
  - destruct (Compare x e =? 0) eqn:E; simpl.
    + rewrite !flatten_elements, !lremove_id.
      * by rewrite <- !app_assoc.
      * apply (Fi _ _ _ Hr). intros y ?; simpl in *. order.
      * apply (Fi _ _ _ Hl). intros y ?; simpl in *. order.
    + rewrite IHr by done. rewrite !flatten_elements, (lremove_id x (elements l)).
      * by rewrite <- !app_assoc.
      * apply (Fi _ _ _ Hl). intros y ?; simpl in *. order.
Qed.

Lemma ins_spec x t acc : bst t → ins x t acc = linsert x (elements t) ++ acc.
Proof.
  revert acc. induction t as [|c l IHl e r IHr]; simpl; [done|].
  intros acc (Hl & Hr & Bl & Br).
  apply all_Forall in Hl, Hr.
  assert (∀ P Q : Element → Prop, ∀ ys : list Element, Forall P ys → (∀ y, P y → Q y) → Forall Q ys)
    as Fi by (intros; by eapply Forall_impl).
  destruct (Compare x e =? 0) eqn:E.
  - rewrite linsert_app_gt.
    + simpl. rewrite E. rewrite !flatten_elements. by rewrite <- !app_assoc.
    + apply (Fi _ _ _ Hl). intros y ?; simpl in *. order.
  - destruct (Compare x e <? 0) eqn:E'.
    + rewrite linsert_app_lt by order. rewrite IHl by done.
      rewrite !flatten_elements. by rewrite <- !app_assoc.
    + rewrite linsert_app_gt.
      * simpl. rewrite E, E'. rewrite IHr by done.
        rewrite !flatten_elements. by rewrite <- !app_assoc.
      * apply (Fi _ _ _ Hl). intros y ?; simpl in *. order.
Qed.

Lemma sorted_linsert x (ys : list Element) : sorted ys → sorted (linsert x ys).
Proof.
  induction 1 as [|a l0 Hs IH Ha]; simpl; [repeat constructor|].
  destruct (Compare x a =? 0) eqn:E.
  - constructor; [done|]. eapply Forall_impl; [exact Ha|]. intros y ?; simpl in *. order.
  - destruct (Compare x a <? 0) eqn:E'.
    + constructor; [by constructor|]. constructor; [order|].
      eapply Forall_impl; [exact Ha|]. intros y ?; simpl in *. order.
    + constructor; [done|]. apply Forall_forall. intros y Hy.
      apply list_elem_of_In, linsert_In in Hy as [->|Hy]; [order|].
      rewrite Forall_forall in Ha. apply Ha. by apply list_elem_of_In.
Qed.

Lemma lfind_linsert x y (ys : list Element) :
  sorted ys → Compare y x = 0 → lfind y (linsert x ys) = Some x.
Proof.
  intros Hs Hy. induction Hs as [|a l0 Hs IH Ha]; simpl.
  - destruct (Z.eqb_spec (Compare y x) 0); [done|lia].
  - destruct (Compare x a =? 0) eqn:E; simpl.
    + destruct (Z.eqb_spec (Compare y x) 0); [done|lia].
    + destruct (Compare x a <? 0) eqn:E'; simpl.
      * destruct (Z.eqb_spec (Compare y x) 0); [done|lia].
      * destruct (Compare y a =? 0) eqn:E''; [exfalso; order|]. apply IH.
Qed.

End TreeLists.

Section Traversal.
Import Abs.

Context {Element : Type} {Cmp : ElementOps Element}.

Implicit Types (x y : Element) (t l r : tree Element).

Lemma do_spec {V} (fn : Visitor Element V) t v :
  is_nil t = false → do t fn v = Some (visit fn (elements t) v).
Proof.
  revert v. induction t as [|c l IHl e r IHr]; intros v Hn; [done|].
  cbn [do elements]. rewrite visit_app. cbn [visit].
  assert ((if is_nil l then Some (false, v) else do l fn v)
          = Some (visit fn (elements l) v)) as ->.
  { destruct l; [done|]. by apply IHl. }
  cbn [mbind option_bind].
  destruct (visit fn (elements l) v) as [[|] v1]; [done|].
  destruct (fn (Some e) v1) as [[|] v2]; [done|].
  destruct r; [done|]. by apply IHr.
Qed.

Context {Ord : TotalPreorder Element}.

Lemma filter_range_nil lo hi (ys : list Element) :
  Forall (λ y, in_range lo hi y = false) ys → List.filter (in_range lo hi) ys = [].
Proof.
  induction 1 as [|y ys Hy _ IH]; simpl; [done|]. by rewrite Hy.
Qed.

Lemma doRange_spec {V} (fn : Visitor Element V) lo hi t v :
  bst t → is_nil t = false →
  doRange t lo hi fn v
  = Some (visit fn (List.filter (in_range lo hi) (elements t)) v).
Proof.
  revert v. induction t as [|c l IHl e r IHr]; intros v Hs Hn; [done|].
  destruct Hs as (Hl & Hr & Bl & Br). apply all_Forall in Hl, Hr.
  cbn [doRange elements]. cbv zeta.
  rewrite List.filter_app. cbn [List.filter]. rewrite visit_app.
  assert ((if (Compare lo e <=? 0) && negb (is_nil l)
           then doRange l lo hi fn v else Some (false, v))
          = Some (visit fn (List.filter (in_range lo hi) (elements l)) v)) as ->.
  { destruct (Compare lo e <=? 0) eqn:E; simpl.
    - destruct l; [done|]. by apply IHl.
    - rewrite filter_range_nil; [done|].
      eapply Forall_impl; [exact Hl|]. intros y Hy. simpl in Hy.
      unfold in_range. apply andb_false_iff. left. order. }
  cbn [mbind option_bind].
  destruct (visit fn _ v) as [[|] v1]; [done|].
  unfold in_range at 1.
  assert (∀ v1, (if (Compare hi e >? 0) && negb (is_nil r)
           then doRange r lo hi fn v1 else Some (false, v1))
          = Some (visit fn (List.filter (in_range lo hi) (elements r)) v1)) as Hright.
  { intros v'. destruct (Compare hi e >? 0) eqn:E; simpl.
    - destruct r; [done|]. by apply IHr.
    - rewrite filter_range_nil; [done|].
      eapply Forall_impl; [exact Hr|]. intros y Hy. simpl in Hy.
      unfold in_range. apply andb_false_iff. right. order. }
  destruct ((Compare lo e <=? 0) && (Compare hi e >? 0)) eqn:E; cbn [visit].
  - destruct (fn (Some e) v1) as [[|] v2]; [done|]. apply Hright.
  - apply Hright.
Qed.

End Traversal.

(** ** Heaps that are shaped like a tree *)

Section Repr.

Context {Element : Type}.

Implicit Types (h : list (node Element)) (p : ptr) (t : Abs.tree Element)
  (F : gset nat) (a b : nat).

Lemma repr_dom h p t F : repr h p t F → ∀ b, b ∈ F → (b < length h)%nat.
Proof.
  induction 1 as [|a c e pl pr tl tr Fl Fr Ha _ IHl _ IHr]; intros b Hb.
  - set_solver.
  - apply elem_of_union in Hb as [Hb|Hb]; [|by apply IHr].
    apply elem_of_union in Hb as [Hb|Hb]; [|by apply IHl].
    apply elem_of_singleton in Hb as ->. by eapply lookup_lt_Some.
Qed.

Lemma repr_frame h h' p t F :
  repr h p t F → (∀ b, b ∈ F → h' !! b = h !! b) → repr h' p t F.
Proof.
  induction 1 as [|a c e pl pr tl tr Fl Fr Ha _ IHl _ IHr]; intros Hf.
  - constructor.
  - econstructor; eauto.
    + rewrite Hf; [done|set_solver].
    + apply IHl. intros; apply Hf. set_solver.
    + apply IHr. intros; apply Hf. set_solver.
Qed.

Lemma repr_eq h p t F F' : repr h p t F → F = F' → repr h p t F'.
Proof. by intros ? <-. Qed.

Lemma repr_nil_inv h p F : repr h p Abs.Leaf F → p = None ∧ F = ∅.
Proof. by inversion 1. Qed.

Lemma repr_node_inv h p c l e r F :
  repr h p (Abs.Node c l e r) F →
  ∃ a pl pr Fl Fr, p = Some a ∧ F = ({[a]} ∪ Fl ∪ Fr)
    ∧ h !! a = Some (mkNode (Some e) pr pl c)
    ∧ repr h pl l Fl ∧ repr h pr r Fr ∧ (a ∉ Fl) ∧ (a ∉ Fr) ∧ (Fl ## Fr).
Proof. inversion 1; subst. naive_solver. Qed.

Lemma repr_None h t F : repr h None t F → t = Abs.Leaf ∧ F = ∅.
Proof. by inversion 1. Qed.

Lemma ext_refl h F F' : F' ⊆ F → ext h h F F'.
Proof.
  intros HF. split; [done|]. split; [done|]. intros b Hb. left. set_solver.
Qed.

Lemma ext_trans h h1 h2 F F1 F2 :
  ext h h1 F F1 → ext h1 h2 F1 F2 → ext h h2 F F2.
Proof.
  intros (L1 & K1 & N1) (L2 & K2 & N2). repeat split.
  - lia.
  - intros b Hb HF. rewrite K2, K1; auto; [lia|].
    intros Hb1. destruct (N1 b Hb1); [done|lia].
  - intros b Hb. destruct (N2 b Hb) as [Hb1|?]; [|right; lia].
    destruct (N1 b Hb1); auto.
Qed.

(** Weakening the footprint on either side. *)
Lemma ext_weaken h h' F F' G G' :
  ext h h' F F' → F ⊆ G → (∀ b, b ∈ G' → b ∈ F' ∨ b ∈ G) → ext h h' G G'.
Proof.
  intros (L & K & N) HG HG'. repeat split; [done| |].
  - intros b Hb HbG. apply K; [done|set_solver].
  - intros b Hb. destruct (HG' b Hb) as [Hb'|?]; [|by left].
    destruct (N b Hb'); [left; set_solver|by right].
Qed.

(** Facts about parts of the heap that a call did not own survive it. *)
Lemma ext_lookup h h' F F' a (c : node Element) :
  ext h h' F F' → h !! a = Some c → a ∉ F → h' !! a = Some c ∧ a ∉ F'.
Proof.
  intros (L & K & N) Ha HF. apply lookup_lt_Some in Ha as Hlt. split.
  - by rewrite K.
  - intros Hb. destruct (N a Hb); [done|lia].
Qed.

Lemma ext_repr h h' F F' p t G :
  ext h h' F F' → repr h p t G → G ## F → repr h' p t G ∧ G ## F'.
Proof.
  intros (L & K & N) Hr HG. pose proof (repr_dom _ _ _ _ Hr) as Hd. split.
  - eapply repr_frame; [done|]. intros b Hb. apply K; [by apply Hd|set_solver].
  - intros b Hb Hb'. destruct (N b Hb'); [set_solver|]. specialize (Hd b Hb). lia.
Qed.

End Repr.

(** ** Stepping the heap code *)

Lemma bind_ok {S A B} (m : ST S A) (k : A → ST S B) s a s' :
  m s = Ok (a, s') → bind m k s = k a s'.
Proof. unfold bind. by intros ->. Qed.

Section Steps.

Context {Element : Type} {Cmp : ElementOps Element}.

Implicit Types (h : list (node Element)) (p : ptr) (t : Abs.tree Element)
  (F : gset nat) (a b : nat) (c : node Element).

Lemma load_ok h a c : h !! a = Some c → load (Some a) h = Ok (c, h).
Proof. unfold load. by intros ->. Qed.

Lemma get_left_ok h a c :
  h !! a = Some c → node.get_left (Some a) h = Ok (left c, h).
Proof. intros H. unfold node.get_left. by rewrite (bind_ok _ _ _ _ _ (load_ok _ _ _ H)). Qed.

Lemma get_right_ok h a c :
  h !! a = Some c → node.get_right (Some a) h = Ok (right c, h).
Proof. intros H. unfold node.get_right. by rewrite (bind_ok _ _ _ _ _ (load_ok _ _ _ H)). Qed.

Lemma get_elem_ok h a c :
  h !! a = Some c → node.get_elem (Some a) h = Ok (elem c, h).
Proof. intros H. unfold node.get_elem. by rewrite (bind_ok _ _ _ _ _ (load_ok _ _ _ H)). Qed.

Lemma get_color_ok h a c :
  h !! a = Some c → node.get_color (Some a) h = Ok (color c, h).
Proof. intros H. unfold node.get_color. by rewrite (bind_ok _ _ _ _ _ (load_ok _ _ _ H)). Qed.

Lemma update_ok h a c (f : node Element → node Element) :
  h !! a = Some c → update (Some a) f h = Ok (tt, <[a := f c]> h).
Proof. unfold update. by intros ->. Qed.

Lemma set_left_ok h a c v :
  h !! a = Some c → node.set_left (Some a) v h = Ok (tt, <[a := with_left c v]> h).
Proof. apply update_ok. Qed.

Lemma set_right_ok h a c v :
  h !! a = Some c → node.set_right (Some a) v h = Ok (tt, <[a := with_right c v]> h).
Proof. apply update_ok. Qed.

Lemma set_elem_ok h a c v :
  h !! a = Some c → node.set_elem (Some a) v h = Ok (tt, <[a := with_elem c v]> h).
Proof. apply update_ok. Qed.

Lemma set_color_ok h a c v :
  h !! a = Some c → node.set_color (Some a) v h = Ok (tt, <[a := with_color c v]> h).
Proof. apply update_ok. Qed.

Lemma lookup_upd_eq h a c c' : h !! a = Some c → <[a := c']> h !! a = Some c'.
Proof. intros H. apply list_lookup_insert_eq. by eapply lookup_lt_Some. Qed.

Lemma lookup_upd_ne h a b c c' : a ≠ b → h !! b = Some c → <[a := c']> h !! b = Some c.
Proof. intros H ?. by rewrite list_lookup_insert_ne. Qed.

Lemma repr_upd h a c p t F : repr h p t F → a ∉ F → repr (<[a := c]> h) p t F.
Proof.
  intros Hr Ha. eapply repr_frame; [done|]. intros b Hb.
  apply list_lookup_insert_ne. set_solver.
Qed.

Lemma ext_upd h h1 a c F : ext h h1 F F → a ∈ F → ext h (<[a := c]> h1) F F.
Proof.
  intros (L & K & N) Ha. repeat split.
  - by rewrite length_insert.
  - intros b Hb HF. rewrite list_lookup_insert_ne by set_solver. by apply K.
  - done.
Qed.

Lemma isRed_sim h p t F : repr h p t F → node.isRed p h = Ok (Abs.isRed t, h).
Proof.
  destruct 1 as [|a c e pl pr tl tr Fl Fr Ha]; [done|].
  unfold node.isRed. by rewrite (bind_ok _ _ _ _ _ (get_color_ok _ _ _ Ha)).
Qed.

End Steps.

Create HintDb heap.

#[export] Hint Resolve get_left_ok get_right_ok get_elem_ok get_color_ok
  set_left_ok set_right_ok set_elem_ok set_color_ok
  lookup_upd_eq lookup_upd_ne repr_upd isRed_sim : heap.

#[export] Hint Resolve ext_upd : heap.

#[export] Hint Extern 1 (ext ?h ?h _ _) => apply ext_refl; set_solver : heap.

#[export] Hint Extern 1 (_ ∈ _) => set_solver : heap.

#[export] Hint Extern 1 (_ ≠ _) => set_solver : heap.

#[export] Hint Extern 1 (_ ∉ _) => set_solver : heap.

(** One step of symbolic execution: the head of the computation is a field
    read, a field write or [isRed], and the cell is known. *)
Ltac repr_build :=
  lazymatch goal with
  | |- repr _ None Abs.Leaf _ => eapply repr_eq; [constructor|set_solver]
  | |- repr _ (Some _) (Abs.Node _ _ _ _) _ =>
    eapply repr_eq;
    [eapply repr_node;
     [solve [eauto 10 with heap] | simpl; repr_build | simpl; repr_build
     | set_solver ..]
    | set_solver]
  | |- repr _ _ _ _ => solve [eauto 10 with heap]
  end.

Ltac hdone :=
  do 2 eexists; split; [reflexivity|]; split;
  [repr_build | solve [eauto 10 with heap]].

Ltac hstep :=
  erewrite bind_ok by (eauto 10 with heap);
  cbn [with_color with_left with_right with_elem elem right left color].

Section Prims.

Context {Element : Type} {Cmp : ElementOps Element}.

Implicit Types (h : list (node Element)) (p : ptr) (t : Abs.tree Element)
  (F : gset nat) (a b : nat) (c : node Element).

Lemma rotateLeft_sim h p t t' F :
  repr h p t F → Abs.rotateLeft t = Some t' →
  ∃ p' h', node.rotateLeft p h = Ok (p', h') ∧ repr h' p' t' F ∧ ext h h' F F.
Proof.
  intros Hr Ha. destruct t as [|c l e [|rc rl re rr]]; simplify_eq/=.
  apply repr_node_inv in Hr as (a & pl & pr & Fl & Fr & -> & -> & Ha & Hl & Hr & ? & ? & ?).
  apply repr_node_inv in Hr as (b & prl & prr & Frl & Frr & -> & -> & Hb & Hrl & Hrr & ? & ? & ?).
  assert (a ≠ b) by set_solver.
  unfold node.rotateLeft. repeat hstep. hdone.
Qed.

Lemma rotateRight_sim h p t t' F :
  repr h p t F → Abs.rotateRight t = Some t' →
  ∃ p' h', node.rotateRight p h = Ok (p', h') ∧ repr h' p' t' F ∧ ext h h' F F.
Proof.
  intros Hr Ha. destruct t as [|c [|lc ll le lr] e r]; simplify_eq/=.
  apply repr_node_inv in Hr as (a & pl & pr & Fl & Fr & -> & -> & Ha & Hl & Hr & ? & ? & ?).
  apply repr_node_inv in Hl as (b & pll & plr & Fll & Flr & -> & -> & Hb & Hll & Hlr & ? & ? & ?).
  assert (a ≠ b) by set_solver.
  unfold node.rotateRight. repeat hstep. hdone.
Qed.

Lemma flipColors_sim h p t t' F :
  repr h p t F → Abs.flipColors t = Some t' →
  ∃ h', node.flipColors p h = Ok (tt, h') ∧ repr h' p t' F ∧ ext h h' F F.
Proof.
  intros Hr Ha. destruct t as [|c [|lc ll le lr] e [|rc rl re rr]]; simplify_eq/=.
  apply repr_node_inv in Hr as (a & pl & pr & Fl & Fr & -> & -> & Ha & Hl & Hr & ? & ? & ?).
  apply repr_node_inv in Hl as (b & pll & plr & Fll & Flr & -> & -> & Hb & Hll & Hlr & ? & ? & ?).
  apply repr_node_inv in Hr as (d & prl & prr & Frl & Frr & -> & -> & Hd & Hrl & Hrr & ? & ? & ?).
  assert (a ≠ b) by set_solver. assert (a ≠ d) by set_solver.
  assert (b ≠ d) by set_solver.
  unfold node.flipColors. repeat hstep.
  eexists; split; [eauto 10 with heap|]; split;
    [cbn [with_color color elem right left]; repr_build | solve [eauto 10 with heap]].
Qed.

End Prims.

(** ** A weakest-precondition reading of the heap code *)

Lemma wp_ret {S A} (a : A) (s : S) Q : Q a s → wp (ret a) s Q.
Proof. intros. by exists a, s. Qed.

Lemma wp_bind {S A B} (m : ST S A) (k : A → ST S B) s Q :
  wp m s (λ a s', wp (k a) s' Q) → wp (bind m k) s Q.
Proof.
  intros (a & s' & E & b & s'' & E' & HQ). exists b, s''.
  by rewrite (bind_ok _ _ _ _ _ E).
Qed.

Lemma wp_mono {S A} (m : ST S A) s (Q Q' : A → S → Prop) :
  wp m s Q → (∀ a s', Q a s' → Q' a s') → wp m s Q'.
Proof. intros (a & s' & E & HQ) H. exists a, s'. auto. Qed.

Lemma wp_eq {S A} (m : ST S A) s a s' (Q : A → S → Prop) :
  m s = Ok (a, s') → Q a s' → wp m s Q.
Proof. intros. by exists a, s'. Qed.

Lemma bind_assoc {S A B C} (m : ST S A) (k1 : A → ST S B) (k2 : B → ST S C) s :
  bind (bind m k1) k2 s = bind m (λ x, bind (k1 x) k2) s.
Proof. unfold bind. by destruct (m s) as [[]| |]. Qed.

Lemma bind_ext {S A B} (m : ST S A) (k k' : A → ST S B) s :
  (∀ a s', k a s' = k' a s') → bind m k s = bind m k' s.
Proof. intros H. unfold bind. by destruct (m s) as [[]| |]. Qed.

Lemma wp_proper {S A} (m m' : ST S A) s Q : m s = m' s → wp m' s Q → wp m s Q.
Proof. unfold wp. by intros ->. Qed.

Section Composite.

Context {Element : Type} {Cmp : ElementOps Element}.

Implicit Types (h : list (node Element)) (p : ptr) (t : Abs.tree Element)
  (F : gset nat) (a : nat).

Lemma get_left_sim h p t F :
  repr h p t F → Abs.is_nil t = false →
  ∃ pl Fl, node.get_left p h = Ok (pl, h) ∧ repr h pl (Abs.left t) Fl ∧ Fl ⊆ F.
Proof.
  destruct 1 as [|a c e pl pr tl tr Fl Fr Ha]; [done|]. intros _.
  exists pl, Fl. split; [exact (get_left_ok _ _ _ Ha)|]. split; [done|set_solver].
Qed.

Lemma get_right_sim h p t F :
  repr h p t F → Abs.is_nil t = false →
  ∃ pr Fr, node.get_right p h = Ok (pr, h) ∧ repr h pr (Abs.right t) Fr ∧ Fr ⊆ F.
Proof.
  destruct 1 as [|a c e pl pr tl tr Fl Fr Ha]; [done|]. intros _.
  exists pr, Fr. split; [exact (get_right_ok _ _ _ Ha)|]. split; [done|set_solver].
Qed.

Lemma isRed_not_nil t : Abs.isRed t = true → Abs.is_nil t = false.
Proof. by destruct t. Qed.

Lemma red_left_sim h p t F :
  repr h p t F → Abs.is_nil t = false →
  (let! l := node.get_left p in node.isRed l) h = Ok (Abs.isRed (Abs.left t), h).
Proof.
  intros Hr Hn. destruct (get_left_sim _ _ _ _ Hr Hn) as (pl & Fl & E & Hl & _).
  rewrite (bind_ok _ _ _ _ _ E). by eapply isRed_sim.
Qed.

Lemma red_right_sim h p t F :
  repr h p t F → Abs.is_nil t = false →
  (let! r := node.get_right p in node.isRed r) h = Ok (Abs.isRed (Abs.right t), h).
Proof.
  intros Hr Hn. destruct (get_right_sim _ _ _ _ Hr Hn) as (pl & Fl & E & Hl & _).
  rewrite (bind_ok _ _ _ _ _ E). by eapply isRed_sim.
Qed.

Lemma red_left_left_sim h p t F :
  repr h p t F → Abs.is_nil t = false → Abs.is_nil (Abs.left t) = false →
  (let! l := node.get_left p in let! ll := node.get_left l in node.isRed ll) h
  = Ok (Abs.isRed (Abs.left (Abs.left t)), h).
Proof.
  intros Hr Hn Hn'. destruct (get_left_sim _ _ _ _ Hr Hn) as (pl & Fl & E & Hl & _).
  rewrite (bind_ok _ _ _ _ _ E). by eapply red_left_sim.
Qed.

Lemma red_right_left_sim h p t F :
  repr h p t F → Abs.is_nil t = false → Abs.is_nil (Abs.right t) = false →
  (let! r := node.get_right p in let! rl := node.get_left r in node.isRed rl) h
  = Ok (Abs.isRed (Abs.left (Abs.right t)), h).
Proof.
  intros Hr Hn Hn'. destruct (get_right_sim _ _ _ _ Hr Hn) as (pl & Fl & E & Hl & _).
  rewrite (bind_ok _ _ _ _ _ E). by eapply red_left_sim.
Qed.

Lemma and_then_ok h (m1 m2 : ST (list (node Element)) bool) x y :
  m1 h = Ok (x, h) → (x = true → m2 h = Ok (y, h)) →
  node.and_then m1 m2 h = Ok (x && y, h).
Proof.
  intros E1 E2. unfold node.and_then. rewrite (bind_ok _ _ _ _ _ E1).
  destruct x; simpl; auto.
Qed.

Lemma rotateLeft_wp h p t t' F :
  repr h p t F → Abs.rotateLeft t = Some t' →
  wp (node.rotateLeft p) h (same_fp h t' F).
Proof.
  intros Hr E. destruct (rotateLeft_sim _ _ _ _ _ Hr E) as (p' & h' & ? & ? & ?).
  by exists p', h'.
Qed.

Lemma rotateRight_wp h p t t' F :
  repr h p t F → Abs.rotateRight t = Some t' →
  wp (node.rotateRight p) h (same_fp h t' F).
Proof.
  intros Hr E. destruct (rotateRight_sim _ _ _ _ _ Hr E) as (p' & h' & ? & ? & ?).
  by exists p', h'.
Qed.

Lemma flipColors_wp h p t t' F :
  repr h p t F → Abs.flipColors t = Some t' →
  wp (node.flipColors p) h (λ _ h', same_fp h t' F p h').
Proof.
  intros Hr E. destruct (flipColors_sim _ _ _ _ _ Hr E) as (h' & ? & ? & ?).
  by exists tt, h'.
Qed.

Lemma rotateLeft_not_nil t t' : Abs.rotateLeft t = Some t' → Abs.is_nil t' = false.
Proof. destruct t as [|? ? ? []]; simpl; intros; by simplify_eq. Qed.

Lemma rotateRight_not_nil t t' : Abs.rotateRight t = Some t' → Abs.is_nil t' = false.
Proof. destruct t as [|? [] ? ?]; simpl; intros; by simplify_eq. Qed.

Lemma flipColors_not_nil t t' : Abs.flipColors t = Some t' → Abs.is_nil t' = false.
Proof. destruct t as [|? [] ? []]; simpl; intros; by simplify_eq. Qed.

Lemma same_fp_trans h0 h1 t' F p' h' :
  ext h0 h1 F F → same_fp h1 t' F p' h' → same_fp h0 t' F p' h'.
Proof. intros X [R X']. split; [done|]. by eapply ext_trans. Qed.

Lemma repair_right_wp h p t t' F :
  repr h p t F → Abs.is_nil t = false →
  (if Abs.isRed (Abs.left t) && Abs.isRed (Abs.left (Abs.left t))
   then Abs.rotateRight t else Some t) = Some t' →
  wp (repair_right p) h (same_fp h t' F).
Proof.
  intros Hr Hn E. unfold repair_right. apply wp_bind.
  eapply wp_eq.
  { apply and_then_ok; [by eapply red_left_sim|]. intros Hl.
    eapply red_left_left_sim; eauto using isRed_not_nil. }
  destruct (_ && _).
  - by eapply rotateRight_wp.
  - simplify_eq. apply wp_ret. split; [done|]. by apply ext_refl.
Qed.

Lemma repair_flip_wp h p t t' F :
  repr h p t F → Abs.is_nil t = false →
  (if Abs.isRed (Abs.left t) && Abs.isRed (Abs.right t)
   then Abs.flipColors t else Some t) = Some t' →
  wp (repair_flip p) h (same_fp h t' F).
Proof.
  intros Hr Hn E. unfold repair_flip. apply wp_bind.
  eapply wp_eq.
  { apply and_then_ok; [by eapply red_left_sim|]. intros Hl.
    by eapply red_right_sim. }
  apply wp_bind. destruct (_ && _).
  - eapply wp_mono; [by eapply flipColors_wp|]. intros [] h' HQ. by apply wp_ret.
  - simplify_eq. apply wp_ret, wp_ret. split; [done|]. by apply ext_refl.
Qed.

Lemma repair_tail_wp h p t t1 t' F :
  repr h p t F → Abs.is_nil t = false →
  (if Abs.isRed (Abs.left t) && Abs.isRed (Abs.left (Abs.left t))
   then Abs.rotateRight t else Some t) = Some t1 →
  (if Abs.isRed (Abs.left t1) && Abs.isRed (Abs.right t1)
   then Abs.flipColors t1 else Some t1) = Some t' →
  wp (let! n := repair_right p in repair_flip n) h (same_fp h t' F).
Proof.
  intros Hr Hn E1 E2. apply wp_bind.
  eapply wp_mono; [by eapply repair_right_wp|]. intros p1 h1 [R1 X1].
  assert (Abs.is_nil t1 = false).
  { destruct (_ && _); [by eapply rotateRight_not_nil|by simplify_eq]. }
  eapply wp_mono; [by eapply repair_flip_wp|]. intros p2 h2 HQ.
  by eapply same_fp_trans.
Qed.

Lemma fixUp_wp h p t t' F :
  repr h p t F → Abs.fixUp t = Some t' →
  wp (node.fixUp p) h (same_fp h t' F).
Proof.
  intros Hr E. unfold Abs.fixUp in E.
  destruct (Abs.is_nil t) eqn:Hn; [done|].
  apply (wp_proper _
    (let! yes := (let! r := node.get_right p in node.isRed r) in
     let! n := (if yes then node.rotateLeft p else ret p) in
     let! n := repair_right n in repair_flip n)).
  { unfold node.fixUp. apply bind_ext; intros x1 s1. apply bind_ext; intros n1 s2.
    unfold repair_right. by rewrite bind_assoc. }
  apply wp_bind. eapply wp_eq; [by eapply red_right_sim|].
  apply wp_bind.
  destruct (Abs.isRed (Abs.right t)).
  - destruct (Abs.rotateLeft t) as [t1|] eqn:E1; [|done]. simpl in E.
    eapply wp_mono; [by eapply rotateLeft_wp|]. intros p1 h1 [R1 X1].
    destruct (if _ && _ then _ else _) as [t2|] eqn:E2 in E; [|done]. simpl in E.
    eapply wp_mono.
    { eapply repair_tail_wp; eauto using rotateLeft_not_nil. }
    intros p2 h2 HQ. by eapply same_fp_trans.
  - simpl in E. apply wp_ret.
    destruct (if _ && _ then _ else _) as [t2|] eqn:E2 in E; [|done]. simpl in E.
    eapply repair_tail_wp; eauto.
Qed.

(** Writing back a child that a call has replaced. *)
Lemma set_right_frame h h1 a c e pl pr l Fl Fr pr' r' Fr' :
  h !! a = Some (mkNode (Some e) pr pl c) → repr h pl l Fl →
  a ∉ Fl → a ∉ Fr → Fl ## Fr →
  ext h h1 Fr Fr' → repr h1 pr' r' Fr' →
  wp (node.set_right (Some a) pr') h1 (λ _ h',
    repr h' (Some a) (Abs.Node c l e r') ({[a]} ∪ Fl ∪ Fr')
    ∧ ext h h' ({[a]} ∪ Fl ∪ Fr) ({[a]} ∪ Fl ∪ Fr')).
Proof.
  intros Ha Hl ? ? ? X Hr'.
  destruct (ext_lookup _ _ _ _ _ _ X Ha ltac:(done)) as [Ha1 ?].
  destruct (ext_repr _ _ _ _ _ _ _ X Hl ltac:(done)) as [Hl1 ?].
  eapply wp_eq; [by eapply set_right_ok|].
  unfold with_right; simpl. split.
  - eapply repr_node; eauto with heap.
  - eapply ext_trans with (F1 := {[a]} ∪ Fl ∪ Fr').
    + eapply ext_weaken; [exact X|set_solver|set_solver].
    + apply ext_upd; [apply ext_refl; set_solver|set_solver].
Qed.

Lemma set_left_frame h h1 a c e pl pr r Fl Fr pl' l' Fl' :
  h !! a = Some (mkNode (Some e) pr pl c) → repr h pr r Fr →
  a ∉ Fl → a ∉ Fr → Fl ## Fr →
  ext h h1 Fl Fl' → repr h1 pl' l' Fl' →
  wp (node.set_left (Some a) pl') h1 (λ _ h',
    repr h' (Some a) (Abs.Node c l' e r) ({[a]} ∪ Fl' ∪ Fr)
    ∧ ext h h' ({[a]} ∪ Fl ∪ Fr) ({[a]} ∪ Fl' ∪ Fr)).
Proof.
  intros Ha Hr ? ? ? X Hl'.
  destruct (ext_lookup _ _ _ _ _ _ X Ha ltac:(done)) as [Ha1 ?].
  destruct (ext_repr _ _ _ _ _ _ _ X Hr ltac:(done)) as [Hr1 ?].
  eapply wp_eq; [by eapply set_left_ok|].
  unfold with_left; simpl. split.
  - eapply repr_node; eauto with heap.
  - eapply ext_trans with (F1 := {[a]} ∪ Fl' ∪ Fr).
    + eapply ext_weaken; [exact X|set_solver|set_solver].
    + apply ext_upd; [apply ext_refl; set_solver|set_solver].
Qed.

Lemma moveRedLeft_wp h p t t' F :
  repr h p t F → Abs.moveRedLeft t = Some t' →
  wp (node.moveRedLeft p) h (same_fp h t' F).
Proof.
  intros Hr E. unfold Abs.moveRedLeft in E.
  destruct (Abs.flipColors t) as [t1|] eqn:E1; [|done]. simpl in E.
  unfold node.moveRedLeft. apply wp_bind.
  eapply wp_mono; [by eapply flipColors_wp|]. intros [] h1 [R1 X1].
  assert (∃ c l e rc rl re rr, t1 = Abs.Node c l e (Abs.Node rc rl re rr))
    as (c & l & e & rc & rl & re & rr & ->).
  { destruct t as [|? [] ? []]; simplify_eq/=. naive_solver. }
  apply wp_bind. eapply wp_eq; [by eapply red_right_left_sim|].
  simpl in *. destruct (Abs.isRed rl) eqn:Hrl.
  - destruct rl as [|rlc rll rle rlr]; [done|]. simpl in E.
    apply repr_node_inv in R1 as (a & pl & pr & Fl & Fr & -> & -> & Ha & Hl & Hr1 & ? & ? & ?).
    apply wp_bind. eapply wp_eq; [by eapply get_right_ok|]. simpl.
    apply wp_bind. eapply wp_mono; [by eapply rotateRight_wp|].
    intros pr' h2 [R2 X2]. apply wp_bind.
    eapply wp_mono; [by eapply set_right_frame|]. intros [] h3 [R3 X3].
    apply wp_bind. eapply wp_mono; [by eapply rotateLeft_wp|].
    intros p4 h4 [R4 X4]. apply wp_bind.
    eapply wp_mono; [eapply flipColors_wp; [exact R4|done]|].
    intros [] h5 [R5 X5]. apply wp_ret. simplify_eq. split; [done|].
    eauto using ext_trans.
  - simplify_eq. apply wp_ret. done.
Qed.

Lemma moveRedRight_wp h p t t' F :
  repr h p t F → Abs.moveRedRight t = Some t' →
  wp (node.moveRedRight p) h (same_fp h t' F).
Proof.
  intros Hr E. unfold Abs.moveRedRight in E.
  destruct (Abs.flipColors t) as [t1|] eqn:E1; [|done]. simpl in E.
  unfold node.moveRedRight. apply wp_bind.
  eapply wp_mono; [by eapply flipColors_wp|]. intros [] h1 [R1 X1].
  pose proof (flipColors_not_nil _ _ E1) as Hn1.
  assert (Abs.is_nil (Abs.left t1) = false) as Hn2.
  { destruct t as [|? [] ? []]; by simplify_eq/=. }
  apply wp_bind. eapply wp_eq; [by eapply red_left_left_sim|].
  destruct (Abs.isRed (Abs.left (Abs.left t1))).
  - destruct (Abs.rotateRight t1) as [t2|] eqn:E2; [|done]. simpl in E.
    apply wp_bind. eapply wp_mono; [by eapply rotateRight_wp|].
    intros p2 h2 [R2 X2]. apply wp_bind.
    eapply wp_mono; [by eapply flipColors_wp|].
    intros [] h3 [R3 X3]. apply wp_ret. split; [done|].
    eauto using ext_trans.
  - simplify_eq. apply wp_ret. done.
Qed.

End Composite.

Section Recursive.

Context {Element : Type} {Cmp : ElementOps Element}.

Implicit Types (h : list (node Element)) (p : ptr) (t : Abs.tree Element)
  (F : gset nat) (a : nat).

Lemma not_red_sim h p t F :
  repr h p t F →
  (let! x := node.isRed p in ret (negb x)) h = Ok (negb (Abs.isRed t), h).
Proof. intros Hr. by rewrite (bind_ok _ _ _ _ _ (isRed_sim _ _ _ _ Hr)). Qed.

Lemma not_red_left_sim h p t F :
  repr h p t F → Abs.is_nil t = false →
  (let! l := node.get_left p in let! x := node.isRed l in ret (negb x)) h
  = Ok (negb (Abs.isRed (Abs.left t)), h).
Proof.
  intros Hr Hn. destruct (get_left_sim _ _ _ _ Hr Hn) as (pl & Fl & E & Hl & _).
  rewrite (bind_ok _ _ _ _ _ E). by eapply not_red_sim.
Qed.

Lemma deleteMin_wp fuel : ∀ h p t F t' m,
  repr h p t F → Abs.deleteMin fuel t = Some (t', m) →
  wp (node.deleteMin fuel p) h (tree_post h t' m F).
Proof.
  induction fuel as [|fuel IH]; intros h p t F t' m Hr E; [done|].
  destruct t as [|c l e r]; [done|].
  pose proof Hr as Hr0.
  apply repr_node_inv in Hr0 as (a & pl & pr & Fl & Fr & -> & -> & Ha & Hl & Hr1 & ? & ? & ?).
  cbn [node.deleteMin]. apply wp_bind. eapply wp_eq; [by eapply get_left_ok|].
  cbn [left].
  destruct l as [|lc ll le lr].
  { apply repr_nil_inv in Hl as [-> ->]. simpl in E. simplify_eq.
    apply wp_ret. split; [done|]. exists ∅. split; [constructor|].
    apply ext_refl. set_solver. }
  pose proof Hl as Hl0.
  apply repr_node_inv in Hl0 as (b & ? & ? & ? & ? & -> & _).
  cbn [Abs.deleteMin] in E.
  apply wp_bind. eapply wp_eq.
  { apply and_then_ok; [by eapply not_red_sim|]. intros _.
    by eapply not_red_left_sim. }
  destruct (if _ && _ then _ else _) as [t1|] eqn:E1 in E; [|done]. simpl in E.
  destruct (Abs.deleteMin fuel (Abs.left t1)) as [[l' m']|] eqn:E2; [|done].
  simpl in E.
  destruct (Abs.set_left t1 l') as [t2|] eqn:E3; [|done]. simpl in E.
  destruct (Abs.fixUp t2) as [t3|] eqn:E4; [|done]. simpl in E. simplify_eq.
  apply wp_bind.
  assert (wp (if negb (Abs.isRed (Abs.Node lc ll le lr))
                 && negb (Abs.isRed (Abs.left (Abs.Node lc ll le lr)))
              then node.moveRedLeft (Some a) else ret (Some a)) h
             (same_fp h t1 ({[a]} ∪ Fl ∪ Fr))) as W.
  { destruct (_ && _).
    - by eapply moveRedLeft_wp.
    - simplify_eq. apply wp_ret. split; [done|]. apply ext_refl. set_solver. }
  eapply wp_mono; [exact W|]. clear W. intros p1 h1 [R1 X1].
  destruct t1 as [|c1 l1 e1 r1]; [discriminate E3|].
  apply repr_node_inv in R1 as (a1 & pl1 & pr1 & Fl1 & Fr1 & -> & HF & Ha1 & Hl1 & Hr1' & ? & ? & ?).
  apply wp_bind. eapply wp_eq; [by eapply get_left_ok|]. cbn [left].
  apply wp_bind. eapply wp_mono; [by eapply IH|].
  intros [pl' m''] h2 [Hm (Fl' & Rl' & Xl')]. simpl in Hm, Rl'. subst m''.
  apply wp_bind. eapply wp_mono;
    [eapply (set_left_frame h1 h2 a1 c1 e1 pl1 pr1 r1 Fl1 Fr1 pl' l' Fl'); eassumption|].
  intros [] h3 [R3 X3]. simpl in E3. simplify_eq.
  apply wp_bind. eapply wp_mono; [by eapply fixUp_wp|].
  intros p4 h4 [R4 X4]. apply wp_ret. split; [done|].
  eexists. split; [exact R4|]. simpl.
  eapply ext_trans; [exact X1|]. rewrite HF.
  eapply ext_trans; [exact X3|]. done.
Qed.

Lemma repr_Some h a t F : repr h (Some a) t F → Abs.is_nil t = false.
Proof. by inversion 1. Qed.

Lemma is_nil_repr h p t F : repr h p t F → Abs.is_nil t = bool_decide (p = None).
Proof. by destruct 1. Qed.

Lemma deleteMax_wp fuel : ∀ h p t F t' m,
  repr h p t F → Abs.deleteMax fuel t = Some (t', m) →
  wp (node.deleteMax fuel p) h (tree_post h t' m F).
Proof.
  induction fuel as [|fuel IH]; intros h p t F t' m Hr E; [done|].
  cbn [Abs.deleteMax] in E.
  destruct (Abs.is_nil t) eqn:Hn; [done|].
  destruct (if Abs.isRed (Abs.left t) then _ else _) as [t1|] eqn:E1 in E; [|done].
  simpl in E.
  cbn [node.deleteMax]. apply wp_bind.
  destruct (get_left_sim _ _ _ _ Hr Hn) as (pl & Fl & El & Hl & _).
  eapply wp_eq; [exact El|].
  apply wp_bind. eapply (wp_eq _ _ (Abs.isRed (Abs.left t)) h).
  { destruct pl; [by eapply isRed_sim|].
    apply repr_None in Hl as [-> _]. done. }
  apply wp_bind.
  assert (wp (if Abs.isRed (Abs.left t) then node.rotateRight p else ret p) h
             (same_fp h t1 F)) as W.
  { destruct (Abs.isRed (Abs.left t)).
    - by eapply rotateRight_wp.
    - simplify_eq. apply wp_ret. split; [done|]. by apply ext_refl. }
  eapply wp_mono; [exact W|]. clear W. intros p1 h1 [R1 X1].
  assert (Abs.is_nil t1 = false) as Hn1.
  { destruct (Abs.isRed (Abs.left t)); [by eapply rotateRight_not_nil|by simplify_eq]. }
  destruct (get_right_sim _ _ _ _ R1 Hn1) as (pr & Fr & Er & Hr1 & _).
  apply wp_bind. eapply wp_eq; [exact Er|].
  rewrite (is_nil_repr _ _ _ _ Hr1) in E.
  destruct pr as [b|]; simpl in E.
  2:{ simplify_eq. apply wp_ret. split; [done|]. exists ∅. split; [constructor|].
      eapply ext_weaken; [exact X1|done|set_solver]. }
  destruct (if _ && _ then _ else _) as [t2|] eqn:E2 in E; [|done]. simpl in E.
  destruct (Abs.deleteMax fuel (Abs.right t2)) as [[r' m']|] eqn:E3; [|done].
  simpl in E.
  destruct (Abs.set_right t2 r') as [t3|] eqn:E4; [|done]. simpl in E.
  destruct (Abs.fixUp t3) as [t4|] eqn:E5; [|done]. simpl in E. simplify_eq.
  apply wp_bind. eapply wp_eq.
  { apply and_then_ok; [by eapply not_red_sim|]. intros _.
    eapply not_red_left_sim; [done|].
    rewrite (is_nil_repr _ _ _ _ Hr1). done. }
  apply wp_bind.
  assert (wp (if negb (Abs.isRed (Abs.right t1))
                 && negb (Abs.isRed (Abs.left (Abs.right t1)))
              then node.moveRedRight p1 else ret p1) h1
             (same_fp h1 t2 F)) as W.
  { destruct (_ && _).
    - by eapply moveRedRight_wp.
    - simplify_eq. apply wp_ret. split; [done|]. by apply ext_refl. }
  eapply wp_mono; [exact W|]. clear W. intros p2 h2 [R2 X2].
  destruct t2 as [|c2 l2 e2 r2]; [discriminate E4|].
  apply repr_node_inv in R2 as (a2 & pl2 & pr2 & Fl2 & Fr2 & -> & HF & Ha2 & Hl2 & Hr2 & ? & ? & ?).
  apply wp_bind. eapply wp_eq; [by eapply get_right_ok|]. cbn [right].
  apply wp_bind. eapply wp_mono; [by eapply IH|].
  intros [pr' m''] h3 [Hm (Fr' & Rr' & Xr')]. simpl in Hm, Rr'. subst m''.
  apply wp_bind. eapply wp_mono;
    [eapply (set_right_frame h2 h3 a2 c2 e2 pl2 pr2 l2 Fl2 Fr2 pr' r' Fr'); eassumption|].
  intros [] h4 [R4 X4]. simpl in E4. simplify_eq.
  apply wp_bind. eapply wp_mono; [by eapply fixUp_wp|].
  intros p5 h5 [R5 X5]. apply wp_ret. split; [done|].
  eexists. split; [exact R5|]. simpl.
  eapply ext_trans; [exact X1|]. eapply ext_trans; [exact X2|].
  eapply ext_trans; [exact X4|]. done.
Qed.

(** Allocation. *)
Lemma ext_new h (c : node Element) F :
  ext h (h ++ [c]) F ({[length h]} ∪ F).
Proof.
  repeat split.
  - rewrite length_app. simpl. lia.
  - intros b Hb _. by apply lookup_app_l.
  - intros b Hb. apply elem_of_union in Hb as [Hb|Hb]; [|by left].
    apply elem_of_singleton in Hb as ->. by right.
Qed.

Lemma repr_new h (c : node Element) p t F :
  repr h p t F → repr (h ++ [c]) p t F ∧ length h ∉ F.
Proof.
  intros Hr. pose proof (repr_dom _ _ _ _ Hr) as Hd. split.
  - eapply repr_frame; [done|]. intros b Hb. apply lookup_app_l. by apply Hd.
  - intros Hb. specialize (Hd _ Hb). lia.
Qed.

Lemma lookup_new h (c : node Element) : (h ++ [c]) !! length h = Some c.
Proof. by apply list_lookup_middle. Qed.

Lemma copy_wp h p c l e r F :
  repr h p (Abs.Node c l e r) F →
  wp (node.copy p) h (λ p' h',
    ∃ F', repr h' p' (Abs.Node c l e r) F' ∧ ext h h' F F').
Proof.
  intros Hr.
  apply repr_node_inv in Hr as (a & pl & pr & Fl & Fr & -> & -> & Ha & Hl & Hr & ? & ? & ?).
  unfold node.copy. apply wp_bind. eapply wp_eq; [by eapply load_ok|].
  eapply wp_eq; [reflexivity|]. simpl.
  set (c0 := {| elem := Some e; right := pr; left := pl; color := c |}).
  destruct (repr_new h c0 _ _ _ Hl) as [Hl' ?].
  destruct (repr_new h c0 _ _ _ Hr) as [Hr' ?].
  exists ({[length h]} ∪ Fl ∪ Fr). split.
  - eapply repr_node; eauto using lookup_new.
  - eapply ext_weaken; [apply (ext_new h c0 ({[a]} ∪ Fl ∪ Fr))|done|set_solver].
Qed.

Lemma set_elem_wp h p c l e r F x :
  repr h p (Abs.Node c l e r) F →
  wp (node.set_elem p (Some x)) h (λ _ h', same_fp h (Abs.Node c l x r) F p h').
Proof.
  intros Hr.
  apply repr_node_inv in Hr as (a & pl & pr & Fl & Fr & -> & -> & Ha & Hl & Hr & ? & ? & ?).
  eapply wp_eq; [by eapply set_elem_ok|]. unfold with_elem; simpl. split.
  - eapply repr_node; eauto with heap.
  - apply ext_upd; [apply ext_refl|]; set_solver.
Qed.

Lemma insert_tail_wp h p t t' F m :
  repr h p t F → Abs.is_nil t = false → Abs.insert_repair t = Some t' →
  wp (insert_tail p m) h (λ res h', res.2 = m ∧ same_fp h t' F res.1 h').
Proof.
  intros Hr Hn E. unfold Abs.insert_repair in E.
  destruct (if Abs.isRed (Abs.right t) && _ then _ else _) as [t1|] eqn:E1 in E; [|done].
  simpl in E.
  destruct (if Abs.isRed (Abs.left t1) && _ then _ else _) as [t2|] eqn:E2 in E; [|done].
  simpl in E.
  unfold insert_tail. apply wp_bind.
  assert (wp (repair_left_strict p) h (same_fp h t1 F)) as W.
  { unfold repair_left_strict. apply wp_bind. eapply wp_eq.
    { apply and_then_ok; [by eapply red_right_sim|]. intros _.
      by eapply not_red_left_sim. }
    destruct (_ && _).
    - by eapply rotateLeft_wp.
    - simplify_eq. apply wp_ret. split; [done|]. by apply ext_refl. }
  eapply wp_mono; [exact W|]. clear W. intros p1 h1 [R1 X1].
  assert (Abs.is_nil t1 = false) as Hn1.
  { destruct (_ && _) in E1; [by eapply rotateLeft_not_nil|by simplify_eq]. }
  apply wp_bind. eapply wp_mono; [by eapply repair_right_wp|].
  intros p2 h2 [R2 X2].
  assert (Abs.is_nil t2 = false) as Hn2.
  { destruct (_ && _) in E2; [by eapply rotateRight_not_nil|by simplify_eq]. }
  apply wp_bind. eapply wp_mono; [by eapply repair_flip_wp|].
  intros p3 h3 [R3 X3]. apply wp_ret. split; [done|]. split; [done|].
  eauto using ext_trans.
Qed.

Lemma insert_unfold fuel a (e : option Element) h :
  let n := Some a in
  node.insert (S fuel) n e h =
    (let! ne := node.get_elem n in
     match ne with
     | None => node.set_elem n e ;; ret (n, 1)
     | Some _ =>
       let! root := node.copy n in
       let! re := node.get_elem root in
       let! cmp := node.compare e re in
       let! m :=
         (if cmp =? 0 then node.set_elem root e ;; ret 0
          else if cmp <? 0 then
            let! l := node.get_left root in
            let! (l', m) := node.insert fuel l e in
            node.set_left root l' ;; ret m
          else
            let! r := node.get_right root in
            let! (r', m) := node.insert fuel r e in
            node.set_right root r' ;; ret m) in
       insert_tail root m
     end) h.
Proof.
  intros n. cbn [node.insert].
  apply bind_ext; intros ne s1. destruct ne; [|done].
  apply bind_ext; intros root s2. apply bind_ext; intros re s3.
  apply bind_ext; intros cmp s4. apply bind_ext; intros m s5.
  unfold insert_tail, repair_left_strict, repair_right, repair_flip.
  rewrite !bind_assoc. apply bind_ext; intros b1 s6.
  apply bind_ext; intros r1 s7. rewrite !bind_assoc.
  apply bind_ext; intros b2 s8. apply bind_ext; intros r2 s9.
  rewrite !bind_assoc. apply bind_ext; intros b3 s10.
  rewrite !bind_assoc. apply bind_ext; intros [] s11. done.
Qed.

Lemma insert_wp x : ∀ t fuel h p F t' m,
  (Abs.height t < fuel)%nat →
  repr h p t F → Abs.insert x t = Some (t', m) →
  wp (node.insert fuel p (Some x)) h (tree_post h t' m F).
Proof.
  induction t as [|c l IHl e r IHr]; intros fuel h p F t' m Hf Hr E;
    (destruct fuel as [|fuel]; [simpl in Hf; lia|]).
  - apply repr_nil_inv in Hr as [-> ->]. simpl in E. simplify_eq.
    cbn [node.insert]. apply wp_bind. eapply wp_eq; [reflexivity|]. apply wp_ret.
    split; [done|]. exists ({[length h]} ∪ ∅ ∪ ∅). simpl. split.
    + eapply repr_node; [apply lookup_new|constructor|constructor|set_solver..].
    + eapply ext_weaken; [apply (ext_new h _ ∅)|done|set_solver].
  - pose proof Hr as Hr0.
    apply repr_node_inv in Hr0 as (a & pl & pr & Fl & Fr & -> & -> & Ha & _).
    eapply wp_proper; [apply insert_unfold|].
    apply wp_bind. eapply wp_eq; [by eapply get_elem_ok|]. cbn [elem].
    apply wp_bind. eapply wp_mono; [by eapply copy_wp|].
    intros p1 h1 (F1 & R1 & X1).
    pose proof R1 as R1'.
    apply repr_node_inv in R1' as (a1 & pl1 & pr1 & Fl1 & Fr1 & -> & -> & Ha1 & Hl1 & Hr1 & ? & ? & ?).
    apply wp_bind. eapply wp_eq; [by eapply get_elem_ok|]. cbn [elem].
    apply wp_bind. eapply wp_eq; [reflexivity|].
    cbn [Abs.insert] in E. simpl in Hf.
    destruct (if Compare x e =? 0 then _ else _) as [[t1 m1]|] eqn:E1 in E; [|done].
    simpl in E.
    destruct (Abs.insert_repair t1) as [t2|] eqn:E2; [|done]. simpl in E.
    simplify_eq.
    apply wp_bind.
    assert (wp (if Compare x e =? 0 then node.set_elem (Some a1) (Some x);; ret 0
                else if Compare x e <? 0 then
                  let! l0 := node.get_left (Some a1) in
                  let! (l', m) := node.insert fuel l0 (Some x) in
                  node.set_left (Some a1) l';; ret m
                else
                  let! r0 := node.get_right (Some a1) in
                  let! (r', m) := node.insert fuel r0 (Some x) in
                  node.set_right (Some a1) r';; ret m) h1
              (λ m' h', m' = m ∧ Abs.is_nil t1 = false ∧ ∃ F',
                 repr h' (Some a1) t1 F'
                 ∧ ext h1 h' ({[a1]} ∪ Fl1 ∪ Fr1) F')) as W.
    { destruct (Compare x e =? 0).
      - simplify_eq. apply wp_bind.
        eapply wp_mono; [by eapply set_elem_wp|]. intros [] h2 [R2 X2].
        apply wp_ret. split; [done|]. split; [done|]. eauto.
      - destruct (Compare x e <? 0).
        + destruct (Abs.insert x l) as [[l' m']|] eqn:El; [|done].
          simpl in E1. simplify_eq.
          apply wp_bind. eapply wp_eq; [by eapply get_left_ok|]. cbn [left].
          apply wp_bind. eapply wp_mono; [eapply (IHl fuel); [lia|done..]|].
          intros [pl' m''] h2 [Hm (Fl' & Rl' & Xl')]. simpl in Hm, Rl'. subst m''.
          apply wp_bind. eapply wp_mono;
            [eapply (set_left_frame h1 h2 a1 c e pl1 pr1 r Fl1 Fr1 pl' l' Fl'); eassumption|].
          intros [] h3 [R3 X3]. apply wp_ret. split; [done|]. split; [done|]. eauto.
        + destruct (Abs.insert x r) as [[r' m']|] eqn:Er; [|done].
          simpl in E1. simplify_eq.
          apply wp_bind. eapply wp_eq; [by eapply get_right_ok|]. cbn [right].
          apply wp_bind. eapply wp_mono; [eapply (IHr fuel); [lia|done..]|].
          intros [pr' m''] h2 [Hm (Fr' & Rr' & Xr')]. simpl in Hm, Rr'. subst m''.
          apply wp_bind. eapply wp_mono;
            [eapply (set_right_frame h1 h2 a1 c e pl1 pr1 l Fl1 Fr1 pr' r' Fr'); eassumption|].
          intros [] h3 [R3 X3]. apply wp_ret. split; [done|]. split; [done|]. eauto. }
    eapply wp_mono; [exact W|]. clear W.
    intros m' h2 (-> & Hn1 & F2 & R2 & X2).
    eapply wp_mono; [by eapply insert_tail_wp|].
    intros [p3 m3] h3 [Hm [R3 X3]]. simpl in *. subst m3. split; [done|].
    exists F2. split; [done|]. eauto using ext_trans.
Qed.

Lemma height_le_count t : (Abs.height t ≤ Abs.count t)%nat.
Proof. induction t; simpl; lia. Qed.

Lemma count_rotateLeft t t' : Abs.rotateLeft t = Some t' → Abs.count t' = Abs.count t.
Proof. destruct t as [|? ? ? []]; simpl; intros; simplify_eq; simpl; lia. Qed.

Lemma count_rotateRight t t' : Abs.rotateRight t = Some t' → Abs.count t' = Abs.count t.
Proof. destruct t as [|? [] ? ?]; simpl; intros; simplify_eq; simpl; lia. Qed.

Lemma count_flipColors t t' : Abs.flipColors t = Some t' → Abs.count t' = Abs.count t.
Proof. destruct t as [|? [] ? []]; simpl; intros; simplify_eq; simpl; lia. Qed.

Lemma count_moveRedLeft t t' : Abs.moveRedLeft t = Some t' → Abs.count t' = Abs.count t.
Proof.
  unfold Abs.moveRedLeft. intros E.
  destruct (Abs.flipColors t) as [t1|] eqn:E1; [|done]. simpl in E.
  apply count_flipColors in E1. rewrite <- E1. clear E1.
  destruct (Abs.isRed _); [|by simplify_eq].
  destruct t1 as [|c l e r]; [done|]. cbn [Abs.right Abs.set_right] in E.
  destruct (Abs.rotateRight r) as [r'|] eqn:E2; [|done]. cbn [mbind option_bind] in E.
  apply count_rotateRight in E2.
  destruct (Abs.rotateLeft (Abs.Node c l e r')) as [t3|] eqn:E3; [|done].
  cbn [mbind option_bind] in E.
  apply count_rotateLeft in E3. apply count_flipColors in E. simpl in *. lia.
Qed.

Lemma count_moveRedRight t t' : Abs.moveRedRight t = Some t' → Abs.count t' = Abs.count t.
Proof.
  unfold Abs.moveRedRight. intros E.
  destruct (Abs.flipColors t) as [t1|] eqn:E1; [|done]. simpl in E.
  apply count_flipColors in E1. rewrite <- E1. clear E1.
  destruct (Abs.isRed _); [|by simplify_eq].
  destruct (Abs.rotateRight t1) as [t2|] eqn:E2; [|done]. simpl in E.
  apply count_rotateRight in E2. apply count_flipColors in E. lia.
Qed.

Lemma min_sim : ∀ t fuel h p F e,
  (Abs.height t < fuel)%nat → repr h p t F → Abs.min t = Some e →
  (let! mn := node.min fuel p in node.get_elem mn) h = Ok (Some e, h).
Proof.
  induction t as [|c l IHl e r _]; intros fuel h p F e0 Hf Hr E; [done|].
  destruct fuel as [|fuel]; [simpl in Hf; lia|].
  apply repr_node_inv in Hr as (a & pl & pr & Fl & Fr & -> & -> & Ha & Hl & Hr & ? & ? & ?).
  cbn [node.min]. rewrite bind_assoc.
  rewrite (bind_ok _ _ _ _ _ (get_left_ok _ _ _ Ha)). cbn [left].
  destruct l as [|lc ll le lr].
  - apply repr_nil_inv in Hl as [-> ->]. simpl in E. simplify_eq.
    exact (get_elem_ok _ _ _ Ha).
  - pose proof Hl as Hl0.
    apply repr_node_inv in Hl0 as (b & ? & ? & ? & ? & -> & _).
    eapply IHl; [simpl in *; lia|done|done].
Qed.

End Recursive.

Ltac asimpl H :=
  cbn [Abs.left Abs.right Abs.is_nil Abs.elem_of Abs.set_left Abs.set_right
       Abs.set_elem mbind option_bind negb andb bool_decide decide_rel] in H.

Section Delete.

Context {Element : Type} {Cmp : ElementOps Element}.

Implicit Types (h : list (node Element)) (p : ptr) (t : Abs.tree Element)
  (F : gset nat) (a : nat).

Lemma delete_wp x fuel : ∀ h p t F t' m,
  (Abs.count t < fuel)%nat →
  repr h p t F → Abs.delete fuel x t = Some (t', m) →
  wp (node.delete fuel p (Some x)) h (tree_post h t' m F).
Proof.
  induction fuel as [|fuel IH]; intros h p t F t' m Hc Hr E; [done|].
  destruct t as [|c l e r]; [done|].
  cbn [node.delete]. apply wp_bind.
  eapply wp_mono; [by eapply copy_wp|]. intros p1 h1 (F1 & R1 & X1).
  pose proof R1 as R1'.
  apply repr_node_inv in R1' as (a1 & pl1 & pr1 & Fl1 & Fr1 & -> & -> & Ha1 & Hl1 & Hr1 & ? & ? & ?).
  apply wp_bind. eapply wp_eq; [by eapply get_elem_ok|]. cbn [elem].
  apply wp_bind. eapply wp_eq; [reflexivity|].
  cbn [Abs.delete] in E.
  destruct (if Compare x e <? 0 then _ else _) as [o|] eqn:Eo in E; [|done].
  cbn [mbind option_bind] in E.
  apply wp_bind.
  eapply (wp_mono _ _ (out_post h1 ({[a1]} ∪ Fl1 ∪ Fr1) o)).
  2:{ intros out h2 HQ.
      destruct o as [[t2 m2]|[t2 m2]], out as [[p2 m2']|[p2 m2']]; try done.
      - destruct HQ as [Hm (F2 & R2 & X2)]. simpl in Hm, R2. subst m2'.
        destruct (Abs.fixUp t2) as [t3|] eqn:E3; [|done]. simpl in E. simplify_eq.
        apply wp_bind. eapply wp_mono; [by eapply fixUp_wp|].
        intros p3 h3 [R3 X3]. apply wp_ret. split; [done|].
        exists F2. split; [done|]. simpl. eauto using ext_trans.
      - destruct HQ as [Hm (F2 & R2 & X2)]. simpl in Hm, R2. subst m2'. simplify_eq.
        apply wp_ret. split; [done|]. exists F2. split; [done|]. simpl.
        eauto using ext_trans. }
  simpl in Hc.
  destruct (Compare x e <? 0).
  - (* descend to the left *)
    apply wp_bind. eapply wp_eq; [by eapply get_left_ok|]. cbn [left].
    asimpl Eo.
    destruct pl1 as [b|].
    2:{ apply repr_None in Hl1 as [-> ->]. asimpl Eo. simplify_eq. apply wp_ret.
        unfold out_post, tree_post. simpl. split; [done|].
        eexists. split; [exact R1|]. by apply ext_refl. }
    rewrite (repr_Some _ _ _ _ Hl1) in Eo.
    destruct (if _ && _ then _ else _) as [t1|] eqn:E1 in Eo; [|done]. asimpl Eo.
    destruct (Abs.delete fuel x (Abs.left t1)) as [[l' m']|] eqn:E2; [|done].
    asimpl Eo.
    destruct (Abs.set_left t1 l') as [t2|] eqn:E3; [|done]. asimpl Eo. simplify_eq.
    pose proof (repr_Some _ _ _ _ Hl1) as Hnl.
    apply wp_bind. eapply wp_eq.
    { apply and_then_ok; [by eapply not_red_sim|]. intros _.
      by eapply not_red_left_sim. }
    apply wp_bind.
    assert (wp (if negb (Abs.isRed l) && negb (Abs.isRed (Abs.left l))
                then node.moveRedLeft (Some a1) else ret (Some a1)) h1
               (same_fp h1 t1 ({[a1]} ∪ Fl1 ∪ Fr1))
            ∧ Abs.count t1 = Abs.count (Abs.Node c l e r)) as [W Hc1].
    { destruct (_ && _).
      - split; [by eapply moveRedLeft_wp|by eapply count_moveRedLeft].
      - simplify_eq. split; [|done]. apply wp_ret. split; [done|]. by apply ext_refl. }
    eapply wp_mono; [exact W|]. clear W. intros p2 h2 [R2 X2].
    destruct t1 as [|c1 l1 e1 r1]; [discriminate E3|].
    apply repr_node_inv in R2 as (a2 & pl2 & pr2 & Fl2 & Fr2 & -> & HF & Ha2 & Hl2 & Hr2 & ? & ? & ?).
    apply wp_bind. eapply wp_eq; [by eapply get_left_ok|]. cbn [left].
    apply wp_bind. eapply wp_mono; [eapply IH; [|done..]; simpl in *; lia|].
    intros [pl' m''] h3 [Hm (Fl' & Rl' & Xl')]. simpl in Hm, Rl'. subst m''.
    apply wp_bind. eapply wp_mono;
      [eapply (set_left_frame h2 h3 a2 c1 e1 pl2 pr2 r1 Fl2 Fr2 pl' l' Fl'); eassumption|].
    intros [] h4 [R4 X4]. asimpl E3. simplify_eq. apply wp_ret.
    unfold out_post, tree_post. simpl. split; [done|]. eexists. split; [exact R4|]. simpl.
    eapply ext_trans; [exact X2|]. rewrite HF. done.
  - (* the element is here or to the right *)
    destruct (if Abs.isRed _ then _ else _) as [t1|] eqn:E1 in Eo; [|done].
    asimpl Eo.
    apply wp_bind. eapply wp_eq; [by eapply red_left_sim|]. cbn [Abs.left].
    apply wp_bind.
    assert (wp (if Abs.isRed l then node.rotateRight (Some a1) else ret (Some a1)) h1
               (same_fp h1 t1 ({[a1]} ∪ Fl1 ∪ Fr1))
            ∧ Abs.count t1 = Abs.count (Abs.Node c l e r)) as [W Hc1].
    { asimpl E1. destruct (Abs.isRed l).
      - split; [by eapply rotateRight_wp|by eapply count_rotateRight].
      - simplify_eq. split; [|done]. apply wp_ret. split; [done|]. by apply ext_refl. }
    eapply wp_mono; [exact W|]. clear W. intros p2 h2 [R2 X2].
    destruct t1 as [|c1 l1 e1 r1]; [done|]. asimpl Eo.
    pose proof R2 as R2'.
    apply repr_node_inv in R2' as (a2 & pl2 & pr2 & Fl2 & Fr2 & -> & HF & Ha2 & Hl2 & Hr2 & ? & ? & ?).
    apply wp_bind. eapply wp_eq; [by eapply get_right_ok|]. cbn [right].
    destruct pr2 as [b2|].
    2:{ (* no right child *)
      apply repr_None in Hr2 as [-> ->]. asimpl Eo.
      apply wp_bind. eapply wp_eq.
      { rewrite (bind_ok _ _ _ _ _ (get_elem_ok _ _ _ Ha2)). reflexivity. }
      destruct (Compare x e1 =? 0); simplify_eq; apply wp_ret;
        unfold out_post, tree_post; simpl; (split; [done|]).
      - exists ∅. split; [constructor|].
        eapply ext_weaken; [exact X2|done|set_solver].
      - eexists. split; [exact R2|]. done. }
    pose proof (repr_Some _ _ _ _ Hr2) as Hnr. rewrite Hnr in Eo. asimpl Eo.
    apply wp_bind. apply wp_ret.
    destruct (if _ && _ then _ else _) as [t2|] eqn:E2 in Eo; [|done]. asimpl Eo.
    apply wp_bind. eapply wp_eq.
    { apply and_then_ok; [by eapply not_red_sim|]. intros _.
      by eapply not_red_left_sim. }
    apply wp_bind.
    assert (wp (if negb (Abs.isRed r1) && negb (Abs.isRed (Abs.left r1))
                then node.moveRedRight (Some a2) else ret (Some a2)) h2
               (same_fp h2 t2 ({[a1]} ∪ Fl1 ∪ Fr1))
            ∧ Abs.count t2 = Abs.count (Abs.Node c1 l1 e1 r1)) as [W Hc2].
    { destruct (_ && _).
      - split; [by eapply moveRedRight_wp|by eapply count_moveRedRight].
      - simplify_eq. split; [|done]. apply wp_ret. split; [done|]. by apply ext_refl. }
    eapply wp_mono; [exact W|]. clear W. intros p3 h3 [R3 X3].
    destruct t2 as [|c2 l2 e2 r2]; [done|]. asimpl Eo.
    pose proof R3 as R3'.
    apply repr_node_inv in R3' as (a3 & pl3 & pr3 & Fl3 & Fr3 & -> & HF3 & Ha3 & Hl3 & Hr3 & ? & ? & ?).
    apply wp_bind. eapply wp_eq; [by eapply get_elem_ok|]. cbn [elem].
    apply wp_bind. eapply wp_eq; [reflexivity|].
    destruct (Compare x e2 =? 0).
    + (* found: take the successor's element and delete the successor *)
      destruct (Abs.min r2) as [me|] eqn:Em; [|done]. asimpl Eo.
      destruct (Abs.deleteMin fuel r2) as [[r' m']|] eqn:Ed; [|done]. asimpl Eo.
      simplify_eq.
      apply wp_bind. eapply wp_eq; [by eapply get_right_ok|]. cbn [right].
      eapply wp_proper; [symmetry; apply bind_assoc|].
      apply wp_bind. eapply wp_eq.
      { eapply min_sim; [|done..].
        pose proof (height_le_count r2). simpl in *. lia. }
      apply wp_bind. eapply wp_mono; [by eapply (set_elem_wp _ _ _ _ _ _ _ me)|].
      intros [] h4 [R4 X4].
      apply repr_node_inv in R4 as (a4 & pl4 & pr4 & Fl4 & Fr4 & ? & HF4 & Ha4 & Hl4 & Hr4 & ? & ? & ?).
      simplify_eq.
      apply wp_bind. eapply wp_eq; [by eapply get_right_ok|]. cbn [right].
      apply wp_bind. eapply wp_mono; [by eapply deleteMin_wp|].
      intros [pr' m''] h5 [Hm (Fr' & Rr' & Xr')]. simpl in Hm, Rr'. subst m''.
      apply wp_bind. eapply wp_mono;
        [eapply (set_right_frame h4 h5 a4 c2 me pl4 pr4 l2 Fl4 Fr4 pr' r' Fr'); eassumption|].
      intros [] h6 [R6 X6]. apply wp_ret.
      unfold out_post, tree_post. simpl. split; [done|].
      eexists. split; [exact R6|].
      eapply ext_trans; [exact X2|]. eapply ext_trans; [exact X3|].
      eapply ext_trans; [exact X4|]. rewrite HF4. done.
    + destruct (Abs.delete fuel x r2) as [[r' m']|] eqn:Ed; [|done]. asimpl Eo.
      simplify_eq.
      apply wp_bind. eapply wp_eq; [by eapply get_right_ok|]. cbn [right].
      apply wp_bind. eapply wp_mono; [eapply IH; [|done..]; simpl in *; lia|].
      intros [pr' m''] h4 [Hm (Fr' & Rr' & Xr')]. simpl in Hm, Rr'. subst m''.
      apply wp_bind. eapply wp_mono;
        [eapply (set_right_frame h3 h4 a3 c2 e2 pl3 pr3 l2 Fl3 Fr3 pr' r' Fr'); eassumption|].
      intros [] h5 [R5 X5]. apply wp_ret.
      unfold out_post, tree_post. simpl. split; [done|].
      eexists. split; [exact R5|].
      eapply ext_trans; [exact X2|]. eapply ext_trans; [exact X3|].
      rewrite HF3. done.
Qed.

End Delete.

Section ReadOnly.

Context {Element : Type} {Cmp : ElementOps Element}.

Implicit Types (h : list (node Element)) (p : ptr) (t : Abs.tree Element)
  (F : gset nat) (a : nat).

Lemma max_sim : ∀ t fuel h p F e,
  (Abs.height t < fuel)%nat → repr h p t F → Abs.max t = Some e →
  (let! mx := node.max fuel p in node.get_elem mx) h = Ok (Some e, h).
Proof.
  induction t as [|c l _ e r IHr]; intros fuel h p F e0 Hf Hr E; [done|].
  destruct fuel as [|fuel]; [simpl in Hf; lia|].
  apply repr_node_inv in Hr as (a & pl & pr & Fl & Fr & -> & -> & Ha & Hl & Hr & ? & ? & ?).
  cbn [node.max]. rewrite bind_assoc.
  rewrite (bind_ok _ _ _ _ _ (get_right_ok _ _ _ Ha)). cbn [right].
  destruct r as [|rc rl re rr].
  - apply repr_nil_inv in Hr as [-> ->]. simpl in E. simplify_eq.
    exact (get_elem_ok _ _ _ Ha).
  - pose proof Hr as Hr0.
    apply repr_node_inv in Hr0 as (b & ? & ? & ? & ? & -> & _).
    eapply IHr; [simpl in *; lia|done|done].
Qed.

Lemma find_sim x : ∀ t fuel h p F,
  (Abs.height t ≤ fuel)%nat → repr h p t F →
  (let! n := node.find fuel p (Some x) in
   match n with None => ret None | Some _ => node.get_elem n end) h
  = Ok (Abs.find x t, h).
Proof.
  induction t as [|c l IHl e r IHr]; intros fuel h p F Hf Hr.
  - apply repr_nil_inv in Hr as [-> ->]. by destruct fuel.
  - destruct fuel as [|fuel]; [simpl in Hf; lia|].
    apply repr_node_inv in Hr as (a & pl & pr & Fl & Fr & -> & -> & Ha & Hl & Hr & ? & ? & ?).
    cbn [node.find Abs.find]. rewrite !bind_assoc.
    rewrite (bind_ok _ _ _ _ _ (get_elem_ok _ _ _ Ha)). cbn [elem].
    rewrite bind_assoc. cbn [node.compare]. simpl in Hf.
    change (bind (ret (Compare x e)) ?k h) with (k (Compare x e) h). cbv beta.
    destruct (Compare x e =? 0).
    + exact (get_elem_ok _ _ _ Ha).
    + destruct (Compare x e <? 0).
      * rewrite bind_assoc. rewrite (bind_ok _ _ _ _ _ (get_left_ok _ _ _ Ha)).
        eapply IHl; [lia|done].
      * rewrite bind_assoc. rewrite (bind_ok _ _ _ _ _ (get_right_ok _ _ _ Ha)).
        eapply IHr; [lia|done].
Qed.

Lemma do_sim {V} (fn : Visitor Element V) : ∀ t fuel h p F v res,
  (Abs.height t ≤ fuel)%nat → repr h p t F → Abs.do t fn v = Some res →
  node.do fuel p fn v h = Ok (res, h).
Proof.
  induction t as [|c l IHl e r IHr]; intros fuel h p F v res Hf Hr E; [done|].
  destruct fuel as [|fuel]; [simpl in Hf; lia|]. simpl in Hf.
  apply repr_node_inv in Hr as (a & pl & pr & Fl & Fr & -> & -> & Ha & Hl & Hr & ? & ? & ?).
  cbn [node.do Abs.do] in *.
  rewrite (bind_ok _ _ _ _ _ (get_left_ok _ _ _ Ha)). cbn [left].
  destruct (if Abs.is_nil l then _ else _) as [[d1 v1]|] eqn:E1 in E; [|done].
  cbn [mbind option_bind] in E.
  erewrite bind_ok; cycle 1.
  { destruct pl as [b|].
    - rewrite (repr_Some _ _ _ _ Hl) in E1. eapply IHl; [lia|done..].
    - apply repr_None in Hl as [-> ->]. simpl in E1. by simplify_eq. }
  cbv beta iota. destruct d1; [by simplify_eq|].
  rewrite (bind_ok _ _ _ _ _ (get_elem_ok _ _ _ Ha)). cbn [elem].
  destruct (fn (Some e) v1) as [d2 v2]. destruct d2; [by simplify_eq|].
  rewrite (bind_ok _ _ _ _ _ (get_right_ok _ _ _ Ha)). cbn [right].
  destruct pr as [b|].
  - rewrite (repr_Some _ _ _ _ Hr) in E. eapply IHr; [lia|done..].
  - apply repr_None in Hr as [-> ->]. simpl in E. by simplify_eq.
Qed.

Lemma doRange_sim {V} (fn : Visitor Element V) lo hi : ∀ t fuel h p F v res,
  (Abs.height t ≤ fuel)%nat → repr h p t F →
  Abs.doRange t lo hi fn v = Some res →
  node.doRange fuel p (Some lo) (Some hi) fn v h = Ok (res, h).
Proof.
  induction t as [|c l IHl e r IHr]; intros fuel h p F v res Hf Hr E; [done|].
  destruct fuel as [|fuel]; [simpl in Hf; lia|]. simpl in Hf.
  apply repr_node_inv in Hr as (a & pl & pr & Fl & Fr & -> & -> & Ha & Hl & Hr & ? & ? & ?).
  cbn [node.doRange Abs.doRange] in *.
  rewrite (bind_ok _ _ _ _ _ (get_elem_ok _ _ _ Ha)). cbn [elem node.compare].
  change (bind (ret ?z) ?k h) with (k z h). cbv beta.
  change (bind (ret ?z) ?k h) with (k z h). cbv beta.
  rewrite (bind_ok _ _ _ _ _ (get_left_ok _ _ _ Ha)). cbn [left].
  cbv zeta in E.
  destruct (if (Compare lo e <=? 0) && negb (Abs.is_nil l) then _ else _)
    as [[d1 v1]|] eqn:E1 in E; [|done].
  cbn [mbind option_bind] in E.
  erewrite bind_ok; cycle 1.
  { destruct pl as [b|].
    - rewrite (repr_Some _ _ _ _ Hl) in E1. simpl.
      rewrite ?bool_decide_true by done.
      destruct (Compare lo e <=? 0); simpl in *; [|by simplify_eq].
      eapply IHl; [lia|done..].
    - apply repr_None in Hl as [-> ->]. simpl in E1.
      rewrite andb_false_r in *. by simplify_eq. }
  cbv beta iota. destruct d1; [by simplify_eq|].
  destruct (if (Compare lo e <=? 0) && (Compare hi e >? 0) then fn (Some e) v1
            else (false, v1)) as [d2 v2].
  destruct d2; [by simplify_eq|].
  rewrite (bind_ok _ _ _ _ _ (get_right_ok _ _ _ Ha)). cbn [right].
  destruct pr as [b|].
  - rewrite (repr_Some _ _ _ _ Hr) in E. simpl in *.
    rewrite ?bool_decide_true by done.
    destruct (Compare hi e >? 0); simpl in *; [|by simplify_eq].
    eapply IHr; [lia|done..].
  - apply repr_None in Hr as [-> ->]. simpl in E.
    rewrite andb_false_r in *. by simplify_eq.
Qed.

End ReadOnly.

(** ** The committed-tree invariants, on the abstract tree *)

Section Invariants.

Context {Element : Type} {Cmp : ElementOps Element}.

Implicit Types (t : Abs.tree Element).

Lemma ok_leaf : ok Abs.Leaf.
Proof. by repeat split. Qed.

Lemma elements_blacken t : Abs.elements (blacken t) = Abs.elements t.
Proof. by destruct t. Qed.

Lemma balanced_blacken t : Abs.balanced t → Abs.balanced (blacken t).
Proof. by destruct t. Qed.

Lemma isRed_blacken t : Abs.isRed (blacken t) = false.
Proof. by destruct t. Qed.

Lemma count_blacken t : Abs.count (blacken t) = Abs.count t.
Proof. by destruct t. Qed.

Context {Ord : TotalPreorder Element}.

Lemma bst_of_elements t t' :
  sorted (Abs.elements t') → Abs.elements t = Abs.elements t' → bst t.
Proof. intros Hs E. apply sorted_bst. by rewrite E. Qed.

Lemma insert_ok x t :
  ok t →
  ∃ t1 m, Abs.insert x t = Some (t1, m) ∧ Abs.is_nil t1 = false
    ∧ ok (blacken t1)
    ∧ Abs.elements (blacken t1) = linsert x (Abs.elements t)
    ∧ m = delta_ins x t.
Proof.
  intros (Hb & H23 & Hs & Hr).
  destruct (insert_root x t Hb H23 Hr) as (t1 & m & E & Hn & Hb1 & H231 & Hf & Hm).
  exists t1, m. split; [done|]. split; [by destruct t1|].
  assert (Abs.elements (blacken t1) = linsert x (Abs.elements t)) as He.
  { specialize (Hf []). rewrite flatten_elements, ins_spec in Hf by done.
    by rewrite !app_nil_r in Hf. }
  repeat split; try done.
  - eapply sorted_bst. rewrite He. by apply sorted_linsert, bst_sorted.
  - apply isRed_blacken.
Qed.

Lemma delete_ok x fuel t :
  ok t → Abs.is_nil t = false → (Abs.count t < fuel)%nat →
  ∃ t1 m, Abs.delete fuel x t = Some (t1, m)
    ∧ ok (blacken t1)
    ∧ Abs.elements (blacken t1) = lremove x (Abs.elements t)
    ∧ m = delta_del x t.
Proof.
  intros (Hb & H23 & Hs & Hr) Hn Hc.
  destruct (delete_root x fuel t Hc Hb Hs H23) as (t1 & m & E & Hb1 & H231 & Hf & Hm).
  { by destruct t. }
  exists t1, m. split; [done|].
  assert (Abs.elements (blacken t1) = lremove x (Abs.elements t)) as He.
  { specialize (Hf []). rewrite flatten_elements, del_spec in Hf by done.
    rewrite !app_nil_r in Hf. by rewrite elements_blacken. }
  repeat split; try done.
  - by apply balanced_blacken.
  - eapply sorted_bst. rewrite He. by apply sorted_filter, bst_sorted.
  - apply isRed_blacken.
Qed.

Lemma deleteMin_ok fuel t :
  ok t → Abs.is_nil t = false → (Abs.count t < fuel)%nat →
  ∃ t1 e0, Abs.deleteMin fuel t = Some (t1, -1)
    ∧ ok (blacken t1)
    ∧ Abs.elements t = e0 :: Abs.elements (blacken t1).
Proof.
  intros (Hb & H23 & Hs & Hr) Hn Hc.
  destruct (deleteMin_root fuel t Hc Hb H23) as (t1 & e0 & E & Hb1 & H231 & Hf).
  { by destruct t. }
  exists t1, e0. split; [done|].
  assert (Abs.elements t = e0 :: Abs.elements (blacken t1)) as He.
  { specialize (Hf []). rewrite !flatten_elements in Hf.
    rewrite !app_nil_r in Hf. by rewrite elements_blacken. }
  repeat split; try done.
  - by apply balanced_blacken.
  - apply bst_sorted in Hs. rewrite He in Hs.
    apply sorted_bst. by inversion Hs.
  - apply isRed_blacken.
Qed.

Lemma deleteMax_ok fuel t :
  ok t → Abs.is_nil t = false → (Abs.count t < fuel)%nat →
  ∃ t1 e0, Abs.deleteMax fuel t = Some (t1, -1)
    ∧ ok (blacken t1)
    ∧ Abs.elements t = Abs.elements (blacken t1) ++ [e0].
Proof.
  intros (Hb & H23 & Hs & Hr) Hn Hc.
  destruct (deleteMax_root fuel t Hc Hb H23) as (t1 & e0 & E & Hb1 & H231 & Hf).
  { by destruct t. }
  exists t1, e0. split; [done|].
  assert (Abs.elements t = Abs.elements (blacken t1) ++ [e0]) as He.
  { specialize (Hf []). rewrite !flatten_elements in Hf.
    rewrite !app_nil_r in Hf. by rewrite elements_blacken. }
  repeat split; try done.
  - by apply balanced_blacken.
  - apply bst_sorted in Hs. rewrite He in Hs.
    apply sorted_bst. by apply sorted_app_inv in Hs as (? & _).
  - apply isRed_blacken.
Qed.

End Invariants.

(** ** tree.go: stepping through the Tree cells *)

Section StoreSteps.

Context {Element : Type}.

Implicit Types (s : store Element) (τ : nat) (T : Tree) (p : ptr).

Lemma store_eta s : mkStore (nodes s) (trees s) = s.
Proof. by destruct s. Qed.

Lemma on_nodes_ok {A} (m : ST (list (node Element)) A) s a h' :
  m (nodes s) = Ok (a, h') → on_nodes m s = Ok (a, mkStore h' (trees s)).
Proof. unfold on_nodes. by intros ->. Qed.

Lemma on_nodes_ro {A} (m : ST (list (node Element)) A) s a :
  m (nodes s) = Ok (a, nodes s) → on_nodes m s = Ok (a, s).
Proof. destruct s. unfold on_nodes. simpl. by intros ->. Qed.

Lemma get_root_ok s τ T :
  trees s !! τ = Some T → Tree.get_root (Some τ) s = Ok (root T, s).
Proof.
  intros HT. destruct s. unfold Tree.get_root, on_trees, bind, load.
  simpl in *. by rewrite HT.
Qed.

Lemma get_size_ok s τ T :
  trees s !! τ = Some T → Tree.get_size (Some τ) s = Ok (size T, s).
Proof.
  intros HT. destruct s. unfold Tree.get_size, on_trees, bind, load.
  simpl in *. by rewrite HT.
Qed.

Lemma set_root_ok s τ T p :
  trees s !! τ = Some T →
  Tree.set_root (Some τ) p s
  = Ok (tt, mkStore (nodes s) (<[τ := with_root T p]> (trees s))).
Proof.
  intros HT. unfold Tree.set_root, on_trees, update. by rewrite HT.
Qed.

Lemma set_size_ok s τ T z :
  trees s !! τ = Some T →
  Tree.set_size (Some τ) z s
  = Ok (tt, mkStore (nodes s) (<[τ := with_size T z]> (trees s))).
Proof.
  intros HT. unfold Tree.set_size, on_trees, update. by rewrite HT.
Qed.

Lemma lookup_tree_eq (ts : list Tree) τ T T' :
  ts !! τ = Some T → <[τ := T']> ts !! τ = Some T'.
Proof. intros HT. apply list_lookup_insert_eq. by eapply lookup_lt_Some. Qed.

End StoreSteps.

Create HintDb store.

#[export] Hint Resolve get_root_ok get_size_ok set_root_ok set_size_ok
  lookup_tree_eq : store.

Lemma wp_step {S A B} (m : ST S A) (k : A → ST S B) s a s' Q :
  m s = Ok (a, s') → wp (k a) s' Q → wp (bind m k) s Q.
Proof. intros E (b & s'' & E' & HQ). exists b, s''. by rewrite (bind_ok _ _ _ _ _ E). Qed.

Lemma bind_ok_eq {S A B} (m : ST S A) (k : A → ST S B) s a s' r :
  m s = Ok (a, s') → k a s' = r → bind m k s = r.
Proof. intros E <-. by apply bind_ok. Qed.

Ltac store_lookup :=
  cbn [nodes trees]; solve [repeat (first [eassumption | eapply lookup_tree_eq])].

Ltac sstep :=
  eapply wp_step;
  [first [eapply get_root_ok | eapply get_size_ok
         | eapply set_root_ok | eapply set_size_ok]; store_lookup|];
  cbn [with_root with_size root size nodes trees tree].

Lemma int_wrap_is_int z : is_int (int_wrap z).
Proof.
  unfold is_int, int_wrap.
  pose proof (Z.mod_pos_bound (z + 2 ^ 63) (2 ^ 64)). lia.
Qed.

Lemma int_wrap_id z : is_int z → int_wrap z = z.
Proof.
  unfold is_int, int_wrap. intros Hz.
  rewrite Z.mod_small; lia.
Qed.

Lemma int_add_is_int a b : is_int (int_add a b).
Proof. apply int_wrap_is_int. Qed.

Lemma int_add_0 z : is_int z → int_add z 0 = z.
Proof. intros Hz. unfold int_add. rewrite Z.add_0_r. by apply int_wrap_id. Qed.

Section TxnLevel.

Context {Element : Type} {Cmp : ElementOps Element}.

Implicit Types (s : store Element) (τ : nat) (tr : Abs.tree Element) (sz : Z).

Lemma repr_fun (h : list (node Element)) p : ∀ t F t' F',
  repr h p t F → repr h p t' F' → t = t'.
Proof.
  intros t F t' F' H. revert t' F'.
  induction H as [|a c e pl pr tl tr Fl Fr Ha _ IHl _ IHr]; intros t' F' H'.
  - by apply repr_None in H' as [-> _].
  - inversion H'; simplify_eq. f_equal; eauto.
Qed.

Lemma tree_at_fun s τ tr sz tr' sz' :
  tree_at s τ tr sz → tree_at s τ tr' sz' → tr = tr' ∧ sz = sz'.
Proof.
  intros (r & F & HT & _ & Hr) (r' & F' & HT' & _ & Hr'). simplify_eq.
  split; [by eapply repr_fun|done].
Qed.

(** The root cell is black after the final assignment of a mutation. *)
Lemma set_color_black (h : list (node Element)) a t F :
  repr h (Some a) t F →
  ∃ h', node.set_color (Some a) black h = Ok (tt, h')
    ∧ repr h' (Some a) (blacken t) F ∧ length h' = length h.
Proof.
  intros Hr. destruct t as [|c l e r]; [by inversion Hr|].
  apply repr_node_inv in Hr
    as (a' & pl & pr & Fl & Fr & [= <-] & -> & Ha & Hl & Hr & ? & ? & ?).
  eexists. split; [eauto with heap|]. split; [|by rewrite length_insert].
  simpl. cbn [with_color color elem right left]. repr_build.
Qed.

Lemma replace_root_wp s τ r0 sz p m t1 F1 :
  trees s !! τ = Some (mkTree r0 sz) →
  repr (nodes s) p t1 F1 →
  wp (Txn.replace_root (mkTxn (Some τ)) (p, m)) s
     (txn_post s τ (blacken t1) (int_add sz m)).
Proof.
  intros HT Hr. unfold Txn.replace_root. cbn [tree].
  repeat sstep.
  destruct p as [a|]; cbn beta iota.
  - destruct (set_color_black _ _ _ _ Hr) as (h' & E & Hr' & _).
    sstep. eapply wp_eq; [by apply on_nodes_ok|].
    split; [|split]; simpl.
    + exists (Some a), F1. split; [store_lookup|]. split; [apply int_add_is_int|done].
    + by rewrite !length_insert.
    + intros τ' Hne. by rewrite !list_lookup_insert_ne.
  - apply repr_None in Hr as [-> ->]. apply wp_ret.
    split; [|split]; simpl.
    + exists None, ∅. split; [store_lookup|]. split; [apply int_add_is_int|constructor].
    + by rewrite !length_insert.
    + intros τ' Hne. by rewrite !list_lookup_insert_ne.
Qed.

Context {Ord : TotalPreorder Element}.

Lemma Insert_wp fuel s τ tr sz x :
  tree_at s τ tr sz → ok tr → (Abs.height tr < fuel)%nat →
  wp (Txn.Insert fuel (mkTxn (Some τ)) (Some x)) s
     (λ u s', ∃ tr', txn_post s τ tr' (int_add sz (delta_ins x tr)) u s'
        ∧ ok tr' ∧ Abs.elements tr' = linsert x (Abs.elements tr)).
Proof.
  intros (r & F & HT & Hz & Hr) Hok Hf.
  destruct (insert_ok x tr Hok) as (t1 & m & E & Hn & Hok1 & He & ->).
  destruct (insert_wp x tr fuel _ _ _ _ _ Hf Hr E)
    as ([p' m'] & h' & E' & Hm & F' & Hr' & Hext). simpl in *. subst m'.
  unfold Txn.Insert. cbn [tree]. sstep.
  eapply wp_step; [by apply on_nodes_ok|]. repeat sstep.
  destruct p' as [a|]; [|apply repr_None in Hr' as [-> _]; done].
  destruct (set_color_black _ _ _ _ Hr') as (h'' & E'' & Hr'' & _).
  eapply wp_eq; [by apply on_nodes_ok|].
  exists (blacken t1). split; [|done].
  split; [|split]; simpl.
  - exists (Some a), F'. split; [store_lookup|]. split; [apply int_add_is_int|done].
  - by rewrite !length_insert.
  - intros τ' Hne. by rewrite !list_lookup_insert_ne.
Qed.

Lemma is_empty_ok s τ tr sz :
  tree_at s τ tr sz →
  Txn.is_empty (mkTxn (Some τ)) s = Ok (Abs.is_nil tr, s).
Proof.
  intros (r & F & HT & Hz & Hr). unfold Txn.is_empty. cbn [tree].
  erewrite bind_ok by (eauto with store). unfold ret.
  by rewrite (is_nil_repr _ _ _ _ Hr).
Qed.

Lemma txn_post_refl s τ tr sz : tree_at s τ tr sz → txn_post s τ tr sz tt s.
Proof. by intros ?. Qed.

Lemma Delete_wp fuel s τ tr sz x :
  tree_at s τ tr sz → ok tr → (Abs.count tr < fuel)%nat →
  wp (Txn.Delete fuel (mkTxn (Some τ)) (Some x)) s
     (λ u s', ∃ tr', txn_post s τ tr' (int_add sz (delta_del x tr)) u s'
        ∧ ok tr' ∧ Abs.elements tr' = lremove x (Abs.elements tr)).
Proof.
  intros Hat Hok Hf. unfold Txn.Delete.
  eapply wp_step; [by eapply is_empty_ok|].
  destruct (Abs.is_nil tr) eqn:Hn.
  - destruct tr; [|done]. apply wp_ret. exists Abs.Leaf.
    destruct Hat as (r & F & HT & Hz & Hr).
    split; [|done]. split; [|done].
    exists r, F. by rewrite int_add_0.
  - destruct Hat as (r & F & HT & Hz & Hr).
    destruct (delete_ok x fuel tr Hok Hn Hf) as (t1 & m & E & Hok1 & He & ->).
    destruct (delete_wp x fuel _ _ _ _ _ _ Hf Hr E)
      as ([p' m'] & h' & E' & Hm & F' & Hr' & Hext). simpl in *. subst m'.
    cbn [tree]. sstep. eapply wp_step; [by apply on_nodes_ok|].
    eapply wp_mono.
    + eapply (replace_root_wp (mkStore h' (trees s))); simpl; eauto.
    + intros [] s' Hp. exists (blacken t1). split; [|done]. apply Hp.
Qed.

Lemma DeleteMin_wp fuel s τ tr sz :
  tree_at s τ tr sz → ok tr → (Abs.count tr < fuel)%nat →
  wp (Txn.DeleteMin fuel (mkTxn (Some τ))) s
     (λ u s', ∃ tr', txn_post s τ tr'
                       (int_add sz (if Abs.is_nil tr then 0 else -1)) u s'
        ∧ ok tr' ∧ Abs.elements tr' = tail (Abs.elements tr)).
Proof.
  intros Hat Hok Hf. unfold Txn.DeleteMin.
  eapply wp_step; [by eapply is_empty_ok|].
  destruct (Abs.is_nil tr) eqn:Hn.
  - destruct tr; [|done]. apply wp_ret. exists Abs.Leaf.
    destruct Hat as (r & F & HT & Hz & Hr).
    split; [|done]. split; [|done].
    exists r, F. by rewrite int_add_0.
  - destruct Hat as (r & F & HT & Hz & Hr).
    destruct (deleteMin_ok fuel tr Hok Hn Hf) as (t1 & e0 & E & Hok1 & He).
    destruct (deleteMin_wp fuel _ _ _ _ _ _ Hr E)
      as ([p' m'] & h' & E' & Hm & F' & Hr' & Hext). simpl in *. subst m'.
    cbn [tree]. sstep. eapply wp_step; [by apply on_nodes_ok|].
    eapply wp_mono.
    + eapply (replace_root_wp (mkStore h' (trees s))); simpl; eauto.
    + intros [] s' Hp. exists (blacken t1). split; [apply Hp|].
      split; [done|]. by rewrite He.
Qed.

Lemma DeleteMax_wp fuel s τ tr sz :
  tree_at s τ tr sz → ok tr → (Abs.count tr < fuel)%nat →
  wp (Txn.DeleteMax fuel (mkTxn (Some τ))) s
     (λ u s', ∃ tr', txn_post s τ tr'
                       (int_add sz (if Abs.is_nil tr then 0 else -1)) u s'
        ∧ ok tr' ∧ Abs.elements tr' = removelast (Abs.elements tr)).
Proof.
  intros Hat Hok Hf. unfold Txn.DeleteMax.
  eapply wp_step; [by eapply is_empty_ok|].
  destruct (Abs.is_nil tr) eqn:Hn.
  - destruct tr; [|done]. apply wp_ret. exists Abs.Leaf.
    destruct Hat as (r & F & HT & Hz & Hr).
    split; [|done]. split; [|done].
    exists r, F. by rewrite int_add_0.
  - destruct Hat as (r & F & HT & Hz & Hr).
    destruct (deleteMax_ok fuel tr Hok Hn Hf) as (t1 & e0 & E & Hok1 & He).
    destruct (deleteMax_wp fuel _ _ _ _ _ _ Hr E)
      as ([p' m'] & h' & E' & Hm & F' & Hr' & Hext). simpl in *. subst m'.
    cbn [tree]. sstep. eapply wp_step; [by apply on_nodes_ok|].
    eapply wp_mono.
    + eapply (replace_root_wp (mkStore h' (trees s))); simpl; eauto.
    + intros [] s' Hp. exists (blacken t1). split; [apply Hp|].
      split; [done|]. rewrite He. by rewrite removelast_last.
Qed.

(** Opening a transaction allocates a Tree cell and copies the root node. *)
Lemma Txn_wp s τ tr sz :
  tree_at s τ tr sz →
  wp (Tree.Txn (Some τ)) s
     (λ txn s', txn = mkTxn (Some (length (trees s)))
        ∧ tree_at s' (length (trees s)) tr sz
        ∧ length (trees s') = S (length (trees s))).
Proof.
  intros (r & F & HT & Hz & Hr). unfold Tree.Txn, Tree.Snapshot.
  apply wp_bind. eapply wp_step; [reflexivity|]. cbn [nodes trees].
  assert ((trees s ++ [mkTree None 0]) !! τ = Some (mkTree r sz)) as HT1.
  { by apply lookup_app_l_Some. }
  assert ((trees s ++ [mkTree None 0]) !! length (trees s)
          = Some (mkTree None 0)) as HT2.
  { by rewrite lookup_app_r, Nat.sub_diag. }
  assert (length (trees s) ≠ τ) as Hne.
  { apply lookup_lt_Some in HT. lia. }
  sstep. sstep.
  eapply wp_step.
  { eapply get_root_ok. cbn [nodes trees].
    rewrite list_lookup_insert_ne; [exact HT1|done]. }
  cbn [with_root with_size root size nodes trees tree].
  destruct r as [a|]; cbn beta iota.
  - destruct tr as [|c l e rr]; [by inversion Hr|].
    destruct (copy_wp _ _ _ _ _ _ _ Hr) as (p' & h' & E & F' & Hr' & _).
    eapply wp_step.
    { eapply bind_ok_eq; [by apply on_nodes_ok|].
      eapply set_root_ok. store_lookup. }
    apply wp_ret. apply wp_ret. cbn [nodes trees with_root with_size root size].
    split; [done|]. split.
    + exists p', F'. split; [store_lookup|done].
    + by rewrite !length_insert, length_app, Nat.add_comm.
  - apply repr_None in Hr as [-> _].
    eapply wp_step; [reflexivity|].
    apply wp_ret. apply wp_ret. cbn [nodes trees with_root with_size root size].
    split; [done|]. split.
    + exists None, ∅. split; [store_lookup|]. split; [done|constructor].
    + by rewrite !length_insert, length_app, Nat.add_comm.
Qed.

(** The literal [&Tree{}]. *)
Lemma new_tree_wp s :
  wp (on_trees (new (mkTree None 0))) s
     (λ t s', t = Some (length (trees s))
        ∧ tree_at s' (length (trees s)) Abs.Leaf 0).
Proof.
  eapply wp_eq; [reflexivity|]. split; [done|].
  exists None, ∅. cbn [nodes trees]. split.
  - by rewrite lookup_app_r, Nat.sub_diag.
  - split; [unfold is_int; lia|constructor].
Qed.

(** *** Queries *)

Lemma Len_ok s τ tr sz :
  tree_at s τ tr sz → Tree.Len (Some τ) s = Ok (sz, s).
Proof. intros (r & F & HT & _ & _). unfold Tree.Len. by rewrite (get_size_ok _ _ _ HT). Qed.

Lemma Get_ok fuel s τ tr sz x :
  tree_at s τ tr sz → (Abs.height tr ≤ fuel)%nat →
  Tree.Get fuel (Some τ) (Some x) s = Ok (Abs.find x tr, s).
Proof.
  intros (r & F & HT & _ & Hr) Hf. unfold Tree.Get.
  erewrite bind_ok by (by apply get_root_ok). cbn [root].
  destruct r as [a|].
  - pose proof (find_sim x _ fuel _ _ _ Hf Hr) as E.
    unfold bind in E |- *. unfold on_nodes at 1.
    destruct (node.find fuel (Some a) (Some x) (nodes s)) as [[n h']| |];
      [|done..].
    destruct n as [b|]; cbn [nodes trees].
    + unfold on_nodes. cbn [nodes trees].
      destruct (node.get_elem (Some b) h') as [[o h'']| |] eqn:G;
        simplify_eq.
      unfold node.get_elem, bind, load, ret in G.
      destruct (h' !! b); simplify_eq. by rewrite store_eta.
    + unfold ret in *. simplify_eq. rewrite store_eta. congruence.
  - by apply repr_None in Hr as [-> _].
Qed.

Lemma Min_ok fuel s τ tr sz :
  tree_at s τ tr sz → (Abs.height tr < fuel)%nat →
  Tree.Min fuel (Some τ) s = Ok (Abs.min tr, s).
Proof.
  intros (r & F & HT & _ & Hr) Hf. unfold Tree.Min.
  erewrite bind_ok by (by apply get_root_ok). cbn [root].
  destruct r as [a|].
  - destruct tr as [|c l e rr]; [by inversion Hr|].
    destruct (Abs.min (Abs.Node c l e rr)) as [e0|] eqn:E.
    + apply on_nodes_ro. by eapply min_sim.
    + rewrite min_head in E. simpl in E. by destruct (Abs.elements l).
  - by apply repr_None in Hr as [-> _].
Qed.

Lemma Max_ok fuel s τ tr sz :
  tree_at s τ tr sz → (Abs.height tr < fuel)%nat →
  Tree.Max fuel (Some τ) s = Ok (Abs.max tr, s).
Proof.
  intros (r & F & HT & _ & Hr) Hf. unfold Tree.Max.
  erewrite bind_ok by (by apply get_root_ok). cbn [root].
  destruct r as [a|].
  - destruct tr as [|c l e rr]; [by inversion Hr|].
    destruct (max_is_Some c l e rr) as [e0 E]. rewrite E.
    apply on_nodes_ro. by eapply max_sim.
  - by apply repr_None in Hr as [-> _].
Qed.

Lemma ForEach_ok {V} fuel s τ tr sz (fn : Visitor Element V) v :
  tree_at s τ tr sz → (Abs.height tr ≤ fuel)%nat →
  Tree.ForEach fuel (Some τ) fn v s = Ok (visit fn (Abs.elements tr) v, s).
Proof.
  intros (r & F & HT & _ & Hr) Hf. unfold Tree.ForEach.
  erewrite bind_ok by (by apply get_root_ok). cbn [root].
  destruct r as [a|].
  - apply on_nodes_ro. eapply do_sim; [done..|].
    apply do_spec. by eapply repr_Some.
  - by apply repr_None in Hr as [-> _].
Qed.

Lemma Range_ok {V} fuel s τ tr sz lo hi (fn : Visitor Element V) v :
  tree_at s τ tr sz → bst tr → (Abs.height tr ≤ fuel)%nat →
  Compare lo hi <= 0 →
  Tree.Range fuel (Some τ) (Some lo) (Some hi) fn v s
  = Ok (visit fn (List.filter (in_range lo hi) (Abs.elements tr)) v, s).
Proof.
  intros (r & F & HT & _ & Hr) Hb Hf Hle. unfold Tree.Range.
  erewrite bind_ok by (by apply get_root_ok). cbn [root].
  destruct r as [a|].
  - erewrite bind_ok by (by apply on_nodes_ro).
    destruct (Z.gtb_spec (Compare lo hi) 0); [lia|].
    apply on_nodes_ro. eapply doRange_sim; [done..|].
    apply doRange_spec; [done|]. by eapply repr_Some.
  - by apply repr_None in Hr as [-> _].
Qed.

Lemma Range_inverted {V} fuel s τ tr sz lo hi (fn : Visitor Element V) v :
  tree_at s τ tr sz → Abs.is_nil tr = false → 0 < Compare lo hi →
  Tree.Range fuel (Some τ) (Some lo) (Some hi) fn v s = Panic InvertedRange.
Proof.
  intros (r & F & HT & _ & Hr) Hn Hlt. unfold Tree.Range.
  erewrite bind_ok by (by apply get_root_ok). cbn [root].
  destruct r as [a|].
  - erewrite bind_ok by (by apply on_nodes_ro).
    by destruct (Z.gtb_spec (Compare lo hi) 0); [|lia].
  - apply repr_None in Hr as [-> _]. done.
Qed.

Lemma Range_empty {V} fuel s τ sz from to (fn : Visitor Element V) v :
  tree_at s τ Abs.Leaf sz →
  Tree.Range fuel (Some τ) from to fn v s = Ok ((false, v), s).
Proof.
  intros (r & F & HT & _ & Hr). apply repr_nil_inv in Hr as [-> _].
  unfold Tree.Range. by erewrite bind_ok by (by apply get_root_ok).
Qed.

End TxnLevel.

(** ** The invariants as the specification words them *)

Section SpecInvariants.

Context {Element : Type} {Cmp : ElementOps Element}.

Implicit Types (t l r : Abs.tree Element).

Lemma is23_spec t : Abs.is23 t ↔ no_red_right t ∧ no_red_red_left t.
Proof. induction t as [|c l IHl e r IHr]; simpl; tauto. Qed.

Lemma black_counts_balanced t :
  Abs.balanced t → ∀ n, n ∈ black_counts t → n = Abs.bh t.
Proof.
  induction t as [|c l IHl e r IHr]; simpl.
  - intros _ n Hn. by apply list_elem_of_singleton in Hn.
  - intros (E & Hl & Hr) n Hn.
    apply list_elem_of_fmap in Hn as (k & -> & Hk).
    apply elem_of_app in Hk as [Hk|Hk].
    + by rewrite (IHl Hl k Hk).
    + by rewrite (IHr Hr k Hk), E.
Qed.

Lemma black_counts_nonempty t : ∃ n, n ∈ black_counts t.
Proof.
  induction t as [|c l [n Hn] e r _]; simpl.
  - exists O. by apply list_elem_of_singleton.
  - eexists. apply list_elem_of_fmap. eexists. split; [done|].
    apply elem_of_app. by left.
Qed.

Lemma balanced_spec t : Abs.balanced t ↔ equal_black_height t.
Proof.
  split.
  - intros Hb n m Hn Hm.
    by rewrite (black_counts_balanced t Hb n Hn), (black_counts_balanced t Hb m Hm).
  - induction t as [|c l IHl e r IHr]; simpl; [done|]. intros H.
    assert (equal_black_height l) as Hl.
    { intros n m Hn Hm.
      assert ((if c then 1 else 0) + n = (if c then 1 else 0) + m)%nat; [|lia].
      apply H; apply list_elem_of_fmap; eexists; (split; [done|]);
        apply elem_of_app; by left. }
    assert (equal_black_height r) as Hr.
    { intros n m Hn Hm.
      assert ((if c then 1 else 0) + n = (if c then 1 else 0) + m)%nat; [|lia].
      apply H; apply list_elem_of_fmap; eexists; (split; [done|]);
        apply elem_of_app; by right. }
    split; [|by auto].
    destruct (black_counts_nonempty l) as [n Hn].
    destruct (black_counts_nonempty r) as [m Hm].
    rewrite <- (black_counts_balanced l (IHl Hl) n Hn).
    rewrite <- (black_counts_balanced r (IHr Hr) m Hm).
    assert ((if c then 1 else 0) + n = (if c then 1 else 0) + m)%nat; [|lia].
    apply H; apply list_elem_of_fmap; eexists; (split; [done|]);
      apply elem_of_app; [by left|by right].
Qed.

Context {Ord : TotalPreorder Element}.

Lemma sorted_nondecreasing (xs : list Element) : sorted xs → nondecreasing xs.
Proof.
  induction 1 as [|x xs Hs IH Hx]; intros i j a b Hij Ha Hb.
  - by rewrite lookup_nil in Ha.
  - destruct i as [|i], j as [|j]; simplify_eq/=.
    + rewrite compare_refl. lia.
    + rewrite Forall_forall in Hx.
      assert (Compare a b < 0); [|lia].
      apply Hx. by eapply list_elem_of_lookup_2.
    + lia.
    + eapply IH; [|done..]. lia.
Qed.

Lemma ok_invariants t : ok t → invariants t.
Proof.
  intros (Hb & H23 & Hs & _). apply is23_spec in H23 as [? ?].
  repeat split; try done.
  - by apply sorted_nondecreasing, bst_sorted.
  - by apply balanced_spec.
Qed.

End SpecInvariants.

(** ** Histories of mutations *)

Section History.

Context {Element : Type} {Cmp : ElementOps Element}.

Implicit Types (s : store Element) (τ : nat) (tr : Abs.tree Element) (sz : Z)
  (o : mutation Element) (os : list (mutation Element))
  (xs : list Element).

Local Abbreviation M := (ST (store Element)).

Lemma length_linsert_le x xs : (length (linsert x xs) ≤ S (length xs))%nat.
Proof.
  induction xs as [|y xs IH]; simpl; [lia|].
  destruct (Compare x y =? 0); simpl; [lia|].
  destruct (Compare x y <? 0); simpl; lia.
Qed.

Lemma length_removelast xs : length (removelast xs) = pred (length xs).
Proof.
  induction xs as [|y xs IH]; [done|].
  destruct xs as [|z xs]; [done|]. simpl in *. by rewrite IH.
Qed.

Lemma length_effect_le o xs : (length (effect o xs) ≤ S (length xs))%nat.
Proof.
  destruct o; simpl.
  - apply length_linsert_le.
  - unfold lremove. etrans; [apply List.filter_length_le|lia].
  - destruct xs; simpl; lia.
  - rewrite length_removelast. lia.
Qed.

Context {Ord : TotalPreorder Element}.

Lemma length_linsert x xs :
  sorted xs →
  length (linsert x xs)
  = (length xs + match lfind x xs with Some _ => 0 | None => 1 end)%nat.
Proof.
  unfold lfind. induction 1 as [|y xs Hs IH Hy]; simpl; [done|].
  destruct (Compare x y =? 0) eqn:E; simpl; [lia|].
  destruct (Compare x y <? 0) eqn:E'; simpl.
  - fold (lfind x xs). rewrite lfind_none; [lia|].
    eapply Forall_impl; [exact Hy|]. intros z Hz. simpl in Hz. order.
  - rewrite IH. lia.
Qed.

Lemma length_lremove x xs :
  sorted xs →
  length (lremove x xs)
  = (length xs - match lfind x xs with Some _ => 1 | None => 0 end)%nat.
Proof.
  unfold lfind, lremove. induction 1 as [|y xs Hs IH Hy]; simpl; [done|].
  destruct (Compare x y =? 0) eqn:E; simpl.
  - fold (lremove x xs). rewrite lremove_id; [lia|].
    eapply Forall_impl; [exact Hy|]. intros z Hz. simpl in Hz. order.
  - rewrite IH. destruct (List.find _ xs) eqn:F; [|lia].
    apply List.find_some in F as [Hin _]. destruct xs; [done|]. simpl. lia.
Qed.

Lemma effect_sorted o xs : sorted xs → sorted (effect o xs).
Proof.
  intros Hs. destruct o; simpl.
  - by apply sorted_linsert.
  - by apply sorted_filter.
  - destruct Hs; [constructor|done].
  - destruct xs as [|y ys] using rev_ind; [done|].
    rewrite removelast_last. by apply sorted_app_inv in Hs as [? _].
Qed.

Lemma delta_length o tr :
  bst tr →
  delta o tr
  = Z.of_nat (length (effect o (Abs.elements tr)))
    - Z.of_nat (length (Abs.elements tr)).
Proof.
  intros Hb. pose proof (bst_sorted _ Hb) as Hs.
  destruct o; simpl.
  - unfold delta_ins. rewrite length_linsert, find_spec by done.
    destruct (lfind x _); lia.
  - unfold delta_del. rewrite length_lremove, find_spec by done.
    destruct (lfind x (Abs.elements tr)) eqn:E; [|lia].
    unfold lfind in E. apply List.find_some in E as [Hin _].
    destruct (Abs.elements tr); [done|]. simpl. lia.
  - destruct tr as [|c l e r]; [done|]. simpl.
    destruct (Abs.elements l); simpl; rewrite ?length_app; simpl; lia.
  - rewrite length_removelast. destruct tr as [|c l e r]; [done|]. simpl.
    rewrite length_app. simpl. lia.
Qed.

Lemma apply_wp fuel s τ tr sz o :
  tree_at s τ tr sz → ok tr → (Abs.count tr < fuel)%nat →
  wp (apply fuel (mkTxn (Some τ)) o) s
     (λ u s', ∃ tr', txn_post s τ tr' (int_add sz (delta o tr)) u s'
        ∧ ok tr' ∧ Abs.elements tr' = effect o (Abs.elements tr)).
Proof.
  intros Hat Hok Hf. destruct o; simpl.
  - apply Insert_wp; [done..|]. pose proof (height_le_count tr). lia.
  - by apply Delete_wp.
  - by apply DeleteMin_wp.
  - by apply DeleteMax_wp.
Qed.

Lemma int_wrap_add a b : int_add (int_wrap a) b = int_wrap (a + b).
Proof.
  unfold int_add, int_wrap. f_equal.
  replace (((a + 2 ^ 63) mod 2 ^ 64 - 2 ^ 63 + b + 2 ^ 63))
    with ((a + 2 ^ 63) mod 2 ^ 64 + b) by lia.
  rewrite Zplus_mod_idemp_l. f_equal. lia.
Qed.

Lemma apply_holds fuel s τ xs o :
  holds s τ xs → (length xs < fuel)%nat →
  wp (apply fuel (mkTxn (Some τ)) o) s
     (λ _ s', holds s' τ (effect o xs)
        ∧ length (trees s') = length (trees s)).
Proof.
  intros (tr & Hat & Hok & <-) Hf.
  eapply wp_mono.
  - eapply apply_wp; [done..|]. by rewrite count_elements.
  - intros [] s' (tr' & (Hat' & Hlen & _) & Hok' & He). split; [|done].
    exists tr'. split; [|done].
    rewrite int_wrap_add, delta_length in Hat' by apply Hok.
    by replace (Z.of_nat (length (Abs.elements tr)) +
         (Z.of_nat (length (effect o (Abs.elements tr)))
          - Z.of_nat (length (Abs.elements tr))))
      with (Z.of_nat (length (effect o (Abs.elements tr)))) in Hat' by lia.
Qed.

Lemma length_effects_le os : ∀ xs,
  (length (effects os xs) ≤ length xs + length os)%nat.
Proof.
  induction os as [|o os IH]; intros xs; simpl; [lia|].
  etrans; [apply IH|]. pose proof (length_effect_le o xs). lia.
Qed.

Lemma apply_all_holds fuel τ os : ∀ s xs,
  holds s τ xs → (length xs + length os ≤ fuel)%nat →
  wp (apply_all fuel (mkTxn (Some τ)) os) s
     (λ _ s', holds s' τ (effects os xs)
        ∧ length (trees s') = length (trees s)).
Proof.
  induction os as [|o os IH]; intros s xs Hh Hf; simpl in *.
  - by apply wp_ret.
  - apply wp_bind. eapply wp_mono; [apply apply_holds; [done|lia]|].
    intros [] s' [Hh' Hlen]. simpl.
    eapply wp_mono.
    + apply IH; [done|]. pose proof (length_effect_le o xs). lia.
    + intros [] s'' [? ?]. split; [done|congruence].
Qed.

Lemma transact_holds fuel s τ xs os :
  holds s τ xs → (length xs + length os ≤ fuel)%nat →
  wp (transact fuel (Some τ) os) s
     (λ t s', ∃ τ', t = Some τ' ∧ holds s' τ' (effects os xs)).
Proof.
  intros (tr & Hat & Hok & <-) Hf. unfold transact.
  apply wp_bind. eapply wp_mono; [by eapply Txn_wp|].
  intros txn s' (-> & Hat' & _). simpl.
  apply wp_bind. eapply wp_mono.
  - apply apply_all_holds; [|done]. by exists tr.
  - intros [] s'' [Hh _]. simpl. apply wp_ret. eauto.
Qed.

Lemma chain_holds fuel bs : ∀ s τ xs,
  holds s τ xs → (length xs + length (concat bs) ≤ fuel)%nat →
  wp (chain fuel (Some τ) bs) s
     (λ t s', ∃ τ', t = Some τ' ∧ holds s' τ' (effects (concat bs) xs)).
Proof.
  induction bs as [|os bs IH]; intros s τ xs Hh Hf; simpl in *.
  - apply wp_ret. eauto.
  - rewrite length_app in Hf.
    apply wp_bind. eapply wp_mono; [apply transact_holds; [done|lia]|].
    intros t s' (τ' & -> & Hh'). simpl.
    unfold effects. rewrite foldl_app. apply IH; [done|].
    pose proof (length_effects_le os xs). unfold effects in *. lia.
Qed.

Lemma from_empty_holds fuel bs s :
  (length (concat bs) ≤ fuel)%nat →
  wp (from_empty fuel bs) s
     (λ t s', ∃ τ', t = Some τ' ∧ holds s' τ' (effects (concat bs) [])).
Proof.
  intros Hf. unfold from_empty.
  apply wp_bind. eapply wp_mono; [apply new_tree_wp|].
  intros t s' [-> Hat]. simpl. apply chain_holds; [|done].
  exists Abs.Leaf. split; [done|]. split; [apply ok_leaf|done].
Qed.

End History.

(** ** Queries, and what they can observe *)

Section Queries.

Context {Element V : Type} {Cmp : ElementOps Element}.

Implicit Types (s : store Element) (τ : nat) (tr : Abs.tree Element) (sz : Z)
  (q : query Element V) (xs : list Element).

Context {Ord : TotalPreorder Element}.

Lemma ask_ok fuel s τ tr sz q :
  tree_at s τ tr sz → bst tr → (Abs.height tr < fuel)%nat →
  ask fuel (Some τ) q s
  = match ask_list q (Abs.elements tr) sz with
    | Ok a => Ok (a, s)
    | Panic p => Panic p
    | OutOfFuel => OutOfFuel
    end.
Proof.
  intros Hat Hb Hf. destruct q; simpl.
  - erewrite bind_ok by (eapply Get_ok; [done|lia]).
    by rewrite find_spec.
  - erewrite bind_ok by (by eapply Min_ok). by rewrite min_head.
  - erewrite bind_ok by (by eapply Max_ok). by rewrite max_last.
  - by erewrite bind_ok by (by eapply Len_ok).
  - by erewrite bind_ok by (eapply ForEach_ok; [done|lia]).
  - destruct (Abs.elements tr) as [|x0 xs0] eqn:E.
    + destruct tr as [|c l e r]; [|simpl in E; by destruct (Abs.elements l)].
      by erewrite bind_ok by (by eapply Range_empty).
    + rewrite <- E. destruct (Z.gtb_spec (Compare lo hi) 0).
      * unfold bind. erewrite Range_inverted; [done..| |lia].
        by destruct tr.
      * by erewrite bind_ok by (eapply Range_ok; [done..|lia|lia]).
Qed.

(** Two trees with the same contents and the same count answer every
    question alike. *)
Lemma ask_same fuel s τ tr s' τ' tr' sz q :
  tree_at s τ tr sz → bst tr → (Abs.height tr < fuel)%nat →
  tree_at s' τ' tr' sz → bst tr' → (Abs.height tr' < fuel)%nat →
  Abs.elements tr' = Abs.elements tr →
  returned (ask fuel (Some τ') q s') = returned (ask fuel (Some τ) q s).
Proof.
  intros Hat Hb Hf Hat' Hb' Hf' E.
  rewrite (ask_ok fuel s τ tr sz), (ask_ok fuel s' τ' tr' sz), E by done.
  by destruct (ask_list q (Abs.elements tr) sz).
Qed.

(** The elements inside a range sit together in a sorted list. *)
Lemma range_tail lo hi xs :
  sorted xs → Forall (λ x, Compare lo x <= 0) xs →
  ∃ after, xs = List.filter (in_range lo hi) xs ++ after
    ∧ Forall (λ x, in_range lo hi x = false) after.
Proof.
  induction 1 as [|y xs Hs IH Hy]; intros Hlo.
  - by exists [].
  - apply Forall_cons in Hlo as [Hloy Hlo]. simpl. unfold in_range at 1.
    destruct (Z.leb_spec (Compare lo y) 0); [|lia]. simpl.
    destruct (Z.gtb_spec (Compare hi y) 0).
    + destruct (IH Hlo) as (after & E & Ha). exists after.
      split; [|done]. simpl. by f_equal.
    + assert (Forall (λ x, in_range lo hi x = false) xs) as Hout.
      { eapply Forall_impl; [exact Hy|]. intros z Hz. simpl in Hz.
        unfold in_range.
        destruct (Z.gtb_spec (Compare hi z) 0); [|by rewrite andb_false_r].
        exfalso. order. }
      exists (y :: xs). rewrite filter_range_nil by done.
      split; [done|]. apply Forall_cons. split; [|done].
      unfold in_range. destruct (Z.gtb_spec (Compare hi y) 0); [lia|].
      by rewrite andb_false_r.
Qed.

Lemma range_contiguous lo hi xs :
  sorted xs →
  ∃ before after,
    xs = before ++ List.filter (in_range lo hi) xs ++ after
    ∧ Forall (λ x, in_range lo hi x = false) before
    ∧ Forall (λ x, in_range lo hi x = false) after.
Proof.
  induction 1 as [|y xs Hs IH Hy].
  - by exists [], [].
  - destruct (Z.leb_spec (Compare lo y) 0) as [Hle|Hgt].
    + destruct (range_tail lo hi (y :: xs)) as (after & E & Ha).
      * by constructor.
      * apply Forall_cons. split; [done|].
        eapply Forall_impl; [exact Hy|]. intros z Hz. simpl in Hz. order.
      * exists [], after. by split.
    + destruct IH as (before & after & E & Hb & Ha).
      exists (y :: before), after. simpl. unfold in_range at 1.
      destruct (Z.leb_spec (Compare lo y) 0); [lia|]. simpl.
      split; [by f_equal|]. split; [|done].
      apply Forall_cons. split; [|done]. unfold in_range.
      by destruct (Z.leb_spec (Compare lo y) 0); [lia|].
Qed.

End Queries.

(** ** example_test.go: [type Int int] *)

#[global] Instance Int_TotalPreorder : TotalPreorder Z.
Proof. split; unfold Compare, Int_Compare; intros; lia. Qed.

Section Helpers.

Context {Element : Type} {Cmp : ElementOps Element}.

Implicit Types (s : store Element) (τ : nat) (tr : Abs.tree Element) (sz : Z)
  (h : list (node Element)) (xs : list Element).

Lemma fixUp_unfold (n : ptr) h :
  node.fixUp n h
  = (let! n1 := repair_left n in
     let! n2 := repair_right n1 in repair_flip n2) h.
Proof.
  unfold node.fixUp, repair_left, repair_right, repair_flip.
  rewrite !bind_assoc. apply bind_ext; intros r s1.
  apply bind_ext; intros b1 s2. apply bind_ext; intros n1 s3.
  by rewrite ?bind_assoc.
Qed.

Lemma repair_left_eq h p tr F :
  repr h p tr F → Abs.is_nil tr = false →
  repair_left p h
  = (if Abs.isRed (Abs.right tr) then node.rotateLeft p else ret p) h.
Proof.
  intros Hr Hn. unfold repair_left.
  by rewrite (bind_ok _ _ _ _ _ (red_right_sim _ _ _ _ Hr Hn)).
Qed.

Lemma repair_left_strict_eq h p tr F :
  repr h p tr F → Abs.is_nil tr = false →
  repair_left_strict p h
  = (if Abs.isRed (Abs.right tr) && negb (Abs.isRed (Abs.left tr))
     then node.rotateLeft p else ret p) h.
Proof.
  intros Hr Hn. unfold repair_left_strict.
  erewrite bind_ok; [done|].
  apply and_then_ok; [by eapply red_right_sim|]. intros _.
  by eapply not_red_left_sim.
Qed.

Lemma repair_right_eq h p tr F :
  repr h p tr F → Abs.is_nil tr = false →
  repair_right p h
  = (if Abs.isRed (Abs.left tr) && Abs.isRed (Abs.left (Abs.left tr))
     then node.rotateRight p else ret p) h.
Proof.
  intros Hr Hn. unfold repair_right.
  erewrite bind_ok; [done|].
  apply and_then_ok; [by eapply red_left_sim|]. intros Hred.
  eapply red_left_left_sim; [done..|]. by apply isRed_not_nil.
Qed.

Lemma repair_flip_eq h p tr F :
  repr h p tr F → Abs.is_nil tr = false →
  repair_flip p h
  = (if Abs.isRed (Abs.left tr) && Abs.isRed (Abs.right tr)
     then (node.flipColors p ;; ret p) else ret p) h.
Proof.
  intros Hr Hn. unfold repair_flip.
  erewrite bind_ok.
  2:{ apply and_then_ok; [by eapply red_left_sim|]. intros _.
      by eapply red_right_sim. }
  by destruct (_ && _).
Qed.

(** [flipColors] dereferences both children without a check. *)
Lemma flipColors_faults h a (c : node Element) :
  h !! a = Some c → left c = None ∨ right c = None →
  ∃ p, node.flipColors (Some a) h = Panic p.
Proof.
  intros Ha Hc. unfold node.flipColors.
  rewrite (bind_ok _ _ _ _ _ (get_color_ok _ _ _ Ha)).
  rewrite (bind_ok _ _ _ _ _ (set_color_ok _ _ _ _ Ha)).
  pose proof (lookup_upd_eq h a c (with_color c (negb (color c))) Ha) as Ha1.
  rewrite (bind_ok _ _ _ _ _ (get_left_ok _ _ _ Ha1)).
  cbn [with_color left].
  destruct (left c) as [b|] eqn:El; [|by exists NilDeref].
  destruct Hc as [?|Er]; [done|].
  set (h1 := <[a:=_]> h) in *.
  destruct (h1 !! b) as [cb|] eqn:Hb.
  - rewrite (bind_ok _ _ _ _ _ (get_color_ok _ _ _ Hb)).
    rewrite (bind_ok _ _ _ _ _ (set_color_ok _ _ _ _ Hb)).
    assert (∃ c2, <[b:=with_color cb (negb (color cb))]> h1 !! a = Some c2
                  ∧ right c2 = None) as (c2 & Ha2 & Er2).
    { destruct (decide (b = a)) as [->|Hne].
      - eexists. split; [by eapply lookup_upd_eq|]. simpl.
        rewrite Ha1 in Hb. by simplify_eq.
      - eexists. split; [by rewrite list_lookup_insert_ne|]. done. }
    rewrite (bind_ok _ _ _ _ _ (get_right_ok _ _ _ Ha2)), Er2.
    by exists NilDeref.
  - exists BadAddress. unfold bind, node.get_color, bind, load. by rewrite Hb.
Qed.

Lemma panic_propagates {S A B} (m : ST S A) (k : A → ST S B) (st : S) p :
  m st = Panic p → bind m k st = Panic p.
Proof. unfold bind. by intros ->. Qed.

Lemma delta_cases (o : mutation Element) tr :
  delta o tr = -1 ∨ delta o tr = 0 ∨ delta o tr = 1.
Proof.
  destruct o; simpl; unfold delta_ins, delta_del;
    repeat case_match; auto.
Qed.

Lemma int_add_ne z d : is_int z → d = 1 ∨ d = -1 → int_add z d ≠ z.
Proof.
  unfold is_int, int_add, int_wrap. intros Hz Hd E.
  pose proof (Z.div_mod (z + d + 2 ^ 63) (2 ^ 64) ltac:(lia)) as D.
  assert ((z + d + 2 ^ 63) mod 2 ^ 64 = z + 2 ^ 63) as E' by lia.
  rewrite E' in D. lia.
Qed.


Context {Ord : TotalPreorder Element}.

Lemma distinct_inserts xs : ∀ ys,
  sorted ys → distinct xs = true →
  Forall (λ x, Forall (λ y, Compare x y ≠ 0) ys) xs →
  length (effects (map DoInsert xs) ys) = (length ys + length xs)%nat.
Proof.
  induction xs as [|x xs IH]; intros ys Hs Hd Hxy; simpl in *; [lia|].
  apply andb_prop in Hd as [Hx Hd]. apply Forall_cons in Hxy as [Hxys Hxy].
  fold (effects (map DoInsert xs) (linsert x ys)).
  rewrite IH; [| by apply sorted_linsert | done |].
  - rewrite length_linsert, lfind_none by done. lia.
  - rewrite forallb_forall in Hx.
    rewrite Forall_forall in Hxy |- *. intros x' Hx'.
    apply Forall_forall. intros y Hy.
    apply list_elem_of_In, linsert_In in Hy as [->|Hy].
    + apply list_elem_of_In, Hx in Hx'.
      destruct (Z.eqb_spec (Compare x x') 0); [done|]. order.
    + specialize (Hxy x' Hx'). rewrite Forall_forall in Hxy.
      apply Hxy. by apply list_elem_of_In.
Qed.

End Helpers.

(** ** Concrete trees used to instantiate the theorems *)

Lemma empty_store_tree : tree_at empty_store 0 Abs.Leaf 0.
Proof.
  exists None, ∅. split; [reflexivity|].
  split; [unfold is_int; lia|constructor].
Qed.

Lemma single_tree x :
  tree_at (single x) 0 (Abs.Node black Abs.Leaf x Abs.Leaf) 1.
Proof.
  exists (Some 0%nat), ({[0%nat]} ∪ ∅ ∪ ∅). split; [reflexivity|].
  split; [unfold is_int; lia|].
  econstructor; [reflexivity|constructor|constructor|set_solver..].
Qed.

Lemma single_ok (x : Z) : ok (Abs.Node black Abs.Leaf x Abs.Leaf).
Proof. repeat split; simpl; auto. Qed.

Lemma both_red_repr :
  repr both_red (Some 0%nat)
    (Abs.Node black (Abs.Node red Abs.Leaf 1 Abs.Leaf) 2
                    (Abs.Node red Abs.Leaf 3 Abs.Leaf))
    ({[0%nat]} ∪ ({[1%nat]} ∪ ∅ ∪ ∅) ∪ ({[2%nat]} ∪ ∅ ∪ ∅)).
Proof.
  econstructor; [reflexivity| | |set_solver..].
  - econstructor; [reflexivity|constructor|constructor|set_solver..].
  - econstructor; [reflexivity|constructor|constructor|set_solver..].
Qed.

(** ** The claims *)

Section Claims.

Context {Element : Type} {Cmp : ElementOps Element}
  {Ord : TotalPreorder Element}.

Implicit Types (s : store Element) (τ : nat) (tr : Abs.tree Element) (sz : Z)
  (o : mutation Element).


(** C3.  On a transaction whose tree satisfies the invariants, Insert of
    [x] followed by Get of any [y] that compares equal to [x] returns [x],
    whether or not an equal element was there before.  And [N] inserts of
    pairwise distinct elements into the empty tree give Len = [N], for [N]
    below the range of a Go int. *)
Theorem insert_then_get_and_len :
  (∀ fuel s τ tr sz (x y : Element),
     tree_at s τ tr sz → ok tr → (Abs.count tr < fuel)%nat →
     Compare y x = 0 →
     wp (Txn.Insert fuel (mkTxn (Some τ)) (Some x) ;;
         Txn.Get fuel (mkTxn (Some τ)) (Some y)) s
        (λ e _, e = Some x))
  ∧ (∀ fuel s (xs : list Element),
       distinct xs = true → (length xs ≤ fuel)%nat →
       Z.of_nat (length xs) < 2 ^ 63 →
       wp (let! t := on_trees (new (mkTree None 0)) in
           let! txn := Tree.Txn t in
           apply_all fuel txn (map DoInsert xs) ;;
           let! t' := Txn.Commit txn in
           Tree.Len t') s
          (λ n _, n = Z.of_nat (length xs))).
Proof.
  split.
  - intros fuel s τ tr sz x y Hat Hok Hf Hy.
    apply wp_bind. eapply wp_mono.
    { apply Insert_wp; [done..|]. pose proof (height_le_count tr). lia. }
    intros [] s' (tr' & (Hat' & _) & Hok' & He). simpl.
    assert (Abs.height tr' ≤ fuel)%nat as Hh.
    { pose proof (height_le_count tr'). rewrite (count_elements tr'), He in H.
      pose proof (length_linsert_le x (Abs.elements tr)).
      rewrite count_elements in Hf. lia. }
    eapply wp_eq; [by eapply Get_ok|]. simpl.
    rewrite find_spec, He by apply Hok'.
    apply lfind_linsert; [|done]. apply bst_sorted, Hok.
  - intros fuel s xs Hd Hf Hlt.
    apply wp_bind. eapply wp_mono; [apply new_tree_wp|].
    intros t s0 [-> Hat0]. simpl.
    apply wp_bind. eapply wp_mono; [by eapply Txn_wp|].
    intros txn s1 (-> & Hat1 & _). simpl.
    apply wp_bind. eapply wp_mono.
    { apply (apply_all_holds fuel _ (map DoInsert xs) s1 []).
      - exists Abs.Leaf. split; [done|]. split; [apply ok_leaf|done].
      - rewrite length_map. simpl. lia. }
    intros [] s2 [(tr & Hat2 & _) _]. simpl.
    eapply wp_step; [reflexivity|]. simpl.
    eapply wp_eq; [by eapply Len_ok|]. simpl.
    rewrite distinct_inserts; [| constructor | done |].
    + simpl. apply int_wrap_id. unfold is_int. lia.
    + apply Forall_forall. intros; constructor.
Qed.

(** C4.  On a transaction whose tree satisfies the invariants and whose
    count is accurate, Delete of [k] leaves a tree in which Get of [k]
    returns nil.  Len is one less if an element comparing equal to [k] was
    present.  If none was, in particular if the tree was empty, the count
    and the in-order contents are unchanged and every query returns what it
    returned before. *)
Theorem delete_then_get_and_len fuel s τ tr (k : Element) :
  tree_at s τ tr (Z.of_nat (Abs.count tr)) → ok tr →
  (Abs.count tr < fuel)%nat →
  wp (Txn.Delete fuel (mkTxn (Some τ)) (Some k)) s
     (λ _ s', ∃ tr',
        tree_at s' τ tr' (Z.of_nat (Abs.count tr')) ∧ ok tr'
        ∧ Txn.Get fuel (mkTxn (Some τ)) (Some k) s' = Ok (None, s')
        ∧ Txn.Len (mkTxn (Some τ)) s' = Ok (Z.of_nat (Abs.count tr'), s')
        ∧ match Abs.find k tr with
          | Some _ => Z.of_nat (Abs.count tr') = Z.of_nat (Abs.count tr) - 1
          | None =>
            Abs.count tr' = Abs.count tr
            ∧ Abs.elements tr' = Abs.elements tr
            ∧ ∀ V (q : query Element V),
                returned (ask fuel (Some τ) q s')
                = returned (ask fuel (Some τ) q s)
          end).
Proof.
  intros Hat Hok Hf.
  eapply wp_mono; [by apply Delete_wp|].
  intros [] s' (tr' & (Hat' & _) & Hok' & He). exists tr'.
  pose proof (bst_sorted tr ltac:(apply Hok)) as Hs.
  assert (Abs.count tr' ≤ Abs.count tr)%nat as Hle.
  { rewrite !count_elements, He. apply List.filter_length_le. }
  assert (int_add (Z.of_nat (Abs.count tr)) (delta_del k tr)
          = Z.of_nat (Abs.count tr')) as Hsz.
  { pose proof (delta_length (DoDelete k) tr ltac:(apply Hok)) as D.
    simpl in D. rewrite D, <- He, <- !count_elements.
    unfold int_add.
    replace (Z.of_nat (Abs.count tr)
             + (Z.of_nat (Abs.count tr') - Z.of_nat (Abs.count tr)))
      with (Z.of_nat (Abs.count tr')) by lia.
    apply int_wrap_id.
    destruct Hat as (? & ? & _ & Hz & _). unfold is_int in *. lia. }
  rewrite Hsz in Hat'.
  assert (Abs.height tr' ≤ fuel)%nat as Hh.
  { pose proof (height_le_count tr'). lia. }
  split; [done|]. split; [done|]. split; [|split].
  - unfold Txn.Get. cbn [tree]. rewrite (Get_ok fuel s' τ tr' _ k Hat' Hh).
    by rewrite find_spec, He, lfind_lremove by apply Hok'.
  - unfold Txn.Len. by apply (Len_ok s' τ tr').
  - pose proof (delta_length (DoDelete k) tr ltac:(apply Hok)) as D.
    simpl in D. unfold delta_del in D.
    rewrite <- He, <- !count_elements in D.
    destruct (Abs.find k tr) eqn:Ef; [lia|].
    assert (Abs.elements tr' = Abs.elements tr) as He'.
    { rewrite He. apply lremove_id.
      rewrite find_spec in Ef by apply Hok. unfold lfind in Ef.
      apply Forall_forall. intros y Hy E.
      apply list_elem_of_In in Hy.
      eapply List.find_none in Ef; [|exact Hy]. simpl in Ef. lia. }
    split; [lia|]. split; [done|]. intros V q.
    assert (Abs.count tr' = Abs.count tr) as Hc by lia.
    rewrite Hc in Hat'.
    eapply ask_same; try done; try apply Hok; try apply Hok'.
    + pose proof (height_le_count tr). lia.
    + pose proof (height_le_count tr'). lia.
Qed.

(** C5.  On a tree that satisfies the invariants, and for bounds with
    [lo] not above [hi], the in-order contents split into three
    consecutive parts, of which the middle one holds exactly the elements
    [x] with [lo <= x < hi]; ForEach shows the visitor the three parts in
    order, Range shows it the middle part, in the same order. *)
Theorem range_visits_contiguous {V} fuel s τ tr sz (lo hi : Element)
    (fn : Visitor Element V) (v : V) :
  tree_at s τ tr sz → ok tr → (Abs.height tr ≤ fuel)%nat →
  Compare lo hi <= 0 →
  ∃ before inside after,
    Abs.elements tr = before ++ inside ++ after
    ∧ Forall (λ x, in_range lo hi x = false) before
    ∧ Forall (λ x, in_range lo hi x = true) inside
    ∧ Forall (λ x, in_range lo hi x = false) after
    ∧ Tree.ForEach fuel (Some τ) fn v s
      = Ok (visit fn (before ++ inside ++ after) v, s)
    ∧ Tree.Range fuel (Some τ) (Some lo) (Some hi) fn v s
      = Ok (visit fn inside v, s).
Proof.
  intros Hat Hok Hf Hle.
  pose proof (bst_sorted tr ltac:(apply Hok)) as Hs.
  destruct (range_contiguous lo hi _ Hs) as (before & after & E & Hb & Ha).
  exists before, (List.filter (in_range lo hi) (Abs.elements tr)), after.
  split; [done|]. split; [done|]. split.
  { apply Forall_forall. intros x Hx.
    apply list_elem_of_In, List.filter_In in Hx. tauto. }
  split; [done|]. split.
  - rewrite <- E. by eapply ForEach_ok.
  - eapply Range_ok; try done. apply Hok.
Qed.

(** C8.  [flipColors] faults when a child of its argument is nil.  On a
    transaction whose tree satisfies the invariants, each of Insert, Delete,
    DeleteMin and DeleteMax runs to the end; a fault in any call made on
    the way, [flipColors] included, would have ended the run, so no call
    of [flipColors] met a nil child. *)
Theorem flipColors_never_faults fuel s τ tr sz o :
  tree_at s τ tr sz → ok tr → (Abs.count tr < fuel)%nat →
  (∀ (h : list (node Element)) a c,
     h !! a = Some c → left c = None ∨ right c = None →
     ∃ p, node.flipColors (Some a) h = Panic p)
  ∧ (∀ A B (m : ST (list (node Element)) A) (k : A → ST _ B) h p,
       m h = Panic p → bind m k h = Panic p)
  ∧ ∃ s', apply fuel (mkTxn (Some τ)) o s = Ok (tt, s').
Proof.
  intros Hat Hok Hf. split; [apply flipColors_faults|].
  split; [intros; by apply panic_propagates|].
  destruct (apply_wp fuel s τ tr sz o Hat Hok Hf) as ([] & s' & E & _).
  by exists s'.
Qed.


(** C10.  Commit returns the pointer held in the transaction and leaves
    the store as it was: nothing is allocated and nothing is written.  A
    mutation made through the transaction afterwards is therefore seen
    through the pointer that Commit returned: the Tree it points to holds
    the mutated contents and the new count, and its cell has changed
    whenever the count has. *)
Theorem commit_returns_the_live_tree fuel s τ tr sz o :
  tree_at s τ tr sz → ok tr → (Abs.count tr < fuel)%nat →
  (∀ (txn : Txn) (s0 : store Element), Txn.Commit txn s0 = Ok (tree txn, s0))
  ∧ wp (let! t := Txn.Commit (mkTxn (Some τ)) in
        apply fuel (mkTxn (Some τ)) o ;; ret t) s
       (λ t s', t = Some τ
          ∧ (∃ tr', tree_at s' τ tr' (int_add sz (delta o tr))
                    ∧ Abs.elements tr' = effect o (Abs.elements tr))
          ∧ (delta o tr ≠ 0 → trees s' !! τ ≠ trees s !! τ)).
Proof.
  intros Hat Hok Hf. split; [done|].
  eapply wp_step; [reflexivity|]. cbn [tree].
  apply wp_bind. eapply wp_mono; [by apply apply_wp|].
  intros [] s' (tr' & (Hat' & _) & Hok' & He). apply wp_ret.
  split; [done|]. split; [by exists tr'|].
  intros Hd E.
  destruct Hat as (r & F & HT & Hz & _).
  destruct Hat' as (r' & F' & HT' & _ & _).
  rewrite HT, HT' in E. simplify_eq.
  eapply int_add_ne; [exact Hz| |done].
  destruct (delta_cases o tr) as [?|[?|?]]; auto. done.
Qed.

End Claims.

Section ClaimsOnCode.

Context {Element : Type} {Cmp : ElementOps Element}.

Implicit Types (s : store Element) (τ : nat) (tr : Abs.tree Element) (sz : Z)
  (h : list (node Element)).

(** C6.  What the code does with inverted bounds on an empty tree: Range
    returns false and does not panic, because the test for a nil root comes
    before the comparison of the bounds. *)
Theorem inverted_range_on_empty_tree {V} fuel s τ sz (lo hi : Element)
    (fn : Visitor Element V) (v : V) :
  tree_at s τ Abs.Leaf sz → 0 < Compare lo hi →
  Tree.Range fuel (Some τ) (Some lo) (Some hi) fn v s = Ok ((false, v), s).
Proof. intros Hat _. by eapply Range_empty. Qed.

(** C7, as amended.  On a node of a heap that is shaped like a tree,
    [fixUp] is its three statements in order: rotateLeft exactly when the
    right child is red, whatever the colour of the left child; then
    rotateRight exactly when the left child and its left child are red;
    then flipColors exactly when both children are red.  The stricter first
    test, right child red and left child not red, is the one [insert]
    makes inline. *)
Theorem fixUp_checks h p tr F :
  repr h p tr F → Abs.is_nil tr = false →
  (∀ n h0, node.fixUp n h0
           = (let! n1 := repair_left n in
              let! n2 := repair_right n1 in repair_flip n2) h0)
  ∧ repair_left p h
    = (if Abs.isRed (Abs.right tr) then node.rotateLeft p else ret p) h
  ∧ repair_right p h
    = (if Abs.isRed (Abs.left tr) && Abs.isRed (Abs.left (Abs.left tr))
       then node.rotateRight p else ret p) h
  ∧ repair_flip p h
    = (if Abs.isRed (Abs.left tr) && Abs.isRed (Abs.right tr)
       then (node.flipColors p ;; ret p) else ret p) h
  ∧ repair_left_strict p h
    = (if Abs.isRed (Abs.right tr) && negb (Abs.isRed (Abs.left tr))
       then node.rotateLeft p else ret p) h.
Proof.
  intros Hr Hn. split; [apply fixUp_unfold|].
  split; [by eapply repair_left_eq|].
  split; [by eapply repair_right_eq|].
  split; [by eapply repair_flip_eq|by eapply repair_left_strict_eq].
Qed.

End ClaimsOnCode.

(** C2.  A tree holding 1, 2, 3 is committed; a transaction opened on it
    deletes its minimum.  Read again, the committed tree shows 1, 2, 2, 3
    while its count is still 3: the nodes below its root were written to. *)
Theorem snapshot_not_isolated :
  returned (shared_snapshot (mkStore [] []))
  = Ok ([1; 2; 3], [1; 2; 2; 3], 3).
Proof. vm_compute. reflexivity. Qed.

(** C7, the claim as stated fails.  At a black node whose children are both
    red the right child is red and the left child is red as well, and the
    first statement of [fixUp] rotates left: it returns the right child as
    the new root.  The test the claim describes leaves the node alone. *)
Lemma fixUp_rotates_with_red_left_child :
  (let! l := node.get_left (Some 0%nat) in node.isRed l) both_red
    = Ok (true, both_red)
  ∧ (let! r := node.get_right (Some 0%nat) in node.isRed r) both_red
    = Ok (true, both_red)
  ∧ repair_left (Some 0%nat) both_red
    = Ok (Some 2%nat,
          [ mkNode (Some 2) None (Some 1%nat) red;
            mkNode (Some 1) None None red;
            mkNode (Some 3) None (Some 0%nat) black ])
  ∧ repair_left_strict (Some 0%nat) both_red = Ok (Some 0%nat, both_red).
Proof. vm_compute. repeat split; reflexivity. Qed.

(** *** The theorems at concrete inputs *)


Lemma insert_then_get_and_len_witness :
  wp (Txn.Insert 2 (mkTxn (Some 0%nat)) (Some 7) ;;
      Txn.Get 2 (mkTxn (Some 0%nat)) (Some 7)) (single 7)
     (λ e _, e = Some 7)
  ∧ wp (let! t := on_trees (new (mkTree None 0)) in
        let! txn := Tree.Txn t in
        apply_all 3 txn (map DoInsert [3; 1; 2]) ;;
        let! t' := Txn.Commit txn in
        Tree.Len t') (mkStore [] [])
       (λ n _, n = 3).
Proof.
  split.
  - apply (proj1 (insert_then_get_and_len (Ord := Int_TotalPreorder))
             2%nat (single 7) 0%nat _ 1 7 7 (single_tree 7) (single_ok 7)).
    + simpl; lia.
    + reflexivity.
  - apply (proj2 (insert_then_get_and_len (Ord := Int_TotalPreorder))
             3%nat (mkStore [] []) [3; 1; 2]).
    + reflexivity.
    + simpl; lia.
    + simpl; lia.
Defined.

Lemma delete_then_get_and_len_witness :
  (Abs.count (Abs.Node black Abs.Leaf 7 Abs.Leaf) < 2)%nat
  ∧ wp (Txn.Delete 2 (mkTxn (Some 0%nat)) (Some 7)) (single 7)
       (λ _ s', ∃ tr',
          tree_at s' 0 tr' (Z.of_nat (Abs.count tr')) ∧ ok tr'
          ∧ Txn.Get 2 (mkTxn (Some 0%nat)) (Some 7) s' = Ok (None, s')
          ∧ Txn.Len (mkTxn (Some 0%nat)) s' = Ok (Z.of_nat (Abs.count tr'), s')
          ∧ Z.of_nat (Abs.count tr') = 1 - 1).
Proof.
  split; [simpl; lia|].
  eapply wp_mono.
  - apply (delete_then_get_and_len (Ord := Int_TotalPreorder)
             2%nat (single 7) 0%nat _ 7 (single_tree 7) (single_ok 7)).
    simpl; lia.
  - intros _ s' (tr' & H1 & H2 & H3 & H4 & H5). exists tr'.
    repeat split; try assumption; apply H2.
Defined.

Lemma range_visits_contiguous_witness :
  Compare 5 9 <= 0
  ∧ ∃ before inside after,
      Abs.elements (Abs.Node black Abs.Leaf 7 Abs.Leaf)
        = before ++ inside ++ after
      ∧ Forall (λ x, in_range 5 9 x = false) before
      ∧ Forall (λ x, in_range 5 9 x = true) inside
      ∧ Forall (λ x, in_range 5 9 x = false) after
      ∧ Tree.ForEach 1 (Some 0%nat) collect [] (single 7)
        = Ok (visit collect (before ++ inside ++ after) [], single 7)
      ∧ Tree.Range 1 (Some 0%nat) (Some 5) (Some 9) collect [] (single 7)
        = Ok (visit collect inside [], single 7).
Proof.
  split; [vm_compute; discriminate|].
  apply (range_visits_contiguous (Ord := Int_TotalPreorder)
           1%nat (single 7) 0%nat _ 1 5 9 collect []
           (single_tree 7) (single_ok 7)).
  - simpl; lia.
  - vm_compute; discriminate.
Defined.

Lemma inverted_range_on_empty_tree_witness :
  0 < Compare 5 1
  ∧ Tree.Range 1 (Some 0%nat) (Some 5) (Some 1) collect [] empty_store
    = Ok ((false, []), empty_store).
Proof.
  split; [reflexivity|].
  apply (inverted_range_on_empty_tree 1%nat empty_store 0%nat 0 5 1 collect []
           empty_store_tree).
  reflexivity.
Defined.

Lemma fixUp_checks_witness :
  Abs.is_nil (Abs.Node black (Abs.Node red Abs.Leaf 1 Abs.Leaf) 2
                             (Abs.Node red Abs.Leaf 3 Abs.Leaf)) = false
  ∧ repair_left (Some 0%nat) both_red = node.rotateLeft (Some 0%nat) both_red.
Proof.
  split; [reflexivity|].
  apply (fixUp_checks both_red (Some 0%nat) _ _ both_red_repr). reflexivity.
Defined.

Lemma flipColors_never_faults_witness :
  (Abs.count (Abs.Node black Abs.Leaf 7 Abs.Leaf) < 2)%nat
  ∧ ∃ s', apply 2 (mkTxn (Some 0%nat)) (DoInsert 3) (single 7) = Ok (tt, s').
Proof.
  split; [simpl; lia|].
  apply (flipColors_never_faults (Ord := Int_TotalPreorder)
           2%nat (single 7) 0%nat _ 1 (DoInsert 3)
           (single_tree 7) (single_ok 7)).
  simpl; lia.
Defined.


Lemma commit_returns_the_live_tree_witness :
  (Abs.count (Abs.Node black Abs.Leaf 7 Abs.Leaf) < 2)%nat
  ∧ wp (let! t := Txn.Commit (mkTxn (Some 0%nat)) in
        apply 2 (mkTxn (Some 0%nat)) (DoInsert 3) ;; ret t) (single 7)
       (λ t s', t = Some 0%nat
          ∧ (∃ tr', tree_at s' 0 tr' 2 ∧ Abs.elements tr' = [3; 7])
          ∧ (1 ≠ 0 → trees s' !! 0%nat ≠ trees (single 7) !! 0%nat)).
Proof.
  split; [simpl; lia|].
  apply (commit_returns_the_live_tree (Ord := Int_TotalPreorder)
           2%nat (single 7) 0%nat _ 1 (DoInsert 3)
           (single_tree 7) (single_ok 7)).
  simpl; lia.
Defined.

(** ** Calls that only read *)

Section Reads.

Context {S : Type}.

Lemma reads_ret {A} (a : A) : reads (ret a : ST S A).
Proof. intros s a' s' E. unfold ret in E. by simplify_eq. Qed.

Lemma reads_throw {A} p : reads (throw p : ST S A).
Proof. by intros s a s' E. Qed.

Lemma reads_out_of_fuel {A} : reads (out_of_fuel : ST S A).
Proof. by intros s a s' E. Qed.

Lemma reads_bind {A B} (m : ST S A) (k : A → ST S B) :
  reads m → (∀ a, reads (k a)) → reads (bind m k).
Proof.
  intros Hm Hk s b s' E. unfold bind in E.
  destruct (m s) as [[a s1]| |] eqn:E1; [|done..].
  apply Hm in E1 as ->. by eapply Hk.
Qed.

Lemma reads_load {C} (p : ptr) : reads (load p : ST (list C) C).
Proof.
  intros h c h' E. unfold load in E. destruct p as [a|]; [|done].
  destruct (h !! a); by simplify_eq.
Qed.

End Reads.

Create HintDb reads.

#[export] Hint Resolve reads_ret reads_throw reads_out_of_fuel reads_load
  : reads.

Ltac reads_tac :=
  repeat first
    [ progress intros
    | apply reads_ret | apply reads_throw | apply reads_out_of_fuel
    | apply reads_load
    | apply reads_bind
    | match goal with
      | |- reads (match ?x with _ => _ end) => destruct x
      | |- reads (let (_, _) := ?x in _) => destruct x
      | |- reads (if ?b then _ else _) => destruct b
      end
    | solve [eauto with reads] ].

Section ReadsNode.

Context {Element : Type} {Cmp : ElementOps Element}.

Implicit Types (n : ptr) (e : option Element).

Lemma reads_get_elem n : reads (node.get_elem (Element := Element) n).
Proof. unfold node.get_elem. reads_tac. Qed.

Lemma reads_get_left n : reads (node.get_left (Element := Element) n).
Proof. unfold node.get_left. reads_tac. Qed.

Lemma reads_get_right n : reads (node.get_right (Element := Element) n).
Proof. unfold node.get_right. reads_tac. Qed.

Lemma reads_get_color n : reads (node.get_color (Element := Element) n).
Proof. unfold node.get_color. reads_tac. Qed.

#[local] Hint Resolve reads_get_elem reads_get_left reads_get_right reads_get_color
  : reads.

Lemma reads_isRed n : reads (node.isRed (Element := Element) n).
Proof. unfold node.isRed. reads_tac. Qed.

Lemma reads_compare e e' : reads (node.compare e e').
Proof. unfold node.compare. reads_tac. Qed.

#[local] Hint Resolve reads_isRed reads_compare : reads.

Lemma reads_and_then (a b : ST (list (node Element)) bool) :
  reads a → reads b → reads (node.and_then a b).
Proof. intros. unfold node.and_then. reads_tac. Qed.

Lemma reads_find fuel : ∀ n e, reads (node.find fuel n e).
Proof.
  induction fuel as [|fuel IH]; intros n e; simpl; destruct n; reads_tac.
Qed.

Lemma reads_min fuel : ∀ n, reads (node.min (Element := Element) fuel n).
Proof. induction fuel as [|fuel IH]; intros n; simpl; reads_tac. Qed.

Lemma reads_max fuel : ∀ n, reads (node.max (Element := Element) fuel n).
Proof. induction fuel as [|fuel IH]; intros n; simpl; reads_tac. Qed.

Lemma reads_do {V} (fn : Visitor Element V) fuel :
  ∀ n v, reads (node.do fuel n fn v).
Proof. induction fuel as [|fuel IH]; intros n v; simpl; reads_tac. Qed.

Lemma reads_doRange {V} (fn : Visitor Element V) lo hi fuel :
  ∀ n v, reads (node.doRange fuel n lo hi fn v).
Proof. induction fuel as [|fuel IH]; intros n v; simpl; reads_tac. Qed.

#[local] Hint Resolve reads_find reads_min reads_max reads_do reads_doRange : reads.

Lemma reads_on_nodes {A} (m : ST (list (node Element)) A) :
  reads m → reads (on_nodes m).
Proof.
  intros Hm s a s' E. unfold on_nodes in E.
  destruct (m (nodes s)) as [[a' h']| |] eqn:E1; [|done..].
  apply Hm in E1 as ->. simplify_eq. by destruct s.
Qed.

Lemma reads_on_trees {A} (m : ST (list Tree) A) :
  reads m → reads (on_trees (Element := Element) m).
Proof.
  intros Hm s a s' E. unfold on_trees in E.
  destruct (m (trees s)) as [[a' h']| |] eqn:E1; [|done..].
  apply Hm in E1 as ->. simplify_eq. by destruct s.
Qed.

Lemma reads_get_root t : reads (Tree.get_root (Element := Element) t).
Proof. unfold Tree.get_root. apply reads_on_trees. reads_tac. Qed.

Lemma reads_get_size t : reads (Tree.get_size (Element := Element) t).
Proof. unfold Tree.get_size. apply reads_on_trees. reads_tac. Qed.

#[local] Hint Resolve reads_get_root reads_get_size reads_on_nodes : reads.

Lemma reads_ask {V} fuel t (q : query Element V) : reads (ask fuel t q).
Proof.
  destruct q; simpl; apply reads_bind; try (intros; apply reads_ret).
  - unfold Tree.Get. reads_tac; apply reads_on_nodes; reads_tac.
  - unfold Tree.Min. reads_tac; apply reads_on_nodes; reads_tac.
  - unfold Tree.Max. reads_tac; apply reads_on_nodes; reads_tac.
  - unfold Tree.Len. reads_tac.
  - unfold Tree.ForEach. reads_tac; apply reads_on_nodes; reads_tac.
  - unfold Tree.Range. reads_tac; apply reads_on_nodes; reads_tac.
Qed.

End ReadsNode.

(** ** example_test.go: the checkers of the test suite *)

Section Checkers.

Context {Element : Type} {Cmp : ElementOps Element}.

Implicit Types (s : store Element) (τ : nat) (tr t : Abs.tree Element) (sz : Z)
  (h : list (node Element)) (p : ptr) (F : gset nat).

Lemma node_is23_sim : ∀ t fuel h p F,
  (Abs.height t < fuel)%nat → repr h p t F →
  node_is23 fuel p h = Ok (is23b t, h).
Proof.
  induction t as [|c l IHl e r IHr]; intros fuel h p F Hf Hr.
  - apply repr_nil_inv in Hr as [-> _]. destruct fuel; [simpl in Hf; lia|done].
  - destruct fuel as [|fuel]; [simpl in Hf; lia|]. simpl in Hf.
    pose proof Hr as Hr0.
    apply repr_node_inv in Hr
      as (a & pl & pr & Fl & Fr & -> & -> & Ha & Hl & Hr & ? & ? & ?).
    assert (node.isRed pl h = Ok (Abs.isRed l, h)) as Rl by (by eapply isRed_sim).
    assert (node.isRed pr h = Ok (Abs.isRed r, h)) as Rr by (by eapply isRed_sim).
    assert (node.isRed (Some a) h = Ok (Bool.eqb c red, h)) as Rn.
    { unfold node.isRed. by rewrite (bind_ok _ _ _ _ _ (get_color_ok _ _ _ Ha)). }
    assert ((let! l := node.get_left (Some a) in node.isRed l) h
            = Ok (Abs.isRed l, h)) as RL.
    { by rewrite (bind_ok _ _ _ _ _ (get_left_ok _ _ _ Ha)). }
    assert ((let! r := node.get_right (Some a) in node.isRed r) h
            = Ok (Abs.isRed r, h)) as RR.
    { by rewrite (bind_ok _ _ _ _ _ (get_right_ok _ _ _ Ha)). }
    cbn [node_is23].
    rewrite (bind_ok _ _ _ _ _ (get_left_ok _ _ _ Ha)).
    rewrite (bind_ok _ _ _ _ _ (get_right_ok _ _ _ Ha)). cbn [left right].
    assert (∀ (q : ptr), bool_decide (q ≠ None) = negb (bool_decide (q = None))) as Hnb.
    { intros q. by destruct q. }
    rewrite !Hnb, <- (is_nil_repr _ _ _ _ Hl), <- (is_nil_repr _ _ _ _ Hr).
    erewrite bind_ok.
    2:{ instantiate (1 := h).
        instantiate (1 := negb (Abs.is_nil l) && negb (Abs.is_nil r)
                           && Abs.isRed l && Abs.isRed r).
        destruct (negb (Abs.is_nil l) && negb (Abs.is_nil r)); simpl; [|done].
        by apply and_then_ok. }
    cbn [is23b].
    destruct (negb (Abs.is_nil l) && negb (Abs.is_nil r)
                           && Abs.isRed l && Abs.isRed r) eqn:B1;
      cbn [negb andb]; [done|].
    rewrite (bind_ok _ _ _ _ _ RR).
    destruct (Abs.isRed r) eqn:B2; cbn [negb andb]; [done|].
    erewrite bind_ok by (by apply and_then_ok).
    destruct (Bool.eqb c red && Abs.isRed l) eqn:B3; cbn [negb andb]; [done|].
    apply and_then_ok.
    + rewrite (bind_ok _ _ _ _ _ (get_left_ok _ _ _ Ha)). cbn [left].
      eapply IHl; [lia|done].
    + intros _. rewrite (bind_ok _ _ _ _ _ (get_right_ok _ _ _ Ha)). cbn [right].
      eapply IHr; [lia|done].
Qed.

Lemma all_and (P Q : Element → Prop) t :
  all P t → all Q t → all (λ y, P y ∧ Q y) t.
Proof. induction t; simpl; intuition. Qed.

Lemma is23b_spec t : is23b t = true ↔ Abs.is23 t.
Proof.
  induction t as [|c l IHl e r IHr]; simpl; [done|].
  rewrite !andb_true_iff, IHl, IHr.
  destruct c, (Abs.isRed l) eqn:Rl, (Abs.isRed r) eqn:Rr,
    (Abs.is_nil l), (Abs.is_nil r); simpl; unfold red; intuition congruence.
Qed.

Lemma int_sub_1 z :
  is_int z → - 2 ^ 63 < z → int_add z (-1) = z - 1.
Proof.
  intros Hz Hlt. unfold int_add. apply int_wrap_id. unfold is_int in *. lia.
Qed.

Lemma int_min_sub_1 : int_add (- 2 ^ 63) (-1) = 2 ^ 63 - 1.
Proof. reflexivity. Qed.

Lemma node_isBalanced_sim : ∀ t fuel h p F black,
  (Abs.height t < fuel)%nat → repr h p t F →
  node_isBalanced fuel p black h = Ok (balancedb t black, h).
Proof.
  induction t as [|c l IHl e r IHr]; intros fuel h p F black Hf Hr.
  - apply repr_nil_inv in Hr as [-> _]. destruct fuel; [simpl in Hf; lia|done].
  - destruct fuel as [|fuel]; [simpl in Hf; lia|]. simpl in Hf.
    apply repr_node_inv in Hr
      as (a & pl & pr & Fl & Fr & -> & -> & Ha & Hl & Hr & ? & ? & ?).
    assert (node.isRed (Some a) h = Ok (Bool.eqb c red, h)) as Rn.
    { unfold node.isRed. by rewrite (bind_ok _ _ _ _ _ (get_color_ok _ _ _ Ha)). }
    cbn [node_isBalanced balancedb]. rewrite (bind_ok _ _ _ _ _ Rn).
    apply and_then_ok.
    + rewrite (bind_ok _ _ _ _ _ (get_left_ok _ _ _ Ha)). cbn [left].
      eapply IHl; [lia|done].
    + intros _. rewrite (bind_ok _ _ _ _ _ (get_right_ok _ _ _ Ha)). cbn [right].
      eapply IHr; [lia|done].
Qed.

Lemma bh_le_height t : (Abs.bh t ≤ Abs.height t)%nat.
Proof. induction t as [|[] l IHl e r IHr]; simpl; lia. Qed.

Lemma balancedb_spec t : ∀ black,
  is_int black → Z.of_nat (Abs.height t) < 2 ^ 63 →
  balancedb t black = true ↔ Abs.balanced t ∧ black = Z.of_nat (Abs.bh t).
Proof.
  induction t as [|c l IHl e r IHr]; intros black Hb Hh; simpl.
  - rewrite Z.eqb_eq. intuition.
  - simpl in Hh.
    pose proof (bh_le_height l). pose proof (bh_le_height r).
    assert (Z.of_nat (Abs.height l) < 2 ^ 63) as Hhl by lia.
    assert (Z.of_nat (Abs.height r) < 2 ^ 63) as Hhr by lia.
    rewrite andb_true_iff.
    destruct c; simpl.
    + (* black node *)
      rewrite (IHl _ (int_add_is_int _ _) Hhl), (IHr _ (int_add_is_int _ _) Hhr).
      destruct (decide (black = - 2 ^ 63)) as [->|Hne].
      * rewrite int_min_sub_1. split; [lia|]. unfold is_int in *. lia.
      * rewrite int_sub_1 by (unfold is_int in *; lia).
        split; [intros ((?&?)&(?&?))|intros ((?&?&?)&?)]; repeat split;
          try done; lia.
    + rewrite (IHl _ Hb Hhl), (IHr _ Hb Hhr).
      split; [intros ((?&?)&(?&?))|intros ((?&?&?)&?)]; repeat split;
        try done; lia.
Qed.

Lemma count_black_sim : ∀ t fuel h p F z,
  (Abs.height t < fuel)%nat → repr h p t F →
  count_black fuel p (int_wrap z) h
  = Ok (int_wrap (z + Z.of_nat (Abs.bh t)), h).
Proof.
  induction t as [|c l IHl e r _]; intros fuel h p F z Hf Hr.
  - apply repr_nil_inv in Hr as [-> _]. destruct fuel; [simpl in Hf; lia|].
    simpl. by rewrite Z.add_0_r.
  - destruct fuel as [|fuel]; [simpl in Hf; lia|]. simpl in Hf.
    apply repr_node_inv in Hr
      as (a & pl & pr & Fl & Fr & -> & -> & Ha & Hl & Hr & ? & ? & ?).
    assert (node.isRed (Some a) h = Ok (Bool.eqb c red, h)) as Rn.
    { unfold node.isRed. by rewrite (bind_ok _ _ _ _ _ (get_color_ok _ _ _ Ha)). }
    cbn [count_black]. rewrite (bind_ok _ _ _ _ _ Rn).
    rewrite (bind_ok _ _ _ _ _ (get_left_ok _ _ _ Ha)). cbn [left].
    destruct c; simpl Bool.eqb; cbn iota.
    + rewrite int_wrap_add. erewrite IHl; [|lia|done].
      do 3 f_equal. simpl. lia.
    + erewrite IHl; [|lia|done]. do 3 f_equal.
Qed.

Lemma node_isBST_sim : ∀ t fuel h p F lo hi,
  (Abs.height t < fuel)%nat → repr h p t F →
  node_isBST fuel p (Some lo) (Some hi) h = Ok (bstb t lo hi, h).
Proof.
  induction t as [|c l IHl e r IHr]; intros fuel h p F lo hi Hf Hr.
  - apply repr_nil_inv in Hr as [-> _]. destruct fuel; [simpl in Hf; lia|done].
  - destruct fuel as [|fuel]; [simpl in Hf; lia|]. simpl in Hf.
    apply repr_node_inv in Hr
      as (a & pl & pr & Fl & Fr & -> & -> & Ha & Hl & Hr & ? & ? & ?).
    cbn [node_isBST bstb].
    rewrite (bind_ok _ _ _ _ _ (get_elem_ok _ _ _ Ha)). cbn [elem].
    unfold node.compare at 1. unfold ret at 1. unfold bind at 1.
    erewrite bind_ok.
    2:{ instantiate (1 := h).
        instantiate (1 := (Compare e lo <? 0) || (Compare e hi >? 0)).
        destruct (Compare e lo <? 0); [done|].
        by rewrite (bind_ok _ _ _ _ _ (get_elem_ok _ _ _ Ha)). }
    destruct ((Compare e lo <? 0) || (Compare e hi >? 0)); cbn [negb andb];
      [done|].
    apply and_then_ok.
    + rewrite (bind_ok _ _ _ _ _ (get_left_ok _ _ _ Ha)).
      rewrite (bind_ok _ _ _ _ _ (get_elem_ok _ _ _ Ha)). cbn [left elem].
      eapply IHl; [lia|done].
    + intros _. rewrite (bind_ok _ _ _ _ _ (get_right_ok _ _ _ Ha)).
      rewrite (bind_ok _ _ _ _ _ (get_elem_ok _ _ _ Ha)). cbn [right elem].
      eapply IHr; [lia|done].
Qed.

Context {Ord : TotalPreorder Element}.

Lemma bstb_spec t : ∀ lo hi,
  bstb t lo hi = true
  ↔ ordered t ∧ all (λ y, Compare lo y <= 0 ∧ Compare y hi <= 0) t.
Proof.
  induction t as [|c l IHl e r IHr]; intros lo hi; simpl; [tauto|].
  rewrite !andb_true_iff, negb_true_iff, orb_false_iff, IHl, IHr.
  split.
  - intros (((C1 & C2) & Ol & Al) & Or & Ar).
    repeat split; try done.
    + eapply all_impl; [exact Al|]. intros y ?; simpl in *. tauto.
    + eapply all_impl; [exact Ar|]. intros y ?; simpl in *. tauto.
    + eapply all_impl; [exact Al|]. intros y ?; simpl in *. split; order.
    + order.
    + order.
    + eapply all_impl; [exact Ar|]. intros y ?; simpl in *. split; order.
  - intros ((Al & Ar & Ol & Or) & A1 & (C1 & C2) & A2).
    repeat split; try done.
    + order.
    + order.
    + eapply all_impl; [exact (all_and _ _ _ A1 Al)|].
      intros y ?; simpl in *. tauto.
    + eapply all_impl; [exact (all_and _ _ _ A2 Ar)|].
      intros y ?; simpl in *. tauto.
Qed.

End Checkers.

Section CheckersSpec.

Context {Element : Type} {Cmp : ElementOps Element}
  {Ord : TotalPreorder Element}.

Implicit Types (s : store Element) (τ : nat) (tr t : Abs.tree Element) (sz : Z)
  (xs : list Element).

Lemma nondecreasing_cons x xs :
  nondecreasing (x :: xs)
  ↔ Forall (λ y, Compare x y <= 0) xs ∧ nondecreasing xs.
Proof.
  split.
  - intros H. split.
    + apply Forall_forall. intros y Hy.
      apply list_elem_of_lookup in Hy as [j Hj].
      by apply (H O (S j) x y); [lia|..].
    + intros i j a b Hij Ha Hb. by apply (H (S i) (S j) a b); [lia|..].
  - intros [Hx H] i j a b Hij Ha Hb.
    destruct i as [|i], j as [|j]; simplify_eq/=.
    + rewrite compare_refl. lia.
    + rewrite Forall_forall in Hx. apply Hx. by eapply list_elem_of_lookup_2.
    + lia.
    + eapply H; [|done..]. lia.
Qed.

Lemma nondecreasing_app xs1 xs2 :
  nondecreasing (xs1 ++ xs2)
  ↔ nondecreasing xs1 ∧ nondecreasing xs2
    ∧ Forall (λ a, Forall (λ b, Compare a b <= 0) xs2) xs1.
Proof.
  induction xs1 as [|x xs1 IH]; simpl.
  - split; [intros H|intros (_ & H & _); done].
    split; [|split; [done|constructor]].
    intros i j a b _ Ha. by rewrite lookup_nil in Ha.
  - rewrite !nondecreasing_cons, IH, Forall_app, Forall_cons. tauto.
Qed.

Lemma ordered_spec t : ordered t ↔ nondecreasing (Abs.elements t).
Proof.
  induction t as [|c l IHl e r IHr]; simpl.
  - split; [|done]. intros _ i j a b _ Ha. by rewrite lookup_nil in Ha.
  - rewrite nondecreasing_app, nondecreasing_cons, IHl, IHr, !all_Forall.
    split.
    + intros (Al & Ar & Ol & Or). repeat split; try done.
      rewrite Forall_forall in Al |- *. intros a Ha.
      apply Forall_cons. split; [by apply Al|].
      rewrite Forall_forall in Ar |- *. intros b Hb.
      specialize (Al a Ha). specialize (Ar b Hb). simpl in *. order.
    + intros (Ol & (Ar & Or) & Hc). repeat split; try done.
      rewrite Forall_forall in Hc |- *. intros a Ha.
      specialize (Hc a Ha). by apply Forall_cons in Hc as [? _].
Qed.

Lemma nondecreasing_bounds xs lo hi :
  nondecreasing xs → head xs = Some lo → last xs = Some hi →
  Forall (λ y, Compare lo y <= 0 ∧ Compare y hi <= 0) xs.
Proof.
  intros H Hlo Hhi. apply Forall_forall. intros y Hy.
  apply list_elem_of_lookup in Hy as [i Hi].
  pose proof (lookup_lt_Some _ _ _ Hi) as Hlt.
  rewrite head_lookup in Hlo. rewrite last_lookup in Hhi.
  split.
  - by apply (H O i lo y); [lia|..].
  - by apply (H i (pred (length xs)) y hi); [lia|..].
Qed.

(** The three checkers of the test suite run to the end on every heap that
    is shaped like a tree, and together they return true exactly when the
    tree satisfies the four invariants. *)
Lemma checkers_sim fuel s τ tr sz :
  tree_at s τ tr sz → (Abs.height tr < fuel)%nat →
  Z.of_nat (Abs.height tr) < 2 ^ 63 →
  ∃ b23 bbal bbst,
    Tree_is23 fuel (Some τ) s = Ok (b23, s)
    ∧ Tree_isBalanced fuel (Some τ) s = Ok (bbal, s)
    ∧ Tree_isBST fuel (Some τ) s = Ok (bbst, s)
    ∧ (b23 = true ↔ no_red_right tr ∧ no_red_red_left tr)
    ∧ (bbal = true ↔ equal_black_height tr)
    ∧ (bbst = true ↔ nondecreasing (Abs.elements tr)).
Proof.
  intros Hat Hf Hh. pose proof Hat as (r & F & HT & Hz & Hr).
  exists (is23b tr), (balancedb tr (Z.of_nat (Abs.bh tr))).
  exists (match Abs.min tr, Abs.max tr with
          | Some lo, Some hi => bstb tr lo hi
          | _, _ => true
          end).
  split; [|split; [|split; [|split; [|split]]]].
  - unfold Tree_is23. rewrite (bind_ok _ _ _ _ _ (get_root_ok _ _ _ HT)).
    apply on_nodes_ro. by eapply node_is23_sim.
  - unfold Tree_isBalanced. rewrite (bind_ok _ _ _ _ _ (get_root_ok _ _ _ HT)).
    erewrite bind_ok.
    2:{ apply on_nodes_ro. change 0 with (int_wrap 0) at 1.
        by eapply count_black_sim. }
    rewrite (bind_ok _ _ _ _ _ (get_root_ok _ _ _ HT)).
    apply on_nodes_ro. simpl root. rewrite Z.add_0_l, int_wrap_id.
    + by eapply node_isBalanced_sim.
    + pose proof (bh_le_height tr). unfold is_int. lia.
  - unfold Tree_isBST. rewrite (bind_ok _ _ _ _ _ (get_root_ok _ _ _ HT)).
    rewrite (bind_ok _ _ _ _ _ (Min_ok fuel _ _ _ _ Hat Hf)).
    rewrite (bind_ok _ _ _ _ _ (Max_ok fuel _ _ _ _ Hat Hf)).
    apply on_nodes_ro. simpl root.
    destruct tr as [|c l e rr].
    + apply repr_nil_inv in Hr as [-> _]. destruct fuel; [simpl in Hf; lia|done].
    + destruct (max_is_Some c l e rr) as [hi Ehi]. rewrite Ehi.
      destruct (Abs.min (Abs.Node c l e rr)) as [lo|] eqn:Elo.
      * by eapply node_isBST_sim.
      * rewrite min_head in Elo. simpl in Elo. by destruct (Abs.elements l).
  - rewrite is23b_spec. apply is23_spec.
  - rewrite <- balanced_spec, balancedb_spec; [tauto| |done].
    pose proof (bh_le_height tr). unfold is_int. lia.
  - destruct tr as [|c l e rr].
    { simpl. split; [|done]. intros _ i j a b _ Ha. by rewrite lookup_nil in Ha. }
    destruct (max_is_Some c l e rr) as [hi Ehi]. rewrite Ehi.
    destruct (Abs.min (Abs.Node c l e rr)) as [lo|] eqn:Elo.
    2:{ rewrite min_head in Elo. simpl in Elo. by destruct (Abs.elements l). }
    rewrite bstb_spec, ordered_spec, all_Forall.
    split; [tauto|]. intros H. split; [done|].
    apply nondecreasing_bounds; [done| |].
    + by rewrite <- min_head.
    + by rewrite <- max_last.
Qed.

End CheckersSpec.

(** ** Further properties of the code *)

Section MoreHelpers.

Context {Element : Type} {Cmp : ElementOps Element}.

Implicit Types (s : store Element) (τ : nat) (tr t : Abs.tree Element) (sz : Z)
  (h : list (node Element)) (p : ptr) (F : gset nat) (xs : list Element).

Lemma elements_rotateLeft t t' :
  Abs.rotateLeft t = Some t' → Abs.elements t' = Abs.elements t.
Proof.
  destruct t as [|c l e [|rc rl re rr]]; simpl; intros; simplify_eq.
  simpl. by rewrite <- !app_assoc.
Qed.

Lemma elements_rotateRight t t' :
  Abs.rotateRight t = Some t' → Abs.elements t' = Abs.elements t.
Proof.
  destruct t as [|c [|lc ll le lr] e r]; simpl; intros; simplify_eq.
  simpl. by rewrite <- !app_assoc.
Qed.

Lemma rotate_back t t1 :
  Abs.isRed (Abs.right t) = true → Abs.rotateLeft t = Some t1 →
  Abs.rotateRight t1 = Some t.
Proof.
  destruct t as [|c l e [|[] rl re rr]]; simpl; intros; by simplify_eq.
Qed.

(** [fixUp] and the repair that [insert] makes inline give the same tree,
    except at a node with a red right child whose left child and left-left
    grandchild are red as well. *)
Lemma fixUp_insert_repair t t' :
  (Abs.isRed (Abs.right t) = true → Abs.isRed (Abs.left t) = true →
   Abs.isRed (Abs.left (Abs.left t)) = false) →
  Abs.fixUp t = Some t' → Abs.insert_repair t = Some t'.
Proof.
  unfold Abs.fixUp, Abs.insert_repair.
  destruct t as [|c l e r]; [done|]. simpl.
  destruct r as [|[] rl re rr], l as [|[] ll le lr]; simpl; try done;
    repeat (match goal with
            | |- context [Abs.isRed ?x] => is_var x; destruct x as [|[] ? ? ?]
            end; simpl; try done).
  intros H. by specialize (H eq_refl eq_refl).
Qed.

Lemma fixUp_defined t : Abs.is_nil t = false → is_Some (Abs.fixUp t).
Proof.
  unfold Abs.fixUp.
  destruct t as [|c l e r]; [done|]. simpl. intros _.
  destruct r as [|[] rl re rr], l as [|[] ll le lr]; simpl; try done;
    repeat (match goal with
            | |- context [Abs.isRed ?x] => is_var x; destruct x as [|[] ? ? ?]
            end; simpl; try done).
Qed.

Lemma rotateLeft_nil_right h a (c : node Element) :
  h !! a = Some c → right c = None →
  node.rotateLeft (Some a) h = Panic NilDeref.
Proof.
  intros Ha Hr. unfold node.rotateLeft.
  by rewrite (bind_ok _ _ _ _ _ (get_right_ok _ _ _ Ha)), Hr.
Qed.

Lemma rotateRight_nil_left h a (c : node Element) :
  h !! a = Some c → left c = None →
  node.rotateRight (Some a) h = Panic NilDeref.
Proof.
  intros Ha Hr. unfold node.rotateRight.
  by rewrite (bind_ok _ _ _ _ _ (get_left_ok _ _ _ Ha)), Hr.
Qed.

(** Depth against size. *)
Lemma size_black_height t :
  Abs.balanced t → (2 ^ Abs.bh t ≤ Abs.count t + 1)%nat.
Proof.
  induction t as [|c l IHl e r IHr]; simpl; [lia|].
  intros (E & Hl & Hr). specialize (IHl Hl). specialize (IHr Hr).
  rewrite <- E in IHr. destruct c; simpl; lia.
Qed.

Lemma height_black_height t :
  Abs.balanced t → Abs.is23 t →
  (Abs.height t ≤ 2 * Abs.bh t + (if Abs.isRed t then 1 else 0))%nat.
Proof.
  induction t as [|c l IHl e r IHr]; simpl; [lia|].
  intros (E & Hl & Hr) (Rr & Rl & H23l & H23r).
  specialize (IHl Hl H23l). specialize (IHr Hr H23r).
  rewrite Rr in IHr. rewrite <- E in IHr.
  destruct c; simpl.
  - destruct (Abs.isRed l); lia.
  - rewrite (Rl eq_refl) in IHl. lia.
Qed.

Lemma ok_height t : ok t → (2 ^ Abs.height t ≤ (Abs.count t + 1) ^ 2)%nat.
Proof.
  intros (Hb & H23 & _ & Hr).
  pose proof (height_black_height t Hb H23) as H1. rewrite Hr in H1.
  pose proof (size_black_height t Hb) as H2.
  assert (2 ^ Abs.height t ≤ 2 ^ (2 * Abs.bh t))%nat as H3.
  { apply Nat.pow_le_mono_r; lia. }
  rewrite Nat.pow_mul_r in H3.
  replace ((2 ^ 2) ^ Abs.bh t)%nat with ((2 ^ Abs.bh t) ^ 2)%nat in H3.
  2:{ rewrite <- !Nat.pow_mul_r. f_equal. lia. }
  etrans; [exact H3|]. apply Nat.pow_le_mono_l. lia.
Qed.

Lemma in_range_empty {Ord : TotalPreorder Element} (lo hi y : Element) :
  Compare hi lo <= 0 → in_range lo hi y = false.
Proof.
  intros Hle. unfold in_range.
  destruct (Z.leb_spec (Compare lo y) 0); [|done].
  destruct (Z.gtb_spec (Compare hi y) 0); [|done]. exfalso. order.
Qed.

End MoreHelpers.

Section FurtherLemmas.

Context {Element : Type} {Cmp : ElementOps Element}
  {Ord : TotalPreorder Element}.

Implicit Types (s : store Element) (τ : nat) (tr t : Abs.tree Element) (sz : Z)
  (h : list (node Element)) (p : ptr) (F : gset nat) (xs : list Element)
  (o : mutation Element).

Lemma sorted_head_least xs m :
  sorted xs → head xs = Some m → ∀ y, y ∈ xs → Compare m y <= 0.
Proof.
  intros Hs Hm y Hy. destruct Hs as [|x xs Hs Hx]; [done|]. simplify_eq/=.
  apply elem_of_cons in Hy as [->|Hy].
  - rewrite compare_refl. lia.
  - rewrite Forall_forall in Hx. specialize (Hx y Hy). simpl in Hx. lia.
Qed.

Lemma sorted_last_greatest xs m :
  sorted xs → last xs = Some m → ∀ y, y ∈ xs → Compare y m <= 0.
Proof.
  intros Hs Hm y Hy.
  destruct xs as [|x xs _] using rev_ind; [done|].
  rewrite last_snoc in Hm. simplify_eq.
  apply sorted_app_inv in Hs as (_ & _ & Hc).
  apply elem_of_app in Hy as [Hy|Hy].
  - assert (Compare y m < 0); [|lia]. apply Hc; [by apply list_elem_of_In|].
    by left.
  - apply list_elem_of_singleton in Hy as ->. rewrite compare_refl. lia.
Qed.

Lemma lremove_linsert x xs :
  sorted xs → lfind x xs = None → lremove x (linsert x xs) = xs.
Proof.
  unfold lfind, lremove.
  induction 1 as [|y xs Hs IH Hy]; simpl; intros Hf.
  - by rewrite compare_refl.
  - destruct (Compare x y =? 0) eqn:E; [done|]. simpl in Hf.
    destruct (Compare x y <? 0) eqn:E'; simpl.
    + rewrite compare_refl. simpl. rewrite E. simpl. f_equal.
      apply lremove_id. apply Forall_forall. intros z Hz Ez.
      apply list_elem_of_In in Hz.
      eapply List.find_none in Hf; [|exact Hz]. simpl in Hf. lia.
    + rewrite E. simpl. f_equal. by apply IH.
Qed.

Lemma linsert_idem x xs : linsert x (linsert x xs) = linsert x xs.
Proof.
  induction xs as [|y xs IH]; simpl.
  - by rewrite compare_refl.
  - destruct (Compare x y =? 0) eqn:E; simpl.
    + by rewrite compare_refl.
    + destruct (Compare x y <? 0) eqn:E'; simpl.
      * by rewrite compare_refl.
      * by rewrite E, E', IH.
Qed.

Lemma int_add_add_0 z d : int_add (int_add z d) 0 = int_add z d.
Proof. apply int_add_0, int_add_is_int. Qed.

Lemma int_add_1_m1 z : is_int z → int_add (int_add z 1) (-1) = z.
Proof.
  intros Hz. unfold int_add at 2. rewrite int_wrap_add.
  replace (z + 1 + -1) with z by lia. by apply int_wrap_id.
Qed.

Lemma empty_deletes fuel s τ sz (e : option Element) :
  tree_at s τ Abs.Leaf sz →
  Txn.Delete fuel (mkTxn (Some τ)) e s = Ok (tt, s)
  ∧ Txn.DeleteMin fuel (mkTxn (Some τ)) s = Ok (tt, s)
  ∧ Txn.DeleteMax fuel (mkTxn (Some τ)) s = Ok (tt, s).
Proof.
  intros Hat. pose proof (is_empty_ok _ _ _ _ Hat) as E. simpl in E.
  unfold Txn.Delete, Txn.DeleteMin, Txn.DeleteMax.
  by rewrite !(bind_ok _ _ _ _ _ E).
Qed.

Lemma count_tail_elements tr tr' :
  Abs.elements tr' = tail (Abs.elements tr) →
  Z.of_nat (Abs.count tr')
  = Z.of_nat (Abs.count tr) + (if Abs.is_nil tr then 0 else -1).
Proof.
  intros E. rewrite !count_elements, E.
  destruct tr as [|c l e r]; [done|]. simpl.
  destruct (Abs.elements l); simpl; rewrite ?length_app; simpl; lia.
Qed.

Lemma count_removelast_elements tr tr' :
  Abs.elements tr' = removelast (Abs.elements tr) →
  Z.of_nat (Abs.count tr')
  = Z.of_nat (Abs.count tr) + (if Abs.is_nil tr then 0 else -1).
Proof.
  intros E. rewrite !count_elements, E, length_removelast.
  destruct tr as [|c l e r]; [done|]. simpl. rewrite length_app. simpl. lia.
Qed.

Lemma tree_at_count_step s τ sz d tr' :
  tree_at s τ tr' (int_add sz d) →
  sz + d = Z.of_nat (Abs.count tr') → Z.of_nat (Abs.count tr') <= Z.max sz 0 →
  is_int sz →
  tree_at s τ tr' (Z.of_nat (Abs.count tr')).
Proof.
  intros Hat E Hle Hz. unfold int_add in Hat. rewrite E in Hat.
  rewrite int_wrap_id in Hat; [done|]. unfold is_int in *. lia.
Qed.

End FurtherLemmas.

Section Further.

Context {Element : Type} {Cmp : ElementOps Element}
  {Ord : TotalPreorder Element}.

Implicit Types (s : store Element) (τ : nat) (tr t : Abs.tree Element) (sz : Z)
  (h : list (node Element)) (p : ptr) (F : gset nat) (xs : list Element)
  (o : mutation Element).

(** X1.  Get, Min, Max, Len, ForEach and Range never write: on any store,
    of any shape, a call that returns leaves the store as it found it. *)
Theorem queries_never_write {V} fuel (tp : ptr) (q : query Element V)
    s a s' :
  ask fuel tp q s = Ok (a, s') → s' = s.
Proof. apply reads_ask. Qed.

(** X2.  On a heap that is shaped like a tree, the checkers of the test
    suite, [is23], [isBalanced] and [isBST], run to the end without writing,
    and all three return true exactly when the tree satisfies the four
    invariants. *)
Theorem checkers_decide_invariants fuel s τ tr sz :
  tree_at s τ tr sz → (Abs.height tr < fuel)%nat →
  Z.of_nat (Abs.height tr) < 2 ^ 63 →
  ∃ b23 bbal bbst,
    Tree_is23 fuel (Some τ) s = Ok (b23, s)
    ∧ Tree_isBalanced fuel (Some τ) s = Ok (bbal, s)
    ∧ Tree_isBST fuel (Some τ) s = Ok (bbst, s)
    ∧ (b23 = true ∧ bbal = true ∧ bbst = true ↔ invariants tr).
Proof.
  intros Hat Hf Hh.
  destruct (checkers_sim fuel s τ tr sz Hat Hf Hh)
    as (b23 & bbal & bbst & E1 & E2 & E3 & H1 & H2 & H3).
  exists b23, bbal, bbst. split; [done|]. split; [done|]. split; [done|].
  unfold invariants. tauto.
Qed.

(** X3.  After any single Insert, Delete, DeleteMin or DeleteMax on a
    transaction whose tree satisfies the invariants, the three checkers of
    the test suite return true, as TestInsertion and TestDeletion assert
    after every step. *)
Theorem mutation_passes_checkers fuel s τ tr sz o :
  tree_at s τ tr sz → ok tr → (Abs.count tr < fuel)%nat →
  Z.of_nat fuel < 2 ^ 63 →
  wp (apply fuel (mkTxn (Some τ)) o) s
     (λ _ s', Tree_is23 (S fuel) (Some τ) s' = Ok (true, s')
        ∧ Tree_isBalanced (S fuel) (Some τ) s' = Ok (true, s')
        ∧ Tree_isBST (S fuel) (Some τ) s' = Ok (true, s')).
Proof.
  intros Hat Hok Hf Hlt. eapply wp_mono; [by apply apply_wp|].
  intros [] s' (tr' & (Hat' & _) & Hok' & He).
  assert (Abs.height tr' ≤ fuel)%nat as Hh.
  { pose proof (height_le_count tr'). rewrite (count_elements tr'), He in H.
    pose proof (length_effect_le o (Abs.elements tr)).
    rewrite count_elements in Hf. lia. }
  destruct (checkers_sim (S fuel) s' τ tr' _ Hat' ltac:(lia) ltac:(lia))
    as (b23 & bbal & bbst & E1 & E2 & E3 & H1 & H2 & H3).
  destruct (ok_invariants tr' Hok') as (I1 & I2 & I3 & I4).
  assert (b23 = true) as -> by tauto.
  assert (bbal = true) as -> by tauto.
  assert (bbst = true) as -> by tauto. done.
Qed.

(** X4.  On a tree that satisfies the invariants Min returns nil exactly
    when the tree is empty, and otherwise a stored element that no stored
    element is below. *)
Theorem Min_returns_least fuel s τ tr sz :
  tree_at s τ tr sz → ok tr → (Abs.height tr < fuel)%nat →
  ∃ r, Tree.Min fuel (Some τ) s = Ok (r, s)
    ∧ match r with
      | None => Abs.elements tr = []
      | Some m => m ∈ Abs.elements tr
                  ∧ ∀ y, y ∈ Abs.elements tr → Compare m y <= 0
      end.
Proof.
  intros Hat Hok Hf. exists (Abs.min tr). split; [by eapply Min_ok|].
  rewrite min_head. pose proof (bst_sorted tr ltac:(apply Hok)) as Hs.
  destruct (head (Abs.elements tr)) as [m|] eqn:E.
  - split; [by apply head_Some_elem_of|]. by apply sorted_head_least.
  - by apply head_None.
Qed.

(** X5.  On a tree that satisfies the invariants Max returns nil exactly
    when the tree is empty, and otherwise a stored element that no stored
    element is above. *)
Theorem Max_returns_greatest fuel s τ tr sz :
  tree_at s τ tr sz → ok tr → (Abs.height tr < fuel)%nat →
  ∃ r, Tree.Max fuel (Some τ) s = Ok (r, s)
    ∧ match r with
      | None => Abs.elements tr = []
      | Some m => m ∈ Abs.elements tr
                  ∧ ∀ y, y ∈ Abs.elements tr → Compare y m <= 0
      end.
Proof.
  intros Hat Hok Hf. exists (Abs.max tr). split; [by eapply Max_ok|].
  rewrite max_last. pose proof (bst_sorted tr ltac:(apply Hok)) as Hs.
  destruct (last (Abs.elements tr)) as [m|] eqn:E.
  - split; [|by apply sorted_last_greatest].
    apply last_Some in E as [l' ->]. apply elem_of_app. right.
    by apply list_elem_of_singleton.
  - by apply last_None.
Qed.

(** X6.  On a tree that satisfies the invariants Get returns a stored
    element that compares equal to the key, and nil exactly when no stored
    element compares equal to it. *)
Theorem Get_returns_match fuel s τ tr sz (x : Element) :
  tree_at s τ tr sz → ok tr → (Abs.height tr ≤ fuel)%nat →
  ∃ r, Tree.Get fuel (Some τ) (Some x) s = Ok (r, s)
    ∧ match r with
      | None => ∀ y, y ∈ Abs.elements tr → Compare x y ≠ 0
      | Some e => e ∈ Abs.elements tr ∧ Compare x e = 0
      end.
Proof.
  intros Hat Hok Hf. exists (Abs.find x tr). split; [by eapply Get_ok|].
  rewrite find_spec by apply Hok. unfold lfind.
  destruct (List.find _ (Abs.elements tr)) as [e|] eqn:E.
  - apply List.find_some in E as [Hin He]. split; [by apply list_elem_of_In|].
    by apply Z.eqb_eq.
  - intros y Hy Ey. apply list_elem_of_In in Hy.
    eapply List.find_none in E; [|exact Hy]. simpl in E. lia.
Qed.

(** X7.  DeleteMin on a transaction whose tree satisfies the invariants and
    whose count is accurate removes the first element of the in-order
    contents and nothing else; the invariants still hold and the count is
    still accurate. *)
Theorem DeleteMin_removes_least fuel s τ tr :
  tree_at s τ tr (Z.of_nat (Abs.count tr)) → ok tr →
  (Abs.count tr < fuel)%nat →
  wp (Txn.DeleteMin fuel (mkTxn (Some τ))) s
     (λ _ s', ∃ tr', tree_at s' τ tr' (Z.of_nat (Abs.count tr')) ∧ ok tr'
        ∧ Abs.elements tr' = tail (Abs.elements tr)).
Proof.
  intros Hat Hok Hf. eapply wp_mono; [by apply DeleteMin_wp|].
  intros [] s' (tr' & (Hat' & _) & Hok' & He). exists tr'.
  split; [|done]. pose proof (count_tail_elements _ _ He) as Hc.
  destruct Hat as (? & ? & _ & Hz & _).
  eapply tree_at_count_step; [exact Hat'|lia| |done].
  destruct (Abs.is_nil tr); lia.
Qed.

(** X8.  DeleteMax on a transaction whose tree satisfies the invariants and
    whose count is accurate removes the last element of the in-order
    contents and nothing else; the invariants still hold and the count is
    still accurate. *)
Theorem DeleteMax_removes_greatest fuel s τ tr :
  tree_at s τ tr (Z.of_nat (Abs.count tr)) → ok tr →
  (Abs.count tr < fuel)%nat →
  wp (Txn.DeleteMax fuel (mkTxn (Some τ))) s
     (λ _ s', ∃ tr', tree_at s' τ tr' (Z.of_nat (Abs.count tr')) ∧ ok tr'
        ∧ Abs.elements tr' = removelast (Abs.elements tr)).
Proof.
  intros Hat Hok Hf. eapply wp_mono; [by apply DeleteMax_wp|].
  intros [] s' (tr' & (Hat' & _) & Hok' & He). exists tr'.
  split; [|done]. pose proof (count_removelast_elements _ _ He) as Hc.
  destruct Hat as (? & ? & _ & Hz & _).
  eapply tree_at_count_step; [exact Hat'|lia| |done].
  destruct (Abs.is_nil tr); lia.
Qed.

(** X9.  On a tree that satisfies the invariants ForEach shows the visitor
    the stored elements in strictly increasing order, stops at the first
    element for which the visitor returns true, and returns whether it
    stopped. *)
Theorem ForEach_visits_in_order {V} fuel s τ tr sz
    (fn : Visitor Element V) (v : V) :
  tree_at s τ tr sz → ok tr → (Abs.height tr ≤ fuel)%nat →
  Tree.ForEach fuel (Some τ) fn v s = Ok (visit fn (Abs.elements tr) v, s)
  ∧ sorted (Abs.elements tr).
Proof.
  intros Hat Hok Hf. split; [by eapply ForEach_ok|]. apply bst_sorted, Hok.
Qed.

(** X13.  Insert of an element that is not in the tree, followed by Delete
    of it, gives back the in-order contents and the count the transaction
    started from. *)
Theorem insert_then_delete_restores fuel s τ tr sz (x : Element) :
  tree_at s τ tr sz → ok tr → (S (Abs.count tr) < fuel)%nat →
  Abs.find x tr = None →
  wp (Txn.Insert fuel (mkTxn (Some τ)) (Some x) ;;
      Txn.Delete fuel (mkTxn (Some τ)) (Some x)) s
     (λ _ s', ∃ tr', tree_at s' τ tr' sz ∧ ok tr'
        ∧ Abs.elements tr' = Abs.elements tr).
Proof.
  intros Hat Hok Hf Hx. pose proof (bst_sorted tr ltac:(apply Hok)) as Hs.
  apply wp_bind. eapply wp_mono.
  { apply Insert_wp; [done..|]. pose proof (height_le_count tr). lia. }
  intros [] s1 (tr1 & (Hat1 & _) & Hok1 & He1). simpl.
  assert (Abs.count tr1 < fuel)%nat as Hf1.
  { rewrite count_elements, He1. pose proof (length_linsert_le x (Abs.elements tr)).
    rewrite count_elements in Hf. lia. }
  eapply wp_mono; [by apply Delete_wp|].
  intros [] s2 (tr2 & (Hat2 & _) & Hok2 & He2). exists tr2.
  assert (Abs.find x tr1 = Some x) as Hx1.
  { rewrite find_spec, He1 by apply Hok1. apply lfind_linsert; [done|].
    apply compare_refl. }
  unfold delta_ins, delta_del in Hat2. rewrite Hx, Hx1 in Hat2.
  rewrite int_add_1_m1 in Hat2 by (by destruct Hat as (? & ? & _ & ? & _)).
  split; [done|]. split; [done|].
  rewrite He2, He1. apply lremove_linsert; [done|].
  by rewrite <- find_spec by apply Hok.
Qed.

(** X14.  Insert of the same element twice leaves the in-order contents
    and the count that one Insert leaves. *)
Theorem insert_twice_is_insert_once fuel s τ tr sz (x : Element) :
  tree_at s τ tr sz → ok tr → (S (Abs.count tr) < fuel)%nat →
  wp (Txn.Insert fuel (mkTxn (Some τ)) (Some x) ;;
      Txn.Insert fuel (mkTxn (Some τ)) (Some x)) s
     (λ _ s', ∃ tr', tree_at s' τ tr' (int_add sz (delta_ins x tr)) ∧ ok tr'
        ∧ Abs.elements tr' = linsert x (Abs.elements tr)).
Proof.
  intros Hat Hok Hf. pose proof (bst_sorted tr ltac:(apply Hok)) as Hs.
  apply wp_bind. eapply wp_mono.
  { apply Insert_wp; [done..|]. pose proof (height_le_count tr). lia. }
  intros [] s1 (tr1 & (Hat1 & _) & Hok1 & He1). simpl.
  assert (Abs.count tr1 < fuel)%nat as Hf1.
  { rewrite count_elements, He1. pose proof (length_linsert_le x (Abs.elements tr)).
    rewrite count_elements in Hf. lia. }
  eapply wp_mono.
  { apply Insert_wp; [done..|]. pose proof (height_le_count tr1). lia. }
  intros [] s2 (tr2 & (Hat2 & _) & Hok2 & He2). exists tr2.
  assert (Abs.find x tr1 = Some x) as Hx1.
  { rewrite find_spec, He1 by apply Hok1. apply lfind_linsert; [done|].
    apply compare_refl. }
  assert (delta_ins x tr1 = 0) as D by (unfold delta_ins; by rewrite Hx1).
  rewrite D, int_add_add_0 in Hat2.
  split; [done|]. split; [done|]. by rewrite He2, He1, linsert_idem.
Qed.

(** X15.  The tree committed at the end of a chain of transactions that
    starts from the empty tree holds what the operations dictate: Len is the
    number of elements that remain and ForEach shows them in increasing
    order. *)
Theorem history_determines_contents {V}
    (batches : list (list (mutation Element))) fuel s
    (fn : Visitor Element V) (v : V) :
  (length (concat batches) ≤ fuel)%nat →
  Z.of_nat (length (concat batches)) < 2 ^ 63 →
  wp (let! tp := from_empty fuel batches in
      let! n := Tree.Len tp in
      let! r := Tree.ForEach fuel tp fn v in
      ret (n, r)) s
     (λ res _,
        res.1 = Z.of_nat (length (effects (concat batches) []))
        ∧ res.2 = visit fn (effects (concat batches) []) v
        ∧ sorted (effects (concat batches) [])).
Proof.
  intros Hf Hlt. apply wp_bind.
  eapply wp_mono; [by apply from_empty_holds|].
  intros t s' (τ & -> & tr & Hat & Hok & He). simpl.
  pose proof (length_effects_le (concat batches) ([] : list Element)) as Hl.
  simpl in Hl.
  eapply wp_step; [by eapply Len_ok|].
  eapply wp_step.
  { eapply ForEach_ok; [done|]. pose proof (height_le_count tr).
    rewrite count_elements, He in H. lia. }
  apply wp_ret. simpl. rewrite He. split; [|split; [done|]].
  - apply int_wrap_id. unfold is_int. lia.
  - rewrite <- He. apply bst_sorted, Hok.
Qed.

(** X16.  The tree committed at the end of a chain of transactions that
    starts from the empty tree is shallow: with [n] elements its depth [d]
    satisfies 2^d <= (n+1)^2. *)
Theorem committed_tree_is_shallow
    (batches : list (list (mutation Element))) fuel s :
  (length (concat batches) ≤ fuel)%nat →
  wp (from_empty fuel batches) s
     (λ tp s', ∃ τ tr sz, tp = Some τ ∧ tree_at s' τ tr sz
        ∧ (2 ^ Abs.height tr ≤ (Abs.count tr + 1) ^ 2)%nat).
Proof.
  intros Hf. eapply wp_mono; [by apply from_empty_holds|].
  intros t s' (τ & -> & tr & Hat & Hok & _).
  eexists τ, tr, _. split; [done|]. split; [done|]. by apply ok_height.
Qed.

(** X17.  On a tree that satisfies the invariants, Range with two bounds
    that compare equal shows the visitor nothing and returns false. *)
Theorem Range_of_empty_interval {V} fuel s τ tr sz (lo hi : Element)
    (fn : Visitor Element V) (v : V) :
  tree_at s τ tr sz → ok tr → (Abs.height tr ≤ fuel)%nat →
  Compare lo hi = 0 →
  Tree.Range fuel (Some τ) (Some lo) (Some hi) fn v s = Ok ((false, v), s).
Proof.
  intros Hat Hok Hf E.
  erewrite Range_ok; [|done|apply Hok|done|lia].
  rewrite filter_range_nil; [done|].
  apply Forall_forall. intros y _. apply in_range_empty. order.
Qed.

(** X18.  A mutation made through a transaction adds no Tree and changes
    the root pointer and the count of no Tree but the transaction's own. *)
Theorem mutation_leaves_other_trees fuel s τ tr sz o :
  tree_at s τ tr sz → ok tr → (Abs.count tr < fuel)%nat →
  wp (apply fuel (mkTxn (Some τ)) o) s
     (λ _ s', length (trees s') = length (trees s)
        ∧ ∀ τ', τ' ≠ τ → trees s' !! τ' = trees s !! τ').
Proof.
  intros Hat Hok Hf. eapply wp_mono; [by apply apply_wp|].
  by intros [] s' (tr' & (_ & Hlen & Hfr) & _).
Qed.

(** X19.  On an empty tree Delete, DeleteMin and DeleteMax return at once:
    the store is left exactly as it was, whatever element Delete is
    given. *)
Theorem deletes_on_empty_tree fuel s τ sz (e : option Element) :
  tree_at s τ Abs.Leaf sz →
  Txn.Delete fuel (mkTxn (Some τ)) e s = Ok (tt, s)
  ∧ Txn.DeleteMin fuel (mkTxn (Some τ)) s = Ok (tt, s)
  ∧ Txn.DeleteMax fuel (mkTxn (Some τ)) s = Ok (tt, s).
Proof. apply empty_deletes. Qed.

End Further.

Section FurtherHeap.

Context {Element : Type} {Cmp : ElementOps Element}.

Implicit Types (s : store Element) (τ : nat) (tr t : Abs.tree Element) (sz : Z)
  (h : list (node Element)) (p : ptr) (F : gset nat) (xs : list Element).

(** X10.  Snapshot writes to no cell that exists: it appends one Tree, and
    one node when the tree is not empty, and the new Tree reads as the old
    one with the same count.  On a nil receiver it appends an empty Tree. *)
Theorem Snapshot_appends s τ tr sz :
  tree_at s τ tr sz →
  Tree.Snapshot None s
    = Ok (Some (length (trees s)),
          mkStore (nodes s) (trees s ++ [mkTree None 0]))
  ∧ ∃ added r',
      Tree.Snapshot (Some τ) s
        = Ok (Some (length (trees s)),
              mkStore (nodes s ++ added) (trees s ++ [mkTree r' sz]))
      ∧ length added = (if Abs.is_nil tr then 0 else 1)%nat
      ∧ tree_at (mkStore (nodes s ++ added) (trees s ++ [mkTree r' sz]))
          (length (trees s)) tr sz.
Proof.
  intros (r & F & HT & Hz & Hr). split; [done|].
  assert ((trees s ++ [mkTree None 0]) !! τ = Some (mkTree r sz)) as HT1.
  { by apply lookup_app_l_Some. }
  assert (length (trees s) ≠ τ) as Hne.
  { apply lookup_lt_Some in HT. lia. }
  assert (∀ T, <[length (trees s) := T]> (trees s ++ [mkTree None 0])
               = trees s ++ [T]) as Hins.
  { intros T. rewrite insert_app_r_alt by lia. by rewrite Nat.sub_diag. }
  assert (∀ T T', <[length (trees s) := T']> (trees s ++ [T])
               = trees s ++ [T']) as Hins'.
  { intros T T'. rewrite insert_app_r_alt by lia. by rewrite Nat.sub_diag. }
  unfold Tree.Snapshot.
  erewrite bind_ok by reflexivity. cbn [nodes trees].
  erewrite bind_ok by (eapply get_size_ok; exact HT1). cbn [size].
  erewrite bind_ok.
  2:{ eapply set_size_ok. cbn [trees]. by rewrite lookup_app_r, Nat.sub_diag. }
  cbn [nodes trees with_size root]. rewrite Hins.
  erewrite bind_ok.
  2:{ eapply get_root_ok. cbn [trees]. by apply lookup_app_l_Some. }
  cbn [root].
  destruct tr as [|c l e rr].
  - apply repr_nil_inv in Hr as [-> ->].
    exists [], None. rewrite app_nil_r. split; [done|]. split; [done|].
    exists None, ∅. cbn [nodes trees]. split; [|split; [done|constructor]].
    by rewrite lookup_app_r, Nat.sub_diag.
  - pose proof Hr as Hr0.
    apply repr_node_inv in Hr
      as (a & pl & pr & Fl & Fr & -> & -> & Ha & Hl & Hrr & ? & ? & ?).
    exists [mkNode (Some e) pr pl c], (Some (length (nodes s))).
    split; [|split; [done|]].
    + set (st := mkStore (nodes s) (trees s ++ [mkTree None sz])).
      assert (on_nodes (node.copy (Some a)) st
              = Ok (Some (length (nodes s)),
                    mkStore (nodes s ++ [mkNode (Some e) pr pl c]) (trees st)))
        as Ecopy.
      { unfold on_nodes, node.copy, bind, load, new. cbn [nodes st].
        by rewrite Ha. }
      erewrite bind_ok.
      2:{ rewrite (bind_ok _ _ _ _ _ Ecopy).
          eapply set_root_ok. cbn [trees st].
          by rewrite lookup_app_r, Nat.sub_diag. }
      unfold ret. cbn [nodes trees st with_root size]. by rewrite Hins'.
    + exists (Some (length (nodes s))), ({[length (nodes s)]} ∪ Fl ∪ Fr).
      cbn [nodes trees]. split; [by rewrite lookup_app_r, Nat.sub_diag|].
      split; [done|].
      pose proof (repr_dom _ _ _ _ Hl) as Dl.
      pose proof (repr_dom _ _ _ _ Hrr) as Dr.
      econstructor.
      * by rewrite lookup_app_r, Nat.sub_diag.
      * by apply repr_new.
      * by apply repr_new.
      * intros Hin. apply Dl in Hin. lia.
      * intros Hin. apply Dr in Hin. lia.
      * done.
Qed.

(** X11.  On a node of a heap that is shaped like a tree, rotateLeft and
    rotateRight keep the in-order contents and stay within the cells of the
    subtree.  rotateLeft faults when the right child is nil, rotateRight
    when the left child is nil. *)
Theorem rotations_keep_contents h p t F :
  repr h p t F →
  match Abs.rotateLeft t with
  | Some t' => wp (node.rotateLeft p) h (same_fp h t' F)
               ∧ Abs.elements t' = Abs.elements t
  | None => node.rotateLeft p h = Panic NilDeref
  end
  ∧ match Abs.rotateRight t with
    | Some t' => wp (node.rotateRight p) h (same_fp h t' F)
                 ∧ Abs.elements t' = Abs.elements t
    | None => node.rotateRight p h = Panic NilDeref
    end.
Proof.
  intros Hr. split.
  - destruct (Abs.rotateLeft t) as [t'|] eqn:E.
    + split; [by eapply rotateLeft_wp|by eapply elements_rotateLeft].
    + destruct t as [|c l e r]; [by apply repr_nil_inv in Hr as [-> _]|].
      destruct r; [|done].
      apply repr_node_inv in Hr
        as (a & pl & pr & Fl & Fr & -> & -> & Ha & Hl & Hrr & ? & ? & ?).
      apply repr_nil_inv in Hrr as [-> _].
      by eapply rotateLeft_nil_right.
  - destruct (Abs.rotateRight t) as [t'|] eqn:E.
    + split; [by eapply rotateRight_wp|by eapply elements_rotateRight].
    + destruct t as [|c l e r]; [by apply repr_nil_inv in Hr as [-> _]|].
      destruct l; [|done].
      apply repr_node_inv in Hr
        as (a & pl & pr & Fl & Fr & -> & -> & Ha & Hl & Hrr & ? & ? & ?).
      apply repr_nil_inv in Hl as [-> _].
      by eapply rotateRight_nil_left.
Qed.

(** X12.  On a node of a heap that is shaped like a tree, [fixUp] and the
    repair that [insert] makes inline leave the same tree, unless the node
    has a red right child together with a red left child whose own left
    child is red. *)
Theorem fixUp_agrees_with_insert_repair h p t F (m : Z) :
  repr h p t F → Abs.is_nil t = false →
  (Abs.isRed (Abs.right t) = true → Abs.isRed (Abs.left t) = true →
   Abs.isRed (Abs.left (Abs.left t)) = false) →
  ∃ t', wp (node.fixUp p) h (same_fp h t' F)
    ∧ wp (insert_tail p m) h (λ res h', res.2 = m ∧ same_fp h t' F res.1 h').
Proof.
  intros Hr Hn Hc. destruct (fixUp_defined t Hn) as [t' E]. exists t'.
  split; [by eapply fixUp_wp|].
  eapply insert_tail_wp; [done..|]. by apply fixUp_insert_repair.
Qed.

(** X20.  A nil element given to Get, Insert or Delete on a tree that is
    not empty faults: the method call on the nil interface value is a nil
    dereference. *)
Theorem nil_element_faults fuel s τ tr sz :
  tree_at s τ tr sz → Abs.is_nil tr = false → (0 < fuel)%nat →
  Tree.Get fuel (Some τ) None s = Panic NilDeref
  ∧ Txn.Insert fuel (mkTxn (Some τ)) None s = Panic NilDeref
  ∧ Txn.Delete fuel (mkTxn (Some τ)) None s = Panic NilDeref.
Proof.
  intros Hat Hn Hf. pose proof Hat as (r & F & HT & Hz & Hr).
  destruct tr as [|c l e rr]; [done|].
  apply repr_node_inv in Hr
    as (a & pl & pr & Fl & Fr & -> & -> & Ha & Hl & Hrr & ? & ? & ?).
  destruct fuel as [|fuel]; [lia|].
  assert (node.copy (Some a) (nodes s)
          = Ok (Some (length (nodes s)),
                nodes s ++ [mkNode (Some e) pr pl c])) as Ecopy.
  { unfold node.copy, bind, load, new. by rewrite Ha. }
  split; [|split].
  - unfold Tree.Get. rewrite (bind_ok _ _ _ _ _ (get_root_ok _ _ _ HT)).
    cbn [root]. unfold bind, on_nodes. cbn [node.find].
    by rewrite (bind_ok _ _ _ _ _ (get_elem_ok _ _ _ Ha)).
  - unfold Txn.Insert. cbn [tree].
    rewrite (bind_ok _ _ _ _ _ (get_root_ok _ _ _ HT)).
    cbn [root]. unfold bind at 1, on_nodes. cbn [node.insert].
    rewrite (bind_ok _ _ _ _ _ (get_elem_ok _ _ _ Ha)). cbn [elem].
    rewrite (bind_ok _ _ _ _ _ Ecopy).
    erewrite bind_ok.
    2:{ eapply get_elem_ok. apply lookup_new. }
    done.
  - unfold Txn.Delete. erewrite bind_ok by (by eapply is_empty_ok).
    cbn [Abs.is_nil tree].
    rewrite (bind_ok _ _ _ _ _ (get_root_ok _ _ _ HT)).
    cbn [root]. unfold bind at 1, on_nodes. cbn [node.delete].
    rewrite (bind_ok _ _ _ _ _ Ecopy).
    erewrite bind_ok.
    2:{ eapply get_elem_ok. apply lookup_new. }
    done.
Qed.

End FurtherHeap.

Section FurtherEdge.

Context {Element : Type} {Cmp : ElementOps Element}.

Implicit Types (s : store Element) (τ : nat) (tr t : Abs.tree Element) (sz : Z)
  (h : list (node Element)) (p : ptr) (F : gset nat) (xs : list Element).

Lemma elements_flipColors t t' :
  Abs.flipColors t = Some t' → Abs.elements t' = Abs.elements t.
Proof.
  destruct t as [|c [|lc ll le lr] e [|rc rl re rr]]; simpl; intros;
    by simplify_eq.
Qed.

Lemma elements_fixUp t t' :
  Abs.fixUp t = Some t' → Abs.elements t' = Abs.elements t.
Proof.
  unfold Abs.fixUp. destruct (Abs.is_nil t); [done|]. intros E.
  destruct (if Abs.isRed (Abs.right t) then _ else _) as [t1|] eqn:E1;
    [|done]. simpl in E.
  destruct (if Abs.isRed (Abs.left t1) && _ then _ else _) as [t2|] eqn:E2;
    [|done]. simpl in E.
  assert (Abs.elements t1 = Abs.elements t) as <-.
  { destruct (Abs.isRed (Abs.right t));
      [by eapply elements_rotateLeft|by simplify_eq]. }
  assert (Abs.elements t2 = Abs.elements t1) as <-.
  { destruct (_ && _) in E2; [by eapply elements_rotateRight|by simplify_eq]. }
  destruct (_ && _) in E; [by eapply elements_flipColors|by simplify_eq].
Qed.

Lemma elements_set_right t r' t' :
  Abs.set_right t r' = Some t' →
  Abs.elements r' = Abs.elements (Abs.right t) →
  Abs.elements t' = Abs.elements t.
Proof. destruct t; simpl; intros; simplify_eq. simpl. congruence. Qed.

Lemma elements_moveRedLeft t t' :
  Abs.moveRedLeft t = Some t' → Abs.elements t' = Abs.elements t.
Proof.
  unfold Abs.moveRedLeft. intros E.
  destruct (Abs.flipColors t) as [t1|] eqn:E1; [|done]. simpl in E.
  apply elements_flipColors in E1 as <-.
  destruct (Abs.isRed (Abs.left (Abs.right t1))); [|by simplify_eq].
  destruct (Abs.rotateRight (Abs.right t1)) as [r'|] eqn:E2; [|done].
  simpl in E.
  destruct (Abs.set_right t1 r') as [t2|] eqn:E3; [|done]. simpl in E.
  destruct (Abs.rotateLeft t2) as [t3|] eqn:E4; [|done]. simpl in E.
  apply elements_flipColors in E as ->.
  apply elements_rotateLeft in E4 as ->.
  eapply elements_set_right; [done|]. by eapply elements_rotateRight.
Qed.

Lemma elements_moveRedRight t t' :
  Abs.moveRedRight t = Some t' → Abs.elements t' = Abs.elements t.
Proof.
  unfold Abs.moveRedRight. intros E.
  destruct (Abs.flipColors t) as [t1|] eqn:E1; [|done]. simpl in E.
  apply elements_flipColors in E1 as <-.
  destruct (Abs.isRed (Abs.left (Abs.left t1))); [|by simplify_eq].
  destruct (Abs.rotateRight t1) as [t2|] eqn:E2; [|done]. simpl in E.
  apply elements_flipColors in E as ->.
  by apply elements_rotateRight in E2 as ->.
Qed.

(** X21.  Insert of nil into an empty tree does not fault: it stores a node
    without an element and counts it.  The next Insert fills that node in
    place and counts again, so the tree then holds one element under a
    count of two. *)
Theorem nil_insert_counts_twice fuel s τ sz (x : Element) :
  tree_at s τ Abs.Leaf sz → (0 < fuel)%nat →
  wp (Txn.Insert fuel (mkTxn (Some τ)) None ;;
      Txn.Insert fuel (mkTxn (Some τ)) (Some x)) s
     (λ _ s', tree_at s' τ (Abs.Node black Abs.Leaf x Abs.Leaf)
                (int_add (int_add sz 1) 1)).
Proof.
  intros (r & F & HT & Hz & Hr) Hf. apply repr_nil_inv in Hr as [-> _].
  destruct fuel as [|fuel]; [lia|].
  set (a := length (nodes s)).
  apply wp_bind. unfold Txn.Insert at 1. cbn [tree].
  sstep.
  eapply wp_step.
  { apply on_nodes_ok. cbn [node.insert]. reflexivity. }
  cbn beta iota. repeat sstep.
  eapply wp_eq.
  { apply on_nodes_ok. cbn [nodes]. eapply set_color_ok. apply lookup_new. }
  cbn [with_color elem right left color trees nodes].
  unfold Txn.Insert. cbn [tree]. sstep.
  eapply wp_step.
  { apply on_nodes_ok. cbn [nodes node.insert].
    eapply bind_ok_eq.
    { eapply get_elem_ok. eapply lookup_upd_eq. apply lookup_new. }
    cbn [elem with_color].
    eapply bind_ok_eq; [|reflexivity].
    eapply set_elem_ok. eapply lookup_upd_eq. apply lookup_new. }
  cbn beta iota. cbn [with_elem elem right left color]. repeat sstep.
  eapply wp_eq.
  { apply on_nodes_ok. cbn [nodes]. eapply set_color_ok.
    eapply lookup_upd_eq. eapply lookup_upd_eq. apply lookup_new. }
  exists (Some a), ({[a]} ∪ ∅ ∪ ∅). cbn [nodes trees].
  split; [store_lookup|]. split; [apply int_add_is_int|].
  econstructor; [|constructor|constructor|set_solver..].
  cbn [with_color elem right left color].
  eapply lookup_upd_eq. eapply lookup_upd_eq. eapply lookup_upd_eq.
  apply lookup_new.
Qed.

(** X22.  On a node of a heap that is shaped like a tree, flipColors,
    fixUp, moveRedLeft and moveRedRight change colours and shape only: the
    in-order contents and the set of cells of the subtree stay as they
    were. *)
Theorem restructuring_keeps_contents h p t F :
  repr h p t F →
  (∀ t', Abs.flipColors t = Some t' →
     wp (node.flipColors p) h (λ _ h', same_fp h t' F p h')
     ∧ Abs.elements t' = Abs.elements t)
  ∧ (∀ t', Abs.fixUp t = Some t' →
       wp (node.fixUp p) h (same_fp h t' F)
       ∧ Abs.elements t' = Abs.elements t)
  ∧ (∀ t', Abs.moveRedLeft t = Some t' →
       wp (node.moveRedLeft p) h (same_fp h t' F)
       ∧ Abs.elements t' = Abs.elements t)
  ∧ (∀ t', Abs.moveRedRight t = Some t' →
       wp (node.moveRedRight p) h (same_fp h t' F)
       ∧ Abs.elements t' = Abs.elements t).
Proof.
  intros Hr. repeat split.
  - by eapply flipColors_wp.
  - by eapply elements_flipColors.
  - by eapply fixUp_wp.
  - by eapply elements_fixUp.
  - by eapply moveRedLeft_wp.
  - by eapply elements_moveRedLeft.
  - by eapply moveRedRight_wp.
  - by eapply elements_moveRedRight.
Qed.

End FurtherEdge.

(** *** The further properties at concrete inputs *)

Lemma queries_never_write_witness :
  ask (V := list Z) 1 (Some 0%nat) (AskGet 7) (single 7)
    = Ok (GotElem (Some 7), single 7)
  ∧ single 7 = single 7.
Proof.
  split; [reflexivity|].
  apply (queries_never_write (V := list Z) 1%nat (Some 0%nat) (AskGet 7)
           (single 7) (GotElem (Some 7)) (single 7)).
  reflexivity.
Defined.

Lemma checkers_decide_invariants_witness :
  (Abs.height (Abs.Node black Abs.Leaf 7 Abs.Leaf) < 2)%nat
  ∧ ∃ b23 bbal bbst,
      Tree_is23 2 (Some 0%nat) (single 7) = Ok (b23, single 7)
      ∧ Tree_isBalanced 2 (Some 0%nat) (single 7) = Ok (bbal, single 7)
      ∧ Tree_isBST 2 (Some 0%nat) (single 7) = Ok (bbst, single 7)
      ∧ (b23 = true ∧ bbal = true ∧ bbst = true
         ↔ invariants (Abs.Node black Abs.Leaf 7 Abs.Leaf)).
Proof.
  split; [simpl; lia|].
  apply (checkers_decide_invariants (Ord := Int_TotalPreorder)
           2%nat (single 7) 0%nat _ 1 (single_tree 7)).
  - simpl; lia.
  - simpl; lia.
Defined.

Lemma mutation_passes_checkers_witness :
  (Abs.count (Abs.Node black Abs.Leaf 7 Abs.Leaf) < 2)%nat
  ∧ wp (apply 2 (mkTxn (Some 0%nat)) (DoInsert 3)) (single 7)
       (λ _ s', Tree_is23 3 (Some 0%nat) s' = Ok (true, s')
          ∧ Tree_isBalanced 3 (Some 0%nat) s' = Ok (true, s')
          ∧ Tree_isBST 3 (Some 0%nat) s' = Ok (true, s')).
Proof.
  split; [simpl; lia|].
  apply (mutation_passes_checkers (Ord := Int_TotalPreorder)
           2%nat (single 7) 0%nat _ 1 (DoInsert 3)
           (single_tree 7) (single_ok 7)).
  - simpl; lia.
  - simpl; lia.
Defined.

Lemma Min_returns_least_witness :
  ∃ r, Tree.Min 2 (Some 0%nat) (single 7) = Ok (r, single 7)
    ∧ match r with
      | None => Abs.elements (Abs.Node black Abs.Leaf 7 Abs.Leaf) = []
      | Some m => m ∈ Abs.elements (Abs.Node black Abs.Leaf 7 Abs.Leaf)
                  ∧ ∀ y, y ∈ Abs.elements (Abs.Node black Abs.Leaf 7 Abs.Leaf)
                         → Compare m y <= 0
      end.
Proof.
  apply (Min_returns_least (Ord := Int_TotalPreorder)
           2%nat (single 7) 0%nat _ 1 (single_tree 7) (single_ok 7)).
  simpl; lia.
Defined.

Lemma Max_returns_greatest_witness :
  ∃ r, Tree.Max 2 (Some 0%nat) (single 7) = Ok (r, single 7)
    ∧ match r with
      | None => Abs.elements (Abs.Node black Abs.Leaf 7 Abs.Leaf) = []
      | Some m => m ∈ Abs.elements (Abs.Node black Abs.Leaf 7 Abs.Leaf)
                  ∧ ∀ y, y ∈ Abs.elements (Abs.Node black Abs.Leaf 7 Abs.Leaf)
                         → Compare y m <= 0
      end.
Proof.
  apply (Max_returns_greatest (Ord := Int_TotalPreorder)
           2%nat (single 7) 0%nat _ 1 (single_tree 7) (single_ok 7)).
  simpl; lia.
Defined.

Lemma Get_returns_match_witness :
  ∃ r, Tree.Get 1 (Some 0%nat) (Some 7) (single 7) = Ok (r, single 7)
    ∧ match r with
      | None => ∀ y, y ∈ Abs.elements (Abs.Node black Abs.Leaf 7 Abs.Leaf)
                     → Compare 7 y ≠ 0
      | Some e => e ∈ Abs.elements (Abs.Node black Abs.Leaf 7 Abs.Leaf)
                  ∧ Compare 7 e = 0
      end.
Proof.
  apply (Get_returns_match (Ord := Int_TotalPreorder)
           1%nat (single 7) 0%nat _ 1 7 (single_tree 7) (single_ok 7)).
  simpl; lia.
Defined.

Lemma DeleteMin_removes_least_witness :
  (Abs.count (Abs.Node black Abs.Leaf 7 Abs.Leaf) < 2)%nat
  ∧ wp (Txn.DeleteMin 2 (mkTxn (Some 0%nat))) (single 7)
       (λ _ s', ∃ tr', tree_at s' 0 tr' (Z.of_nat (Abs.count tr')) ∧ ok tr'
          ∧ Abs.elements tr' = []).
Proof.
  split; [simpl; lia|].
  apply (DeleteMin_removes_least (Ord := Int_TotalPreorder)
           2%nat (single 7) 0%nat _ (single_tree 7) (single_ok 7)).
  simpl; lia.
Defined.

Lemma DeleteMax_removes_greatest_witness :
  (Abs.count (Abs.Node black Abs.Leaf 7 Abs.Leaf) < 2)%nat
  ∧ wp (Txn.DeleteMax 2 (mkTxn (Some 0%nat))) (single 7)
       (λ _ s', ∃ tr', tree_at s' 0 tr' (Z.of_nat (Abs.count tr')) ∧ ok tr'
          ∧ Abs.elements tr' = []).
Proof.
  split; [simpl; lia|].
  apply (DeleteMax_removes_greatest (Ord := Int_TotalPreorder)
           2%nat (single 7) 0%nat _ (single_tree 7) (single_ok 7)).
  simpl; lia.
Defined.

Lemma ForEach_visits_in_order_witness :
  Tree.ForEach 1 (Some 0%nat) collect [] (single 7)
    = Ok (visit collect [7] [], single 7)
  ∧ sorted [7].
Proof.
  apply (ForEach_visits_in_order (Ord := Int_TotalPreorder)
           1%nat (single 7) 0%nat _ 1 collect []
           (single_tree 7) (single_ok 7)).
  simpl; lia.
Defined.

Lemma Snapshot_appends_witness :
  Tree.Snapshot None (single 7)
    = Ok (Some 1%nat,
          mkStore (nodes (single 7)) (trees (single 7) ++ [mkTree None 0]))
  ∧ ∃ added r',
      Tree.Snapshot (Some 0%nat) (single 7)
        = Ok (Some 1%nat,
              mkStore (nodes (single 7) ++ added)
                      (trees (single 7) ++ [mkTree r' 1]))
      ∧ length added = 1%nat
      ∧ tree_at (mkStore (nodes (single 7) ++ added)
                         (trees (single 7) ++ [mkTree r' 1]))
          1 (Abs.Node black Abs.Leaf 7 Abs.Leaf) 1.
Proof.
  apply (Snapshot_appends (single 7) 0%nat _ 1 (single_tree 7)).
Defined.

Lemma rotations_keep_contents_witness :
  (wp (node.rotateLeft (Some 0%nat)) both_red
      (same_fp both_red
         (Abs.Node black
            (Abs.Node red (Abs.Node red Abs.Leaf 1 Abs.Leaf) 2 Abs.Leaf)
            3 Abs.Leaf)
         ({[0%nat]} ∪ ({[1%nat]} ∪ ∅ ∪ ∅) ∪ ({[2%nat]} ∪ ∅ ∪ ∅)))
   ∧ [1; 2; 3] = [1; 2; 3])
  ∧ (wp (node.rotateRight (Some 0%nat)) both_red
        (same_fp both_red
           (Abs.Node black Abs.Leaf 1
              (Abs.Node red Abs.Leaf 2 (Abs.Node red Abs.Leaf 3 Abs.Leaf)))
           ({[0%nat]} ∪ ({[1%nat]} ∪ ∅ ∪ ∅) ∪ ({[2%nat]} ∪ ∅ ∪ ∅)))
     ∧ [1; 2; 3] = [1; 2; 3]).
Proof.
  apply (rotations_keep_contents both_red (Some 0%nat) _ _ both_red_repr).
Defined.

Lemma fixUp_agrees_with_insert_repair_witness :
  ∃ t', wp (node.fixUp (Some 0%nat)) both_red
          (same_fp both_red t'
             ({[0%nat]} ∪ ({[1%nat]} ∪ ∅ ∪ ∅) ∪ ({[2%nat]} ∪ ∅ ∪ ∅)))
    ∧ wp (insert_tail (Some 0%nat) 0) both_red
         (λ res h', res.2 = 0
            ∧ same_fp both_red t'
                ({[0%nat]} ∪ ({[1%nat]} ∪ ∅ ∪ ∅) ∪ ({[2%nat]} ∪ ∅ ∪ ∅))
                res.1 h').
Proof.
  apply (fixUp_agrees_with_insert_repair both_red (Some 0%nat) _ _ 0
           both_red_repr).
  - reflexivity.
  - reflexivity.
Defined.

Lemma insert_then_delete_restores_witness :
  Abs.find 3 (Abs.Node black Abs.Leaf 7 Abs.Leaf) = None
  ∧ wp (Txn.Insert 3 (mkTxn (Some 0%nat)) (Some 3) ;;
        Txn.Delete 3 (mkTxn (Some 0%nat)) (Some 3)) (single 7)
       (λ _ s', ∃ tr', tree_at s' 0 tr' 1 ∧ ok tr'
          ∧ Abs.elements tr' = [7]).
Proof.
  split; [reflexivity|].
  apply (insert_then_delete_restores (Ord := Int_TotalPreorder)
           3%nat (single 7) 0%nat _ 1 3 (single_tree 7) (single_ok 7)).
  - simpl; lia.
  - reflexivity.
Defined.

Lemma insert_twice_is_insert_once_witness :
  wp (Txn.Insert 3 (mkTxn (Some 0%nat)) (Some 3) ;;
      Txn.Insert 3 (mkTxn (Some 0%nat)) (Some 3)) (single 7)
     (λ _ s', ∃ tr', tree_at s' 0 tr' 2 ∧ ok tr'
        ∧ Abs.elements tr' = [3; 7]).
Proof.
  apply (insert_twice_is_insert_once (Ord := Int_TotalPreorder)
           3%nat (single 7) 0%nat _ 1 3 (single_tree 7) (single_ok 7)).
  simpl; lia.
Defined.

Lemma history_determines_contents_witness :
  wp (let! tp := from_empty 4
                     [[DoInsert 2; DoInsert 1; DoInsert 3]; [DoDeleteMin]] in
      let! n := Tree.Len tp in
      let! r := Tree.ForEach 4 tp collect [] in
      ret (n, r)) (mkStore [] [])
     (λ res _, res.1 = 2 ∧ res.2 = (false, [2; 3]) ∧ sorted [2; 3]).
Proof.
  apply (history_determines_contents (Ord := Int_TotalPreorder)
           [[DoInsert 2; DoInsert 1; DoInsert 3]; [DoDeleteMin]]
           4%nat (mkStore [] []) collect []).
  - simpl; lia.
  - simpl; lia.
Defined.

Lemma committed_tree_is_shallow_witness :
  wp (from_empty 4 [[DoInsert 2; DoInsert 1; DoInsert 3]; [DoDeleteMin]])
     (mkStore [] [])
     (λ tp s', ∃ τ tr sz, tp = Some τ ∧ tree_at s' τ tr sz
        ∧ (2 ^ Abs.height tr ≤ (Abs.count tr + 1) ^ 2)%nat).
Proof.
  apply (committed_tree_is_shallow (Ord := Int_TotalPreorder)
           [[DoInsert 2; DoInsert 1; DoInsert 3]; [DoDeleteMin]]
           4%nat (mkStore [] [])).
  simpl; lia.
Defined.

Lemma Range_of_empty_interval_witness :
  Compare 7 7 = 0
  ∧ Tree.Range 1 (Some 0%nat) (Some 7) (Some 7) collect [] (single 7)
    = Ok ((false, []), single 7).
Proof.
  split; [reflexivity|].
  apply (Range_of_empty_interval (Ord := Int_TotalPreorder)
           1%nat (single 7) 0%nat _ 1 7 7 collect []
           (single_tree 7) (single_ok 7)).
  - simpl; lia.
  - reflexivity.
Defined.

Lemma mutation_leaves_other_trees_witness :
  wp (apply 2 (mkTxn (Some 0%nat)) (DoInsert 3)) (single 7)
     (λ _ s', length (trees s') = length (trees (single 7))
        ∧ ∀ τ', τ' ≠ 0%nat → trees s' !! τ' = trees (single 7) !! τ').
Proof.
  apply (mutation_leaves_other_trees (Ord := Int_TotalPreorder)
           2%nat (single 7) 0%nat _ 1 (DoInsert 3)
           (single_tree 7) (single_ok 7)).
  simpl; lia.
Defined.

Lemma deletes_on_empty_tree_witness :
  Txn.Delete 0 (mkTxn (Some 0%nat)) (Some 42) empty_store = Ok (tt, empty_store)
  ∧ Txn.DeleteMin 0 (mkTxn (Some 0%nat)) empty_store = Ok (tt, empty_store)
  ∧ Txn.DeleteMax 0 (mkTxn (Some 0%nat)) empty_store = Ok (tt, empty_store).
Proof.
  apply (deletes_on_empty_tree 0%nat empty_store 0%nat 0 (Some 42)
           empty_store_tree).
Defined.

Lemma nil_element_faults_witness :
  Tree.Get 1 (Some 0%nat) None (single 7) = Panic NilDeref
  ∧ Txn.Insert 1 (mkTxn (Some 0%nat)) None (single 7) = Panic NilDeref
  ∧ Txn.Delete 1 (mkTxn (Some 0%nat)) None (single 7) = Panic NilDeref.
Proof.
  apply (nil_element_faults 1%nat (single 7) 0%nat _ 1 (single_tree 7)).
  - reflexivity.
  - simpl; lia.
Defined.

Lemma nil_insert_counts_twice_witness :
  wp (Txn.Insert 1 (mkTxn (Some 0%nat)) None ;;
      Txn.Insert 1 (mkTxn (Some 0%nat)) (Some 7)) empty_store
     (λ _ s', tree_at s' 0 (Abs.Node black Abs.Leaf 7 Abs.Leaf) 2).
Proof.
  apply (nil_insert_counts_twice 1%nat empty_store 0%nat 0 7 empty_store_tree).
  simpl; lia.
Defined.

Lemma restructuring_keeps_contents_witness :
  wp (node.flipColors (Some 0%nat)) both_red
     (λ _ h', same_fp both_red
                (Abs.Node red (Abs.Node black Abs.Leaf 1 Abs.Leaf) 2
                              (Abs.Node black Abs.Leaf 3 Abs.Leaf))
                ({[0%nat]} ∪ ({[1%nat]} ∪ ∅ ∪ ∅) ∪ ({[2%nat]} ∪ ∅ ∪ ∅))
                (Some 0%nat) h')
  ∧ [1; 2; 3] = [1; 2; 3].
Proof.
  apply (proj1 (restructuring_keeps_contents both_red (Some 0%nat) _ _
                  both_red_repr)).
  reflexivity.
Defined.
